(** * The XPath parser, step engine and sort helper of xslt-processor

    A shallow embedding of [src/xpath/xpath.ts] (class [XPath]) and of
    [xmlParse] of [src/dom/functions.ts], its version detection and its
    scanner, with the properties the specification states about them.

    Conventions.
    - JavaScript strings are [string]s; a character is a code unit below 256.
    - A JavaScript array is a [list] in index order, so the top of the parser
      stack is the LAST element of the list.
    - Code that throws returns [Throw]; a [while] loop is a function with
      fuel, and the fuel the callers pass is proved to be enough.
    - The parse cache, a plain JavaScript object used as a dictionary, is
      a [gmap string Expression] of its own properties together with its
      prototype, which an assignment to the key [__proto__] replaces. *)

From Stdlib Require Import ZArith QArith String Ascii List Lia Bool Permutation.
From stdpp Require Import base strings list gmap.

#[local] Set Warnings "-register-all".

#[local] Open Scope string_scope.

(** ** JavaScript string helpers *)

Module JS.

Definition code (c : ascii) : nat := nat_of_ascii c.

(** [\w] of a regular expression without the [u] flag. *)
Definition isWord (c : ascii) : bool :=
  let n := code c in
  (Nat.leb 48 n && Nat.leb n 57) || (Nat.leb 65 n && Nat.leb n 90)
  || (Nat.leb 97 n && Nat.leb n 122) || Nat.eqb n 95.

(** [[0-9]]. *)
Definition isDigit (c : ascii) : bool :=
  let n := code c in Nat.leb 48 n && Nat.leb n 57.

(** [\s] on code units below 256: tab, line feed, vertical tab, form
    feed, carriage return, space and no-break space. *)
Definition isSpace (c : ascii) : bool :=
  let n := code c in
  (Nat.leb 9 n && Nat.leb n 13) || Nat.eqb n 32 || Nat.eqb n 160.

Fixpoint forallb_string (p : ascii -> bool) (s : string) : bool :=
  match s with
  | EmptyString => true
  | String c r => p c && forallb_string p r
  end.

Definition nonEmpty (s : string) : bool :=
  match s with EmptyString => false | String _ _ => true end.

(** [s.charAt(0) == c]. *)
Definition charAt0_is (c : ascii) (s : string) : bool :=
  match s with
  | EmptyString => false
  | String d _ => Ascii.eqb d c
  end.

(** [s.substr(n)]. *)
Fixpoint substr (n : nat) (s : string) : string :=
  match n, s with
  | O, _ => s
  | S _, EmptyString => EmptyString
  | S k, String _ r => substr k r
  end.

(** [s.replace(/^\s*/, '')]. *)
Fixpoint trimStart (s : string) : string :=
  match s with
  | EmptyString => EmptyString
  | String c r => if isSpace c then trimStart r else s
  end.

(** [s.split(sep)] for a one-character separator. *)
Fixpoint split (sep : ascii) (s : string) : list string :=
  match s with
  | EmptyString => [EmptyString]
  | String c r =>
      if Ascii.eqb c sep then EmptyString :: split sep r
      else match split sep r with
           | h :: t => String c h :: t
           | [] => [String c EmptyString]
           end
  end.

(** [\w+] against the whole string. *)
Definition wordPlus (s : string) : bool :=
  nonEmpty s && forallb_string isWord s.

(** [s.match(/^(\$|@)?\w+$/i)]: the optional group is either empty or
    one of the two sigils. *)
Definition matchesSimple (s : string) : bool :=
  wordPlus s
  || match s with
     | String c r => (Ascii.eqb c "$" || Ascii.eqb c "@") && wordPlus r
     | EmptyString => false
     end.

(** [s.match(/^\w+(\/\w+)*$/i)], as the automaton of the expression:
    [seen] says that the current [\w+] has consumed a character. *)
Fixpoint chainFrom (seen : bool) (s : string) : bool :=
  match s with
  | EmptyString => seen
  | String c r =>
      if isWord c then chainFrom true r
      else if Ascii.eqb c "/" then seen && chainFrom false r
      else false
  end.

Definition matchesChain (s : string) : bool := chainFrom false s.

(** [s.match(/^[0-9]+$/)]. *)
Definition matchesDigits (s : string) : bool :=
  nonEmpty s && forallb_string isDigit s.

(** [s.startsWith(p)]. *)
Definition startsWith (p s : string) : bool := String.prefix p s.

(** [s.substring(1, s.length - 1)]: the two indices are clamped to the
    string and swapped when the first exceeds the second, so a string of
    one character is returned whole. *)
Definition dropEnds (s : string) : string :=
  match String.length s with
  | O => EmptyString
  | S O => s
  | S (S k) => String.substring 1 k s
  end.

Fixpoint dropWhileEnd_aux (p : ascii -> bool) (s : string) : string * bool :=
  match s with
  | EmptyString => (EmptyString, true)
  | String c r =>
      let '(r', tail) := dropWhileEnd_aux p r in
      if tail && p c then (EmptyString, true) else (String c r', false)
  end.

(** [s.replace(/\s*\($/, '')]: a final [(] is removed together with the
    white space before it. *)
Definition stripOpenParen (s : string) : string :=
  match String.length s with
  | O => s
  | S k =>
      if String.eqb (String.substring k 1 s) "("
      then fst (dropWhileEnd_aux isSpace (String.substring 0 k s))
      else s
  end.

End JS.

(** ** Outcomes of code that may throw *)

Inductive exn :=
| ParseError (text : string)   (* [throw `XPath parse error ...`] *)
| TypeError (what : string).   (* a run-time error of the engine *)

Inductive outcome (A : Type) :=
| Ok (a : A)
| Throw (e : exn)
| OutOfFuel.
Arguments Ok {A} a.
Arguments Throw {A} e.
Arguments OutOfFuel {A}.

#[global] Instance outcome_ret : MRet outcome := fun A a => Ok a.

#[global] Instance outcome_bind : MBind outcome := fun A B f x =>
  match x with
  | Ok a => f a
  | Throw e => Throw e
  | OutOfFuel => OutOfFuel
  end.

(** ** Grammar symbols

    The non-terminals of [xpath-grammar-rules.ts], the tokens of
    [tokens.ts] and the three quantifier marks, as [xpath.ts] imports
    them.  They are objects compared by identity. *)

Inductive symbol :=
| XPathLocationPath | XPathRelativeLocationPath | XPathAbsoluteLocationPath
| XPathStep | XPathNodeTest | XPathPredicate | XPathLiteral | XPathExpr
| XPathPrimaryExpr | XPathVariableReference | XPathNumber
| XPathFunctionCall | XPathArgumentRemainder | XPathPathExpr
| XPathUnionExpr | XPathFilterExpr | XPathDigits
| TOK_DIV | TOK_MOD | TOK_AND | TOK_OR | TOK_AT | TOK_DSLASH | TOK_SLASH
| TOK_AXIS | TOK_DOLLAR | TOK_QNAME | TOK_DOT | TOK_DDOT | TOK_AXISNAME
| TOK_ASTERISK | TOK_NCNAME | TOK_COLON | TOK_NODEO | TOK_PARENC
| TOK_BRACKC | TOK_BRACKO | TOK_PARENO | TOK_COMMA | TOK_PIPE | TOK_MINUS
| TOK_EQ | TOK_NEQ | TOK_LT | TOK_LE | TOK_GT | TOK_GE | TOK_PLUS
| TOK_LITERALQ | TOK_LITERALQQ | TOK_NUMBER
| Q_MM | Q_01 | Q_1M.

#[global] Instance symbol_eq_dec : EqDecision symbol.
Proof. solve_decision. Defined.

Definition symbol_eqb (a b : symbol) : bool := bool_decide (a = b).

(** ** Expressions

    The classes of [./expressions] and [./node-tests] that the factory
    functions of the parser build, with the fields those functions set.
    The semantic values on the parser stack are such objects, the arrays
    of a quantified match, or [undefined]. *)

Inductive Expression :=
| Undefined
| JSArray (items : list Expression)
| TokenExpr (value : string)
| LocationExpr (absolute : bool) (steps : list Expression)
| StepExpr (axis : string) (nodeTest : Expression)
    (predicate : list Expression) (hasPositionalPredicate : bool)
| NodeTestAny
| NodeTestElementOrAttribute
| NodeTestNC (name : string)
| NodeTestName (name : string)
| NodeTestText
| NodeTestComment
| NodeTestPI (target : string)
| PredicateExpr (expr : Expression)
| FunctionCallExpr (name : Expression) (args : list Expression)
| UnionExpr (expr1 expr2 : Expression)
| PathExpr (filter rel : Expression)
| FilterExpr (expr : Expression) (predicate : list Expression)
| UnaryMinusExpr (expr : Expression)
| BinaryExpr (expr1 op expr2 : Expression)
| LiteralExpr (value : string)
| NumberExpr (value : string)
| VariableExpr (name : string).

(** A stack frame, [GrammarRuleCandidate]: the parser reads back its
    [tag], [prec] and [expr]. *)
Record frame := Frame {
  f_tag : symbol;
  f_prec : Z;
  f_expr : Expression
}.


(** ** What [xpath.ts] imports

    [tokens.ts], [xpath-grammar-rules.ts] and [./expressions] are not among
    the sources: the parser reads the [label], [prec], [left] and [re]
    properties of the symbol objects, the array [xPathTokenRules], and
    calls [StepExpr.appendPredicate], which keeps the flag
    [hasPositionalPredicate] up to date.  They are a parameter of the
    development.  Every [re] is a regular expression anchored at the start
    of its input, so [re t s] is the length of the prefix of [s] that
    [exec] returns as [result[0]], and [None] when [exec] returns [null].
    [positional p] is the flag [appendPredicate] computes for the
    predicate [p]. *)

Record Imports := {
  label : symbol -> string;
  prec : symbol -> option Z;
  left : symbol -> bool;
  re : symbol -> string -> option nat;
  xPathTokenRules : list symbol;
  positional : Expression -> bool
}.

(** Modelled from the spec: [xPathAxis.CHILD] of [tokens.ts], the name of
    the child axis (section 4.D); [makeStepExpr5] writes it as a literal. *)
Definition xPathAxis_CHILD : string := "child".

(** ** The lexer *)

Definition isOperatorKeyword (t : symbol) : bool :=
  symbol_eqb t TOK_DIV || symbol_eqb t TOK_MOD
  || symbol_eqb t TOK_AND || symbol_eqb t TOK_OR.

(** The look-back test of the lexer: [!previous || previous.tag == ...]. *)
Definition allowsName (previous : option frame) : bool :=
  match previous with
  | None => true
  | Some p =>
      symbol_eqb (f_tag p) TOK_AT || symbol_eqb (f_tag p) TOK_DSLASH
      || symbol_eqb (f_tag p) TOK_SLASH || symbol_eqb (f_tag p) TOK_AXIS
      || symbol_eqb (f_tag p) TOK_DOLLAR
  end.

(** [result[0]] of [rule.re.exec(expression)]. *)
Definition exec (I : Imports) (t : symbol) (expression : string)
  : option string :=
  match re I t expression with
  | Some n => Some (String.substring 0 n expression)
  | None => None
  end.

(** The [for] loop of [findXPathRuleForExpression]: the first rule, in
    table order, whose match is not empty.  The third component counts
    the calls of [exec], which the loop adds to [lexerCount]. *)
Fixpoint firstMatch (I : Imports) (rules : list symbol) (expression : string)
  : option symbol * string * nat :=
  match rules with
  | [] => (None, EmptyString, O)
  | t :: rest =>
      match exec I t expression with
      | Some m =>
          if JS.nonEmpty m then (Some t, m, 1%nat)
          else let '(r, m', k) := firstMatch I rest expression in (r, m', S k)
      | None =>
          let '(r, m', k) := firstMatch I rest expression in (r, m', S k)
      end
  end.

Definition findXPathRuleForExpression (I : Imports)
    (expression : string) (previous : option frame)
  : option symbol * string * nat :=
  let '(rule, m, k) := firstMatch I (xPathTokenRules I) expression in
  match rule with
  | Some t =>
      if isOperatorKeyword t && allowsName previous
      then (Some TOK_QNAME, m, k)
      else (Some t, m, k)
  | None => (None, m, k)
  end.

(** ** The factory functions of the semantic values

    Each function receives the semantic values of the matched symbols.
    An argument of a class other than the one the grammar passes raises
    [TypeError]. *)

Definition illTyped {A} (what : string) : outcome A := Throw (TypeError what).

(** [e.value] of a token expression. *)
Definition valueOf (e : Expression) : outcome string :=
  match e with
  | TokenExpr m => Ok m
  | _ => illTyped "value"
  end.

Definition makeTokenExpr (m : string) : Expression := TokenExpr m.

Definition passExpr (e : Expression) : outcome Expression := Ok e.

Definition makeAbbrevStep (abbrev : string) : Expression :=
  if String.eqb abbrev "//" then StepExpr "descendant-or-self" NodeTestAny [] false
  else if String.eqb abbrev "." then StepExpr "self" NodeTestAny [] false
  else if String.eqb abbrev ".." then StepExpr "parent" NodeTestAny [] false
  else Undefined.

(** [rel.absolute = true]. *)
Definition setAbsolute (rel : Expression) : outcome Expression :=
  match rel with
  | LocationExpr _ steps => Ok (LocationExpr true steps)
  | _ => illTyped "absolute"
  end.

(** Modelled from the spec: [LocationExpr.appendStep] of [./expressions],
    which is not among the sources.  A location is its flag [absolute]
    and the list of its steps (section 3); the method makes the step the
    last of the list.  The specification names no other effect of the
    method. *)
Definition appendStep (rel s : Expression) : outcome Expression :=
  match rel with
  | LocationExpr a steps => Ok (LocationExpr a (steps ++ [s]))
  | _ => illTyped "appendStep"
  end.

(** Modelled from the spec: [LocationExpr.prependStep] of
    [./expressions], which is not among the sources: the method makes
    the step the first of the list of steps (section 3).  The
    specification names no other effect of the method. *)
Definition prependStep (rel s : Expression) : outcome Expression :=
  match rel with
  | LocationExpr a steps => Ok (LocationExpr a (s :: steps))
  | _ => illTyped "prependStep"
  end.

(** Modelled from the spec: [StepExpr.appendPredicate] of
    [./expressions], which is not among the sources: the predicate
    becomes the last of the step, and the step records whether its list
    of predicates holds a positional one (section 4.G,
    hasPositionalPredicate). *)
Definition appendPredicate (I : Imports) (step p : Expression)
  : outcome Expression :=
  match step with
  | StepExpr ax nt ps hp => Ok (StepExpr ax nt (ps ++ [p]) (hp || positional I p))
  | _ => illTyped "appendPredicate"
  end.

Definition makeLocationExpr1 (slash rel : Expression) : outcome Expression :=
  setAbsolute rel.

Definition makeLocationExpr2 (dslash rel : Expression) : outcome Expression :=
  rel' ← setAbsolute rel;
  v ← valueOf dslash;
  prependStep rel' (makeAbbrevStep v).

Definition makeLocationExpr3 : outcome Expression :=
  Ok (LocationExpr true [makeAbbrevStep "."]).

Definition makeLocationExpr4 (dslash : Expression) : outcome Expression :=
  v ← valueOf dslash;
  Ok (LocationExpr true [makeAbbrevStep v]).

Definition makeLocationExpr5 (step : Expression) : outcome Expression :=
  Ok (LocationExpr false [step]).

Definition makeLocationExpr6 (rel slash step : Expression) : outcome Expression :=
  appendStep rel step.

Definition makeLocationExpr7 (rel dslash step : Expression) : outcome Expression :=
  v ← valueOf dslash;
  rel' ← appendStep rel (makeAbbrevStep v);
  appendStep rel' step.

Definition makeStepExpr1 (dot : Expression) : outcome Expression :=
  v ← valueOf dot; Ok (makeAbbrevStep v).

Definition makeStepExpr2 (ddot : Expression) : outcome Expression :=
  v ← valueOf ddot; Ok (makeAbbrevStep v).

Definition makeStepExpr3 (axisname axis nodeTest : Expression) : outcome Expression :=
  v ← valueOf axisname; Ok (StepExpr v nodeTest [] false).

Definition makeStepExpr4 (at_ nodeTest : Expression) : outcome Expression :=
  Ok (StepExpr "attribute" nodeTest [] false).

Definition makeStepExpr5 (nodeTest : Expression) (axis : option string)
  : outcome Expression :=
  Ok (StepExpr (default "child" axis) nodeTest [] false).

Definition makeStepExpr6 (I : Imports) (step predicate : Expression)
  : outcome Expression :=
  appendPredicate I step predicate.

Definition makeNodeTestExpr1 : outcome Expression := Ok NodeTestElementOrAttribute.

Definition makeNodeTestExpr2 (ncname : Expression) : outcome Expression :=
  v ← valueOf ncname; Ok (NodeTestNC v).

Definition makeNodeTestExpr3 (qname : Expression) : outcome Expression :=
  v ← valueOf qname; Ok (NodeTestName v).

Definition makeNodeTestExpr4 (typeo : Expression) : outcome Expression :=
  v ← valueOf typeo;
  let type := JS.stripOpenParen v in
  if String.eqb type "node" then Ok NodeTestAny
  else if String.eqb type "text" then Ok NodeTestText
  else if String.eqb type "comment" then Ok NodeTestComment
  else if String.eqb type "processing-instruction" then Ok (NodeTestPI EmptyString)
  else Ok Undefined.

(** [typeo.replace(...)] is called on the token expression itself, an
    object without a [replace] method (compare [makeNodeTestExpr4], which
    calls it on [typeo.value]). *)
Definition makeNodeTestExpr5 (typeo target : Expression) : outcome Expression :=
  illTyped "typeo.replace is not a function".

Definition makePredicateExpr (pareno expr : Expression) : outcome Expression :=
  Ok (PredicateExpr expr).

Definition makePrimaryExpr (pareno expr : Expression) : outcome Expression :=
  Ok expr.

Definition makeFunctionCallExpr1 (name : Expression) : outcome Expression :=
  Ok (FunctionCallExpr name []).

Definition makeFunctionCallExpr2 (name pareno arg1 args : Expression)
  : outcome Expression :=
  match args with
  | JSArray items => Ok (FunctionCallExpr name ([arg1] ++ items))
  | _ => illTyped "args.length"
  end.

Definition makeArgumentExpr (comma expr : Expression) : outcome Expression :=
  Ok expr.

Definition makeUnionExpr (expr1 pipe expr2 : Expression) : outcome Expression :=
  Ok (UnionExpr expr1 expr2).

Definition makePathExpr1 (filter slash rel : Expression) : outcome Expression :=
  Ok (PathExpr filter rel).

Definition makePathExpr2 (filter dslash rel : Expression) : outcome Expression :=
  v ← valueOf dslash;
  rel' ← prependStep rel (makeAbbrevStep v);
  Ok (PathExpr filter rel').

Definition makeFilterExpr (expr predicates : Expression) : outcome Expression :=
  match predicates with
  | JSArray [] => Ok expr
  | JSArray ps => Ok (FilterExpr expr ps)
  | _ => illTyped "predicates.length"
  end.

Definition makeUnaryMinusExpr (minus expr : Expression) : outcome Expression :=
  Ok (UnaryMinusExpr expr).

Definition makeBinaryExpr (expr1 op expr2 : Expression) : outcome Expression :=
  Ok (BinaryExpr expr1 op expr2).

Definition makeLiteralExpr (token : Expression) : outcome Expression :=
  v ← valueOf token; Ok (LiteralExpr (JS.dropEnds v)).

Definition makeNumberExpr (token : Expression) : outcome Expression :=
  v ← valueOf token; Ok (NumberExpr v).

Definition makeVariableReference (dollar name : Expression) : outcome Expression :=
  v ← valueOf name; Ok (VariableExpr v).

(** The fourth column of the grammar table. *)
Inductive factory :=
| F_passExpr
| F_makeLocationExpr1 | F_makeLocationExpr2 | F_makeLocationExpr3
| F_makeLocationExpr4 | F_makeLocationExpr5 | F_makeLocationExpr6
| F_makeLocationExpr7
| F_makeStepExpr1 | F_makeStepExpr2 | F_makeStepExpr3 | F_makeStepExpr4
| F_makeStepExpr5 | F_makeStepExpr6
| F_makeNodeTestExpr1 | F_makeNodeTestExpr2 | F_makeNodeTestExpr3
| F_makeNodeTestExpr4 | F_makeNodeTestExpr5
| F_makePredicateExpr | F_makePrimaryExpr
| F_makeFunctionCallExpr1 | F_makeFunctionCallExpr2 | F_makeArgumentExpr
| F_makeUnionExpr | F_makePathExpr1 | F_makePathExpr2 | F_makeFilterExpr
| F_makeUnaryMinusExpr | F_makeBinaryExpr | F_makeLiteralExpr
| F_makeNumberExpr | F_makeVariableReference.

(** [f.apply(this, args)]: a missing argument is [undefined], the
    arguments beyond the function's parameters are dropped. *)
Definition arg (args : list Expression) (i : nat) : Expression :=
  nth i args Undefined.

Definition applyFactory (I : Imports) (f : factory) (a : list Expression)
  : outcome Expression :=
  match f with
  | F_passExpr => passExpr (arg a 0)
  | F_makeLocationExpr1 => makeLocationExpr1 (arg a 0) (arg a 1)
  | F_makeLocationExpr2 => makeLocationExpr2 (arg a 0) (arg a 1)
  | F_makeLocationExpr3 => makeLocationExpr3
  | F_makeLocationExpr4 => makeLocationExpr4 (arg a 0)
  | F_makeLocationExpr5 => makeLocationExpr5 (arg a 0)
  | F_makeLocationExpr6 => makeLocationExpr6 (arg a 0) (arg a 1) (arg a 2)
  | F_makeLocationExpr7 => makeLocationExpr7 (arg a 0) (arg a 1) (arg a 2)
  | F_makeStepExpr1 => makeStepExpr1 (arg a 0)
  | F_makeStepExpr2 => makeStepExpr2 (arg a 0)
  | F_makeStepExpr3 => makeStepExpr3 (arg a 0) (arg a 1) (arg a 2)
  | F_makeStepExpr4 => makeStepExpr4 (arg a 0) (arg a 1)
  | F_makeStepExpr5 => makeStepExpr5 (arg a 0) None
  | F_makeStepExpr6 => makeStepExpr6 I (arg a 0) (arg a 1)
  | F_makeNodeTestExpr1 => makeNodeTestExpr1
  | F_makeNodeTestExpr2 => makeNodeTestExpr2 (arg a 0)
  | F_makeNodeTestExpr3 => makeNodeTestExpr3 (arg a 0)
  | F_makeNodeTestExpr4 => makeNodeTestExpr4 (arg a 0)
  | F_makeNodeTestExpr5 => makeNodeTestExpr5 (arg a 0) (arg a 1)
  | F_makePredicateExpr => makePredicateExpr (arg a 0) (arg a 1)
  | F_makePrimaryExpr => makePrimaryExpr (arg a 0) (arg a 1)
  | F_makeFunctionCallExpr1 => makeFunctionCallExpr1 (arg a 0)
  | F_makeFunctionCallExpr2 =>
      makeFunctionCallExpr2 (arg a 0) (arg a 1) (arg a 2) (arg a 3)
  | F_makeArgumentExpr => makeArgumentExpr (arg a 0) (arg a 1)
  | F_makeUnionExpr => makeUnionExpr (arg a 0) (arg a 1) (arg a 2)
  | F_makePathExpr1 => makePathExpr1 (arg a 0) (arg a 1) (arg a 2)
  | F_makePathExpr2 => makePathExpr2 (arg a 0) (arg a 1) (arg a 2)
  | F_makeFilterExpr => makeFilterExpr (arg a 0) (arg a 1)
  | F_makeUnaryMinusExpr => makeUnaryMinusExpr (arg a 0) (arg a 1)
  | F_makeBinaryExpr => makeBinaryExpr (arg a 0) (arg a 1) (arg a 2)
  | F_makeLiteralExpr => makeLiteralExpr (arg a 0)
  | F_makeNumberExpr => makeNumberExpr (arg a 0)
  | F_makeVariableReference => makeVariableReference (arg a 0) (arg a 1)
  end.

(** ** The grammar table *)

Record rule := Rule {
  r_target : symbol;
  r_pattern : list symbol;
  r_prec : Z;
  r_factory : factory;
  r_assoc_left : bool
}.

Definition xPathGrammarRules : list rule := [
  Rule XPathLocationPath [XPathRelativeLocationPath] 18 F_passExpr false;
  Rule XPathLocationPath [XPathAbsoluteLocationPath] 18 F_passExpr false;

  Rule XPathAbsoluteLocationPath [TOK_SLASH; XPathRelativeLocationPath] 18 F_makeLocationExpr1 false;
  Rule XPathAbsoluteLocationPath [TOK_DSLASH; XPathRelativeLocationPath] 18 F_makeLocationExpr2 false;

  Rule XPathAbsoluteLocationPath [TOK_SLASH] 0 F_makeLocationExpr3 false;
  Rule XPathAbsoluteLocationPath [TOK_DSLASH] 0 F_makeLocationExpr4 false;

  Rule XPathRelativeLocationPath [XPathStep] 31 F_makeLocationExpr5 false;
  Rule XPathRelativeLocationPath [XPathRelativeLocationPath; TOK_SLASH; XPathStep] 31 F_makeLocationExpr6 false;
  Rule XPathRelativeLocationPath [XPathRelativeLocationPath; TOK_DSLASH; XPathStep] 31 F_makeLocationExpr7 false;

  Rule XPathStep [TOK_DOT] 33 F_makeStepExpr1 false;
  Rule XPathStep [TOK_DDOT] 33 F_makeStepExpr2 false;
  Rule XPathStep [TOK_AXISNAME; TOK_AXIS; XPathNodeTest] 33 F_makeStepExpr3 false;
  Rule XPathStep [TOK_AT; XPathNodeTest] 33 F_makeStepExpr4 false;
  Rule XPathStep [XPathNodeTest] 33 F_makeStepExpr5 false;
  Rule XPathStep [XPathStep; XPathPredicate] 33 F_makeStepExpr6 false;

  Rule XPathNodeTest [TOK_ASTERISK] 33 F_makeNodeTestExpr1 false;
  Rule XPathNodeTest [TOK_NCNAME; TOK_COLON; TOK_ASTERISK] 33 F_makeNodeTestExpr2 false;
  Rule XPathNodeTest [TOK_QNAME] 33 F_makeNodeTestExpr3 false;
  Rule XPathNodeTest [TOK_NODEO; TOK_PARENC] 33 F_makeNodeTestExpr4 false;
  Rule XPathNodeTest [TOK_NODEO; XPathLiteral; TOK_PARENC] 33 F_makeNodeTestExpr5 false;

  Rule XPathPredicate [TOK_BRACKO; XPathExpr; TOK_BRACKC] 33 F_makePredicateExpr false;

  Rule XPathPrimaryExpr [XPathVariableReference] 33 F_passExpr false;
  Rule XPathPrimaryExpr [TOK_PARENO; XPathExpr; TOK_PARENC] 33 F_makePrimaryExpr false;
  Rule XPathPrimaryExpr [XPathLiteral] 30 F_passExpr false;
  Rule XPathPrimaryExpr [XPathNumber] 30 F_passExpr false;
  Rule XPathPrimaryExpr [XPathFunctionCall] 31 F_passExpr false;

  Rule XPathFunctionCall [TOK_QNAME; TOK_PARENO; TOK_PARENC] (-1) F_makeFunctionCallExpr1 false;
  Rule XPathFunctionCall
    [TOK_QNAME; TOK_PARENO; XPathExpr; XPathArgumentRemainder; Q_MM; TOK_PARENC]
    (-1) F_makeFunctionCallExpr2 false;
  Rule XPathArgumentRemainder [TOK_COMMA; XPathExpr] (-1) F_makeArgumentExpr false;

  Rule XPathUnionExpr [XPathPathExpr] 20 F_passExpr false;
  Rule XPathUnionExpr [XPathUnionExpr; TOK_PIPE; XPathPathExpr] 20 F_makeUnionExpr false;

  Rule XPathPathExpr [XPathLocationPath] 20 F_passExpr false;
  Rule XPathPathExpr [XPathFilterExpr] 19 F_passExpr false;
  Rule XPathPathExpr [XPathFilterExpr; TOK_SLASH; XPathRelativeLocationPath] 19 F_makePathExpr1 false;
  Rule XPathPathExpr [XPathFilterExpr; TOK_DSLASH; XPathRelativeLocationPath] 19 F_makePathExpr2 false;

  Rule XPathFilterExpr [XPathPrimaryExpr; XPathPredicate; Q_MM] 31 F_makeFilterExpr false;

  Rule XPathExpr [XPathPrimaryExpr] 16 F_passExpr false;
  Rule XPathExpr [XPathUnionExpr] 16 F_passExpr false;

  Rule XPathExpr [TOK_MINUS; XPathExpr] (-1) F_makeUnaryMinusExpr false;

  Rule XPathExpr [XPathExpr; TOK_OR; XPathExpr] (-1) F_makeBinaryExpr false;
  Rule XPathExpr [XPathExpr; TOK_AND; XPathExpr] (-1) F_makeBinaryExpr false;

  Rule XPathExpr [XPathExpr; TOK_EQ; XPathExpr] (-1) F_makeBinaryExpr false;
  Rule XPathExpr [XPathExpr; TOK_NEQ; XPathExpr] (-1) F_makeBinaryExpr false;

  Rule XPathExpr [XPathExpr; TOK_LT; XPathExpr] (-1) F_makeBinaryExpr false;
  Rule XPathExpr [XPathExpr; TOK_LE; XPathExpr] (-1) F_makeBinaryExpr false;
  Rule XPathExpr [XPathExpr; TOK_GT; XPathExpr] (-1) F_makeBinaryExpr false;
  Rule XPathExpr [XPathExpr; TOK_GE; XPathExpr] (-1) F_makeBinaryExpr false;

  Rule XPathExpr [XPathExpr; TOK_PLUS; XPathExpr] (-1) F_makeBinaryExpr true;
  Rule XPathExpr [XPathExpr; TOK_MINUS; XPathExpr] (-1) F_makeBinaryExpr true;

  Rule XPathExpr [XPathExpr; TOK_ASTERISK; XPathExpr] (-1) F_makeBinaryExpr true;
  Rule XPathExpr [XPathExpr; TOK_DIV; XPathExpr] (-1) F_makeBinaryExpr true;
  Rule XPathExpr [XPathExpr; TOK_MOD; XPathExpr] (-1) F_makeBinaryExpr true;

  Rule XPathLiteral [TOK_LITERALQ] (-1) F_makeLiteralExpr false;
  Rule XPathLiteral [TOK_LITERALQQ] (-1) F_makeLiteralExpr false;

  Rule XPathNumber [TOK_NUMBER] (-1) F_makeNumberExpr false;

  Rule XPathVariableReference [TOK_DOLLAR; TOK_QNAME] 200 F_makeVariableReference false
].

(** ** [xPathParseInit] *)

Definition xPathNonTerminals : list symbol := [
  XPathLocationPath; XPathRelativeLocationPath; XPathAbsoluteLocationPath;
  XPathStep; XPathNodeTest; XPathPredicate; XPathLiteral; XPathExpr;
  XPathPrimaryExpr; XPathVariableReference; XPathNumber; XPathFunctionCall;
  XPathArgumentRemainder; XPathPathExpr; XPathUnionExpr; XPathFilterExpr;
  XPathDigits
].

(** [xPathGrammarRules.sort(...)]: descending by pattern length; rules of
    equal length keep their order ([Array.prototype.sort] is stable). *)
Fixpoint insertByLength (r : rule) (l : list rule) : list rule :=
  match l with
  | [] => [r]
  | x :: t =>
      if Nat.ltb (length (r_pattern x)) (length (r_pattern r))
      then r :: x :: t
      else x :: insertByLength r t
  end.

Definition sortedGrammarRules : list rule :=
  fold_left (fun acc r => insertByLength r acc) xPathGrammarRules [].

(** [l[i].key = k++] over a list of symbols, from the key [k] on. *)
Fixpoint assignKeys (k : nat) (l : list symbol) (m : symbol -> option nat)
  : symbol -> option nat :=
  match l with
  | [] => m
  | t :: rest =>
      assignKeys (S k) rest (fun x => if symbol_eqb x t then Some k else m x)
  end.

(** [s.key]: [None] is [undefined]. *)
Definition key (I : Imports) : symbol -> option nat :=
  assignKeys (S (length xPathNonTerminals)) (xPathTokenRules I)
    (assignKeys 1 xPathNonTerminals (fun _ => None)).

(** The symbols under whose key the binning loop pushes a rule, read off
    the reversed pattern. *)
Fixpoint binSymbols (rp : list symbol) : list symbol :=
  match rp with
  | [] => []
  | q :: rest =>
      if symbol_eqb q Q_1M then
        match rest with x :: _ => [x] | [] => [] end
      else if symbol_eqb q Q_MM || symbol_eqb q Q_01 then
        match rest with x :: rest' => x :: binSymbols rest' | [] => [] end
      else [q]
  end.

(** [this.xPathRules[k]]: the rules of the bin [k], in the order of the
    sorted table. *)
Definition xPathRules (I : Imports) (k : option nat) : list rule :=
  flat_map
    (fun r =>
       map (fun _ => r)
         (List.filter (fun x => bool_decide (key I x = k))
                 (binSymbols (rev (r_pattern r)))))
    sortedGrammarRules.

(** ** [xPathMatchStack] *)

Inductive matchItem :=
| MFrame (f : frame)
| MQuant (fs : list frame).

(** The frames a quantifier takes from the top of the stack downwards, at
    most [limit] of them, and the rest of the stack. *)
Fixpoint spanTag (x : symbol) (limit : nat) (rs : list frame)
  : list frame * list frame :=
  match limit, rs with
  | S k, f :: rest =>
      if symbol_eqb (f_tag f) x
      then let '(a, b) := spanTag x k rest in (f :: a, b)
      else ([], rs)
  | _, _ => ([], rs)
  end.

(** The loop of [xPathMatchStack] over the reversed pattern [rp] and the
    reversed stack [rs] (top first).  [acc] is [match] and [ml] is
    [match.matchlength]; [None] is the empty array the function returns
    on failure. *)
Fixpoint matchRev (rp : list symbol) (rs : list frame)
    (acc : list matchItem) (ml : nat) : option (list matchItem * nat) :=
  match rp with
  | [] => Some (acc, ml)
  | q :: rp' =>
      match rs with
      | [] => None
      | f :: rs' =>
          if symbol_eqb q Q_MM then
            match rp' with
            | x :: rp'' =>
                let '(taken, rest) := spanTag x (length rs) rs in
                matchRev rp'' rest (MQuant (rev taken) :: acc) (ml + length taken)
            | [] => None
            end
          else if symbol_eqb q Q_01 then
            match rp' with
            | x :: rp'' =>
                let '(taken, rest) := spanTag x 2 rs in
                matchRev rp'' rest (MQuant (rev taken) :: acc) (ml + length taken)
            | [] => None
            end
          else if symbol_eqb q Q_1M then
            match rp' with
            | x :: rp'' =>
                if symbol_eqb (f_tag f) x then
                  let '(taken, rest) := spanTag x (length rs) rs in
                  matchRev rp'' rest (MQuant (rev taken) :: acc) (ml + length taken)
                else None
            | [] => None
            end
          else if symbol_eqb (f_tag f) q then
            matchRev rp' rs' (MFrame f :: acc) (S ml)
          else None
      end
  end.

Definition xPathMatchStack (stack : list frame) (pattern : list symbol)
  : option (list matchItem * nat) :=
  matchRev (rev pattern) (rev stack) [] 0.

(** [m.expr] of an entry of [match]: the array of a quantified match
    carries the array of its frames' expressions. *)
Definition itemExpr (m : matchItem) : Expression :=
  match m with
  | MFrame f => f_expr f
  | MQuant fs => JSArray (map f_expr fs)
  end.

(** ** Precedences *)

(** [tag.prec || 2]. *)
Definition xPathTokenPrecedence (I : Imports) (tag : symbol) : Z :=
  match prec I tag with
  | Some p => if Z.eqb p 0 then 2%Z else p
  | None => 2%Z
  end.

(** [xPathGrammarPrecedence] on a candidate, which always carries its
    rule. *)
Definition xPathGrammarPrecedence (I : Imports) (r : rule) : Z :=
  if Z.leb 0 (r_prec r) then r_prec r
  else fold_left (fun ret t => Z.max ret (xPathTokenPrecedence I t))
         (r_pattern r) 0%Z.

(** [rule.prec ? rule.prec : 0] of a look-ahead token. *)
Definition aheadPrec (I : Imports) (t : symbol) : Z :=
  match prec I t with
  | Some p => p
  | None => 0%Z
  end.

(** ** [findGrammarRuleCandidate] and [xPathReduce] *)

Record candidate := Candidate {
  c_rule : rule;
  c_match : list matchItem;
  c_matchlength : nat;
  c_prec : Z
}.

Fixpoint findGrammarRuleCandidate (I : Imports) (ruleset : list rule)
    (stack : list frame) : option candidate :=
  match ruleset with
  | [] => None
  | r :: rest =>
      match xPathMatchStack stack (r_pattern r) with
      | Some (m :: ms, ml) =>
          Some (Candidate r (m :: ms) ml (xPathGrammarPrecedence I r))
      | _ => findGrammarRuleCandidate I rest stack
      end
  end.

(** The candidate [xPathReduce] computes from the top of the stack. *)
Definition stackCandidate (I : Imports) (stack : list frame) : option candidate :=
  match last stack with
  | Some top => findGrammarRuleCandidate I (xPathRules I (key I (f_tag top))) stack
  | None => None
  end.

(** The test of [xPathReduce] on a candidate and the look-ahead. *)
Definition reduces (I : Imports) (c : candidate) (ahead : option frame) : bool :=
  match ahead with
  | None => true
  | Some a =>
      Z.ltb (f_prec a) (c_prec c)
      || (left I (f_tag a) && Z.leb (f_prec a) (c_prec c))
  end.

(** [n] times [stack.pop()]. *)
Definition popN (n : nat) (stack : list frame) : list frame :=
  take (length stack - n) stack.

Definition shift (stack : list frame) (ahead : option frame) : list frame :=
  match ahead with
  | Some a => (stack ++ [a])%list
  | None => stack
  end.

(** [xPathReduce]: the value returned and the stack it leaves. *)
Definition xPathReduce (I : Imports) (stack : list frame) (ahead : option frame)
  : outcome (bool * list frame) :=
  match stackCandidate I stack with
  | Some c =>
      if reduces I c ahead then
        let stack' := popN (c_matchlength c) stack in
        e ← applyFactory I (r_factory (c_rule c)) (map itemExpr (c_match c));
        Ok (true, (stack' ++ [Frame (r_target (c_rule c)) (c_prec c) e])%list)
      else Ok (false, shift stack ahead)
  | None => Ok (false, shift stack ahead)
  end.

(** ** The parse loops

    A reduction replaces the frames it pops by one frame of smaller
    weight, so the weight of the stack bounds the number of reductions
    and is the fuel of the inner loop. *)

Definition rank (t : symbol) : nat :=
  match t with
  | XPathExpr => 7
  | XPathUnionExpr => 6
  | XPathPathExpr => 5
  | XPathLocationPath => 4
  | XPathFilterExpr | XPathRelativeLocationPath => 3
  | XPathPrimaryExpr | XPathStep => 2
  | XPathAbsoluteLocationPath | XPathNodeTest | XPathPredicate
  | XPathLiteral | XPathVariableReference | XPathNumber
  | XPathFunctionCall | XPathArgumentRemainder | XPathDigits => 1
  | _ => 0
  end.

Definition weight (t : symbol) : nat := 8 - rank t.

Definition stackWeight (stack : list frame) : nat :=
  list_sum (map (fun f => weight (f_tag f)) stack).

(** [while (this.xPathReduce(stack, ahead)) { ... }]. *)
Fixpoint reduceLoop (fuel : nat) (I : Imports) (stack : list frame)
    (ahead : option frame) : outcome (list frame) :=
  match fuel with
  | O => OutOfFuel
  | S k =>
      match xPathReduce I stack ahead with
      | Ok (true, stack') => reduceLoop k I stack' ahead
      | Ok (false, stack') => Ok stack'
      | Throw e => Throw e
      | OutOfFuel => OutOfFuel
      end
  end.

Definition reduceAll (I : Imports) (stack : list frame) (ahead : option frame)
  : outcome (list frame) :=
  reduceLoop (S (stackWeight stack)) I stack ahead.

(** [while (!done) { ... }] of [xPathParse].  [ahead] is the look-ahead
    of the previous round; the second component is [this.lexerCount]. *)
Fixpoint parseLoop (fuel : nat) (I : Imports) (expression : string)
    (stack : list frame) (ahead : option frame) (lexerCount : nat)
  : outcome (list frame) * nat :=
  match fuel with
  | O => (OutOfFuel, lexerCount)
  | S k =>
      let expression := JS.trimStart expression in
      let previous := ahead in
      let '(rule, m, n) := findXPathRuleForExpression I expression previous in
      let lexerCount := (lexerCount + n)%nat in
      match rule with
      | Some t =>
          let expression := JS.substr (String.length m) expression in
          let ahead := Some (Frame t (aheadPrec I t) (makeTokenExpr m)) in
          match reduceAll I stack ahead with
          | Ok stack' => parseLoop k I expression stack' ahead lexerCount
          | Throw e => (Throw e, lexerCount)
          | OutOfFuel => (OutOfFuel, lexerCount)
          end
      | None => (reduceAll I stack None, lexerCount)
      end
  end.

(** ** [stackToString] *)

Definition newline : string := String (ascii_of_nat 10) EmptyString.

Definition stackToString (I : Imports) (stack : list frame) : string :=
  fold_left
    (fun ret f =>
       (if JS.nonEmpty ret then ret ++ newline else ret) ++ label I (f_tag f))
    stack EmptyString.

(** ** The shortcuts of [xPathParse] *)

(** [axis || d]. *)
Definition orElse (axis : option string) (d : string) : string :=
  match axis with
  | Some a => if JS.nonEmpty a then a else d
  | None => d
  end.

Definition makeSimpleExpr (expression : string) (axis : option string)
  : Expression :=
  if JS.charAt0_is "$" expression then VariableExpr (JS.substr 1 expression)
  else if JS.charAt0_is "@" expression then
    LocationExpr false
      [StepExpr "attribute" (NodeTestName (JS.substr 1 expression)) [] false]
  else if JS.matchesDigits expression then NumberExpr expression
  else
    LocationExpr false
      [StepExpr (orElse axis xPathAxis_CHILD) (NodeTestName expression) [] false].

Definition makeSimpleExpr2 (expr : string) : Expression :=
  LocationExpr false
    (map (fun s => StepExpr xPathAxis_CHILD (NodeTestName s) [] false)
         (JS.split "/" expr)).

(** ** [xPathParse] *)

(** The state of an [XPath] object that [xPathParse] writes.  The cache
    is a plain object, [{}]: [xPathParseCache] are its own properties,
    the entries, and [cachePrototype] is its prototype, [None] for
    [Object.prototype], which it has until an assignment to the key
    [__proto__] gives it another. *)
Record XPath := {
  xPathParseCache : gmap string Expression;
  cachePrototype : option Expression;
  lexerCount : nat
}.

(** [result.steps[0].axis = axis] under its guard. *)
Definition overrideAxis (axis : option string) (originalExpression : string)
    (result : Expression) : outcome Expression :=
  match axis with
  | None => Ok result
  | Some a =>
      match result with
      | Undefined => illTyped "result.absolute"
      | LocationExpr false (StepExpr _ nt ps hp :: rest) =>
          if JS.startsWith "*" originalExpression then Ok result
          else Ok (LocationExpr false (StepExpr a nt ps hp :: rest))
      | LocationExpr false _ =>
          if JS.startsWith "*" originalExpression then Ok result
          else illTyped "result.steps[0].axis"
      | _ => Ok result
      end
  end.

Definition parseErrorText (I : Imports) (cachekey : string)
    (stack : list frame) : string :=
  "XPath parse error " ++ cachekey ++ ":" ++ newline ++ stackToString I stack.

(** [this.xPathParseCache[k] = e], and the count of the lexer.  The
    assignment makes or replaces the entry [k]; for the key [__proto__]
    it runs the setter of [Object.prototype] instead, which makes an
    object [e] the prototype of the cache, leaves the prototype as it is
    when [e] is [undefined], and makes no entry. *)
Definition setCache (this : XPath) (k : string) (e : Expression) (n : nat) : XPath :=
  if String.eqb k "__proto__" then
    {| xPathParseCache := xPathParseCache this;
       cachePrototype := match e with
                         | Undefined => cachePrototype this
                         | _ => Some e
                         end;
       lexerCount := n |}
  else
    {| xPathParseCache := <[k := e]> (xPathParseCache this);
       cachePrototype := cachePrototype this;
       lexerCount := n |}.

Definition setLexerCount (this : XPath) (n : nat) : XPath :=
  {| xPathParseCache := xPathParseCache this;
     cachePrototype := cachePrototype this;
     lexerCount := n |}.

(** The stack the general parser is left with: [lexerCount] is reset,
    the stack starts empty and there is no look-ahead. *)
Definition parseStack (I : Imports) (expression : string)
  : outcome (list frame) * nat :=
  parseLoop (S (String.length expression)) I expression [] None 0.

(** What reading a property of the cache gives: an expression, or the
    property of that name of the prototype, of [Object.prototype] when
    the cache has no other. *)
Inductive cacheRead :=
| Found (e : Expression)
| Inherited (prototype : option Expression) (name : string).

(** [xPathCacheLookup(expr)]: [this.xPathParseCache[expr]].  The key
    [__proto__] reads the prototype of the cache; any other key reads
    the entry of that name and, when there is none, the prototype. *)
Definition xPathCacheLookup (this : XPath) (expr : string) : cacheRead :=
  if String.eqb expr "__proto__" then
    match cachePrototype this with
    | Some e => Found e
    | None => Inherited None expr
    end
  else
    match xPathParseCache this !! expr with
    | Some e => Found e
    | None => Inherited (cachePrototype this) expr
    end.

Definition xPathParse (I : Imports) (expression : string)
    (axis : option string) (this : XPath) : outcome Expression * XPath :=
  if JS.matchesSimple expression then
    let ret := makeSimpleExpr expression axis in
    (Ok ret, setCache this expression ret (lexerCount this))
  else if JS.matchesChain expression then
    let ret := makeSimpleExpr2 expression in
    (Ok ret, setCache this expression ret (lexerCount this))
  else
    let cachekey := expression in
    let '(r, n) := parseStack I expression in
    match r with
    | Ok [f] =>
        match overrideAxis axis expression (f_expr f) with
        | Ok result => (Ok result, setCache this cachekey result n)
        | Throw e => (Throw e, setLexerCount this n)
        | OutOfFuel => (OutOfFuel, setLexerCount this n)
        end
    | Ok stack =>
        (Throw (ParseError (parseErrorText I cachekey stack)),
         setLexerCount this n)
    | Throw e => (Throw e, setLexerCount this n)
    | OutOfFuel => (OutOfFuel, setLexerCount this n)
    end.

(** ** An instance of the imports

    Modelled from the spec: the token table of [tokens.ts] and the labels
    of [xpath-grammar-rules.ts], which are not among the sources.  The
    tokens are those of section 4.F, with names over ASCII letters; the
    precedences and the positional test are sample values.  The instance
    serves the worked examples; every theorem is stated for all
    instances. *)

Module Sample.

Definition lit (p s : string) : option nat :=
  if String.prefix p s then Some (String.length p) else None.

(** A keyword followed by a word boundary. *)
Definition keyword (p s : string) : option nat :=
  if String.prefix p s then
    match JS.substr (String.length p) s with
    | String c _ => if JS.isWord c then None else Some (String.length p)
    | EmptyString => Some (String.length p)
    end
  else None.

Fixpoint firstOf (ps : list string) (f : string -> string -> option nat)
    (s : string) : option nat :=
  match ps with
  | [] => None
  | p :: rest =>
      match f p s with
      | Some n => Some n
      | None => firstOf rest f s
      end
  end.

(** The length of the longest prefix whose characters satisfy [p]. *)
Fixpoint spanLength (p : ascii -> bool) (s : string) : nat :=
  match s with
  | String c r => if p c then S (spanLength p r) else O
  | EmptyString => O
  end.

Definition isNameStart (c : ascii) : bool :=
  JS.isWord c && negb (JS.isDigit c).

Definition isNameChar (c : ascii) : bool :=
  JS.isWord c || Ascii.eqb c "." || Ascii.eqb c "-".

Definition ncName (s : string) : option nat :=
  match s with
  | String c r => if isNameStart c then Some (S (spanLength isNameChar r)) else None
  | EmptyString => None
  end.

Definition qName (s : string) : option nat :=
  match ncName s with
  | Some n =>
      match JS.substr n s with
      | String c r =>
          if Ascii.eqb c ":" then
            match ncName r with
            | Some k => Some (n + 1 + k)%nat
            | None => Some n
            end
          else Some n
      | EmptyString => Some n
      end
  | None => None
  end.

Definition number (s : string) : option nat :=
  match spanLength JS.isDigit s with
  | O => None
  | n =>
      match JS.substr n s with
      | String c r =>
          if Ascii.eqb c "." then Some (n + 1 + spanLength JS.isDigit r)%nat
          else Some n
      | EmptyString => Some n
      end
  end.

(** A literal between two quote characters [q]. *)
Definition quoted (q : ascii) (s : string) : option nat :=
  match s with
  | String c r =>
      if Ascii.eqb c q then
        let n := spanLength (fun d => negb (Ascii.eqb d q)) r in
        match JS.substr n r with
        | String _ _ => Some (n + 2)%nat
        | EmptyString => None
        end
      else None
  | EmptyString => None
  end.

Definition axisNames : list string := [
  "ancestor-or-self"; "ancestor"; "attribute"; "child";
  "descendant-or-self"; "descendant"; "following-sibling"; "following";
  "namespace"; "parent"; "preceding-sibling"; "preceding"; "self"
].

(** An axis name, when [::] follows it. *)
Definition axisName (s : string) : option nat :=
  firstOf axisNames
    (fun p s => if String.prefix (p ++ "::") s then Some (String.length p) else None)
    s.

Definition nodeTypeOpen (s : string) : option nat :=
  firstOf ["processing-instruction("; "comment("; "text("; "node("] lit s.

Definition sampleRe (t : symbol) (s : string) : option nat :=
  match t with
  | TOK_DSLASH => lit "//" s
  | TOK_SLASH => lit "/" s
  | TOK_DDOT => lit ".." s
  | TOK_DOT => lit "." s
  | TOK_AXISNAME => axisName s
  | TOK_AXIS => lit "::" s
  | TOK_COLON => lit ":" s
  | TOK_NODEO => nodeTypeOpen s
  | TOK_PARENO => lit "(" s
  | TOK_PARENC => lit ")" s
  | TOK_BRACKO => lit "[" s
  | TOK_BRACKC => lit "]" s
  | TOK_AT => lit "@" s
  | TOK_COMMA => lit "," s
  | TOK_OR => keyword "or" s
  | TOK_AND => keyword "and" s
  | TOK_NEQ => lit "!=" s
  | TOK_EQ => lit "=" s
  | TOK_GE => lit ">=" s
  | TOK_GT => lit ">" s
  | TOK_LE => lit "<=" s
  | TOK_LT => lit "<" s
  | TOK_PLUS => lit "+" s
  | TOK_MINUS => lit "-" s
  | TOK_ASTERISK => lit "*" s
  | TOK_PIPE => lit "|" s
  | TOK_MOD => keyword "mod" s
  | TOK_DIV => keyword "div" s
  | TOK_LITERALQ => quoted "'" s
  | TOK_LITERALQQ => quoted (ascii_of_nat 34) s
  | TOK_NUMBER => number s
  | TOK_QNAME => qName s
  | TOK_NCNAME => ncName s
  | TOK_DOLLAR => lit "$" s
  | _ => None
  end.

Definition sampleRules : list symbol := [
  TOK_DSLASH; TOK_SLASH; TOK_DDOT; TOK_DOT; TOK_AXISNAME; TOK_AXIS;
  TOK_COLON; TOK_NODEO; TOK_PARENO; TOK_PARENC; TOK_BRACKO; TOK_BRACKC;
  TOK_AT; TOK_COMMA; TOK_OR; TOK_AND; TOK_NEQ; TOK_EQ; TOK_GE; TOK_GT;
  TOK_LE; TOK_LT; TOK_PLUS; TOK_MINUS; TOK_ASTERISK; TOK_PIPE; TOK_MOD;
  TOK_DIV; TOK_LITERALQ; TOK_LITERALQQ; TOK_NUMBER; TOK_QNAME; TOK_NCNAME;
  TOK_DOLLAR
].

Definition samplePrec (t : symbol) : option Z :=
  match t with
  | TOK_PIPE => Some 17%Z
  | TOK_DSLASH => Some 19%Z
  | TOK_SLASH => Some 30%Z
  | TOK_AXIS => Some 20%Z
  | TOK_COLON => Some 1000%Z
  | TOK_PARENO | TOK_DDOT | TOK_DOT | TOK_AT => Some 34%Z
  | TOK_OR => Some 10%Z
  | TOK_AND => Some 11%Z
  | TOK_EQ | TOK_NEQ => Some 12%Z
  | TOK_GE | TOK_GT | TOK_LE | TOK_LT => Some 13%Z
  | TOK_PLUS | TOK_MINUS => Some 14%Z
  | TOK_DIV | TOK_MOD | TOK_ASTERISK => Some 15%Z
  | TOK_BRACKO => Some 32%Z
  | TOK_LITERALQ | TOK_LITERALQQ => Some 20%Z
  | TOK_NUMBER => Some 35%Z
  | _ => None
  end.

Definition sampleLeft (t : symbol) : bool :=
  match t with
  | TOK_PLUS | TOK_MINUS | TOK_DIV | TOK_MOD | TOK_ASTERISK => true
  | _ => false
  end.

Definition sampleLabel (t : symbol) : string :=
  match t with
  | XPathLocationPath => "LocationPath"
  | XPathRelativeLocationPath => "RelativeLocationPath"
  | XPathAbsoluteLocationPath => "AbsoluteLocationPath"
  | XPathStep => "Step"
  | XPathNodeTest => "NodeTest"
  | XPathPredicate => "Predicate"
  | XPathLiteral => "Literal"
  | XPathExpr => "Expr"
  | XPathPrimaryExpr => "PrimaryExpr"
  | XPathVariableReference => "Variablereference"
  | XPathNumber => "Number"
  | XPathFunctionCall => "FunctionCall"
  | XPathArgumentRemainder => "ArgumentRemainder"
  | XPathPathExpr => "PathExpr"
  | XPathUnionExpr => "UnionExpr"
  | XPathFilterExpr => "FilterExpr"
  | XPathDigits => "Digits"
  | TOK_DIV => "div" | TOK_MOD => "mod" | TOK_AND => "and" | TOK_OR => "or"
  | TOK_AT => "@" | TOK_DSLASH => "//" | TOK_SLASH => "/" | TOK_AXIS => "::"
  | TOK_DOLLAR => "$" | TOK_QNAME => "[qname]" | TOK_DOT => "."
  | TOK_DDOT => ".." | TOK_AXISNAME => "[axis]" | TOK_ASTERISK => "*"
  | TOK_NCNAME => "[ncname]" | TOK_COLON => ":"
  | TOK_NODEO => "[nodetest-start]" | TOK_PARENC => ")" | TOK_BRACKC => "]"
  | TOK_BRACKO => "[" | TOK_PARENO => "(" | TOK_COMMA => "," | TOK_PIPE => "|"
  | TOK_MINUS => "-" | TOK_EQ => "=" | TOK_NEQ => "!=" | TOK_LT => "<"
  | TOK_LE => "<=" | TOK_GT => ">" | TOK_GE => ">=" | TOK_PLUS => "+"
  | TOK_LITERALQ => "[litq]" | TOK_LITERALQQ => "[litqq]"
  | TOK_NUMBER => "[number]"
  | Q_MM => "*" | Q_01 => "?" | Q_1M => "+"
  end.

(** Modelled from the spec: the test for a positional predicate
    (section 4.G, hasPositionalPredicate, and the cases of section 8).
    An expression whose value can be a number is positional: a number, a
    negation, a sum, difference, product, quotient or remainder, and a
    call of a function of the core library that returns a number; so is
    a binary expression with a positional operand.  A string literal, a
    location path and the predicates inside it are not. *)
Definition returnsNumber (f : string) : bool :=
  existsb (String.eqb f)
    ["last"; "position"; "count"; "string-length"; "number"; "sum"; "floor";
     "ceiling"; "round"].

Definition isArithmetic (op : Expression) : bool :=
  match op with
  | TokenExpr o => existsb (String.eqb o) ["+"; "-"; "*"; "div"; "mod"]
  | _ => false
  end.

Fixpoint mentionsPosition (e : Expression) : bool :=
  match e with
  | NumberExpr _ => true
  | UnaryMinusExpr _ => true
  | FunctionCallExpr (TokenExpr f) _ => returnsNumber f
  | BinaryExpr a op b =>
      isArithmetic op || mentionsPosition a || mentionsPosition b
  | _ => false
  end.

Definition samplePositional (p : Expression) : bool :=
  match p with
  | PredicateExpr e => mentionsPosition e
  | _ => false
  end.

Definition imports : Imports := {|
  label := sampleLabel;
  prec := samplePrec;
  left := sampleLeft;
  re := sampleRe;
  xPathTokenRules := sampleRules;
  positional := samplePositional
|}.

Definition fresh : XPath :=
  {| xPathParseCache := ∅; cachePrototype := None; lexerCount := 0 |}.

End Sample.

(** ** Expression contexts and the evaluation of steps

    [ExprContext], [StepExpr.evaluate] and the evaluation of predicates
    and sort keys live in [./expr-context] and [./expressions], which are
    not among the sources. *)

(** Modelled from the spec: the fields of [ExprContext] that [xPathStep]
    and [xPathSort] read or write (section 3, Context).  The variable
    scope and the other options are shared by every clone, so they are
    part of the evaluator below. *)
Record ExprContext (N : Type) := Context {
  nodeList : list N;
  position : nat;
  returnOnFirstMatch : bool
}.
Arguments Context {N} _ _ _.
Arguments nodeList {N} _.
Arguments position {N} _.
Arguments returnOnFirstMatch {N} _.

(** Modelled from the spec: [context.clone(nodeList, undefined, position,
    undefined)]: cloning preserves the flags while substituting the node
    list and the index (section 3). *)
Definition clone {N} (context : ExprContext N) (nl : list N) (pos : nat)
  : ExprContext N :=
  Context nl pos (returnOnFirstMatch context).

(** [ctx.returnOnFirstMatch = b]. *)
Definition setReturnOnFirstMatch {N} (ctx : ExprContext N) (b : bool)
  : ExprContext N :=
  Context (nodeList ctx) (position ctx) b.

(** A JavaScript number as far as [<] and [>] tell: not-a-number, the two
    infinities and the finite values, which are rationals. *)
Inductive jsNumber :=
| NaN
| NegInfinity
| Finite (q : Q)
| Infinity.

(** The evaluation of the parts of a path, a parameter:
    [axisNodes s n] are the nodes of the axis of the step [s] from [n], in
    axis order, that pass the node test of [s];
    [predicateHolds p ctx] is [p.evaluate(ctx).booleanValue()];
    [stringValueOf e ctx] is [e.evaluate(ctx).stringValue()];
    [numberValueOf e ctx] is [e.evaluate(ctx).numberValue()];
    [documentOrderId n] is the identifier of section 3. *)
Record Evaluator (N : Type) := {
  axisNodes : Expression -> N -> list N;
  predicateHolds : Expression -> ExprContext N -> bool;
  stringValueOf : Expression -> ExprContext N -> string;
  numberValueOf : Expression -> ExprContext N -> jsNumber;
  documentOrderId : N -> Z
}.
Arguments axisNodes {N} _ _ _.
Arguments predicateHolds {N} _ _ _.
Arguments stringValueOf {N} _ _ _.
Arguments numberValueOf {N} _ _ _.
Arguments documentOrderId {N} _ _.

(** The nodes of [nl] that pass the predicate [p], each tested at its own
    position in [nl]. *)
Fixpoint filterAt {N} (E : Evaluator N) (p : Expression)
    (ctx : ExprContext N) (nl : list N) (i : nat) (rest : list N) : list N :=
  match rest with
  | [] => []
  | n :: rest' =>
      if predicateHolds E p (clone ctx nl i)
      then n :: filterAt E p ctx nl (S i) rest'
      else filterAt E p ctx nl (S i) rest'
  end.

Definition filterPredicate {N} (E : Evaluator N) (ctx : ExprContext N)
    (nl : list N) (p : Expression) : list N :=
  filterAt E p ctx nl 0 nl.

(** Modelled from the spec: [s.evaluate(ctx).nodeSetValue()] of a step
    (sections 4.E and 4.I): the nodes of the axis from the context node
    that pass the node test, then the predicates in order, each over the
    survivors of the one before.  The predicates are left out when the
    context has [returnOnFirstMatch] set, as the comments of [xPathStep]
    say. *)
Definition StepExpr_evaluate {N} (E : Evaluator N) (s : Expression)
    (ctx : ExprContext N) : list N :=
  match nodeList ctx !! position ctx with
  | None => []
  | Some input =>
      let candidates := axisNodes E s input in
      if returnOnFirstMatch ctx then candidates
      else
        match s with
        | StepExpr _ _ predicate _ =>
            fold_left (filterPredicate E ctx) predicate candidates
        | _ => candidates
        end
  end.

(** ** [xPathStep] *)

(** The loop of the branch without the shortcut: every node of the list
    is pushed or handed to the next step. *)
Fixpoint visitAll {N} (visit : list N -> N -> outcome (list N))
    (nodeList : list N) (nodes : list N) : outcome (list N) :=
  match nodeList with
  | [] => Ok nodes
  | n :: rest =>
      match visit nodes n with
      | Ok nodes' => visitAll visit rest nodes'
      | Throw e => Throw e
      | OutOfFuel => OutOfFuel
      end
  end.

(** The labelled loop [nodeListLoop]: [rest] are the nodes from index [i]
    on.  A node that fails a predicate is skipped by [continue]; after a
    node that passes them all, the loop ends once [nodes] is not empty. *)
Fixpoint visitFirst {N} (passes : nat -> bool)
    (visit : list N -> N -> outcome (list N))
    (i : nat) (rest : list N) (nodes : list N) : outcome (list N) :=
  match rest with
  | [] => Ok nodes
  | n :: rest' =>
      if passes i then
        match visit nodes n with
        | Ok nodes' =>
            if Nat.ltb 0 (length nodes') then Ok nodes'
            else visitFirst passes visit (S i) rest' nodes'
        | Throw e => Throw e
        | OutOfFuel => OutOfFuel
        end
      else visitFirst passes visit (S i) rest' nodes
  end.

(** [xPathStep(nodes, steps, step, input, context)] on the steps from
    index [step] on; the value is the array [nodes] as the call leaves
    it. *)
Fixpoint xPathStepFrom {N} (E : Evaluator N) (rest : list Expression)
    (nodes : list N) (input : N) (context : ExprContext N)
  : outcome (list N) :=
  match rest with
  | [] => illTyped "steps[step]"
  | s :: rest' =>
      match s with
      | StepExpr _ _ predicate hasPositional =>
          let ctx2 := clone context [input] 0 in
          let visit := fun nodes n =>
            match rest' with
            | [] => Ok (nodes ++ [n])%list
            | _ :: _ => xPathStepFrom E rest' nodes n context
            end in
          if returnOnFirstMatch context && negb hasPositional then
            let nodeList := StepExpr_evaluate E s ctx2 in
            visitFirst
              (fun i =>
                 forallb (fun p => predicateHolds E p (clone context nodeList i))
                         predicate)
              visit 0 nodeList nodes
          else
            let ctx2 := setReturnOnFirstMatch ctx2 false in
            let nodeList := StepExpr_evaluate E s ctx2 in
            visitAll visit nodeList nodes
      | _ => illTyped "steps[step]"
      end
  end.

Definition xPathStep {N} (E : Evaluator N) (nodes : list N)
    (steps : list Expression) (step : nat) (input : N)
    (context : ExprContext N) : outcome (list N) :=
  xPathStepFrom E (drop step steps) nodes input context.

(** The node of the smallest document-order identifier, the first of
    them when several share it. *)
Fixpoint firstInDocumentOrder {N} (E : Evaluator N) (l : list N) : option N :=
  match l with
  | [] => None
  | n :: rest =>
      match firstInDocumentOrder E rest with
      | Some m =>
          if Z.ltb (documentOrderId E m) (documentOrderId E n)
          then Some m else Some n
      | None => Some n
      end
  end.

(** ** [xPathSort] and [xPathSortByKey] *)

(** An entry of the argument [sort]: [s.expr], [s.type], [s.order]. *)
Record SortSpec := {
  sortExpr : Expression;
  sortType : string;
  sortOrder : string
}.

(** The value of a sort key: a string, a number or [undefined]. *)
Inductive keyValue :=
| KString (s : string)
| KNumber (x : jsNumber)
| KUndefined.

Record keyEntry := KeyEntry {
  k_value : keyValue;
  k_order : string
}.

Record sortItem (N : Type) := SortItem {
  item_node : N;
  item_key : list keyEntry
}.
Arguments SortItem {N} _ _.
Arguments item_node {N} _.
Arguments item_key {N} _.

(** [a < b] on strings: by code units. *)
Fixpoint stringLt (a b : string) : bool :=
  match a, b with
  | _, EmptyString => false
  | EmptyString, String _ _ => true
  | String c a', String d b' =>
      if Nat.ltb (JS.code c) (JS.code d) then true
      else if Nat.eqb (JS.code c) (JS.code d) then stringLt a' b'
      else false
  end.

(** [a < b] on numbers: false as soon as one side is not a number. *)
Definition numberLt (a b : jsNumber) : bool :=
  match a, b with
  | NaN, _ | _, NaN => false
  | NegInfinity, NegInfinity => false
  | NegInfinity, _ => true
  | _, NegInfinity => false
  | Infinity, _ => false
  | _, Infinity => true
  | Finite x, Finite y => negb (Qle_bool y x)
  end.

(** [a < b] on key values.  [undefined] converts to not-a-number.  The
    two values of one comparison come from the same entry of [sort], so a
    string never meets a number. *)
Definition jsLt (a b : keyValue) : bool :=
  match a, b with
  | KString x, KString y => stringLt x y
  | KNumber x, KNumber y => numberLt x y
  | _, _ => false
  end.

Definition jsGt (a b : keyValue) : bool := jsLt b a.

(** The loop of [xPathSortByKey] over the two key vectors, which have
    the same length. *)
Fixpoint compareKeys (k1 k2 : list keyEntry) : Z :=
  match k1, k2 with
  | e1 :: r1, e2 :: r2 =>
      let o := if String.eqb (k_order e1) "descending" then (-1)%Z else 1%Z in
      if jsGt (k_value e1) (k_value e2) then (1 * o)%Z
      else if jsLt (k_value e1) (k_value e2) then (-1 * o)%Z
      else compareKeys r1 r2
  | _, _ => 0%Z
  end.

Definition xPathSortByKey {N} (v1 v2 : sortItem N) : Z :=
  compareKeys (item_key v1) (item_key v2).

(** The key entry of the node [node] for the entry [s] of [sort]. *)
Definition keyOf {N} (E : Evaluator N) (context : ExprContext N) (node : N)
    (s : SortSpec) : keyEntry :=
  let clonedContext := clone context [node] 0 in
  let evalue :=
    if String.eqb (sortType s) "text"
    then KString (stringValueOf E (sortExpr s) clonedContext)
    else if String.eqb (sortType s) "number"
    then KNumber (numberValueOf E (sortExpr s) clonedContext)
    else KUndefined in
  KeyEntry evalue (sortOrder s).

(** The entry that makes the sort stable: [{ value: i, order:
    'ascending' }]. *)
Definition indexKey (i : nat) : keyEntry :=
  KeyEntry (KNumber (Finite (inject_Z (Z.of_nat i)))) "ascending".

(** The items of [sortList] for the nodes [rest], which start at index
    [i] of the node list. *)
Fixpoint sortItemsFrom {N} (E : Evaluator N) (context : ExprContext N)
    (sort : list SortSpec) (i : nat) (rest : list N) : list (sortItem N) :=
  match rest with
  | [] => []
  | node :: rest' =>
      SortItem node (map (keyOf E context node) sort ++ [indexKey i])%list
      :: sortItemsFrom E context sort (S i) rest'
  end.

Definition sortList {N} (E : Evaluator N) (context : ExprContext N)
    (sort : list SortSpec) : list (sortItem N) :=
  sortItemsFrom E context sort 0 (nodeList context).

(** [xPathSort(context, sort)]: the context as the call leaves it.
    [arraySort] is [Array.prototype.sort].  The call also writes
    [node.siblingPosition = i] for the node at index [i] of the new
    list. *)
Definition xPathSort {N} (E : Evaluator N)
    (arraySort : (sortItem N -> sortItem N -> Z) ->
                 list (sortItem N) -> list (sortItem N))
    (context : ExprContext N) (sort : list SortSpec) : ExprContext N :=
  match sort with
  | [] => context
  | _ :: _ =>
      let sorted := arraySort xPathSortByKey (sortList E context sort) in
      Context (map item_node sorted) 0 (returnOnFirstMatch context)
  end.

(** What [Array.prototype.sort] promises of a comparison function that is
    consistent on the items: the result is a permutation in which no item
    stands behind an item it compares greater than. *)
Definition precedes {A} (cmp : A -> A -> Z) (a b : A) : Prop := (cmp a b <= 0)%Z.

Definition consistentOn {A} (cmp : A -> A -> Z) (l : list A) : Prop :=
  (forall a, In a l -> cmp a a = 0%Z)
  /\ (forall a b, In a l -> In b l -> (cmp a b < 0)%Z <-> (0 < cmp b a)%Z)
  /\ (forall a b c, In a l -> In b l -> In c l ->
        precedes cmp a b -> precedes cmp b c -> precedes cmp a c).

Definition sortsConsistently {A}
    (arraySort : (A -> A -> Z) -> list A -> list A) : Prop :=
  forall cmp l, consistentOn cmp l ->
    Permutation (arraySort cmp l) l
    /\ forall i j a b, (i < j)%nat ->
         arraySort cmp l !! i = Some a -> arraySort cmp l !! j = Some b ->
         precedes cmp a b.

(** Two key vectors agree on the keys of the caller when no comparison
    of two of their values at one place tells them apart. *)
Definition sameValue (a b : keyValue) : Prop :=
  jsGt a b = false /\ jsLt a b = false.


(** No sort key of a node of the context is not-a-number. *)
Definition noNaNKey {N} (E : Evaluator N) (context : ExprContext N)
    (sort : list SortSpec) : Prop :=
  forall n s, In n (nodeList context) -> In s sort ->
    k_value (keyOf E context n s) <> KNumber NaN.

(** ** [xmlParse]: the choice of the grammar *)

(** The two pairs of regular expressions for tag names and attributes. *)
Inductive xmlGrammar := XML10 | XML11.

(** What [xmlParse] reads from modules that are not among the sources:
    [searchVersion10 xml] is [xml.search(new RegExp(XML10_VERSION_INFO))],
    the index of the first match or -1, [searchVersion11] the same for
    XML 1.1, and [buildDocument g xml] is the rest of the function, which
    builds the document with the expressions of [g] and can only fail
    with a run-time error of the engine. *)
Record XmlImports (D : Type) := {
  searchVersion10 : string -> Z;
  searchVersion11 : string -> Z;
  buildDocument : xmlGrammar -> string -> D + string
}.
Arguments searchVersion10 {D} _ _.
Arguments searchVersion11 {D} _ _.
Arguments buildDocument {D} _ _ _.

Inductive xmlOutcome (D : Type) :=
| Parsed (doc : D)
| ThrowError (message : string)      (* [throw new Error(message)] *)
| RuntimeError (what : string).
Arguments Parsed {D} _.
Arguments ThrowError {D} _.
Arguments RuntimeError {D} _.

Definition versionInfoMessage : string :=
  "VersionInfo is missing, or unknown version number.".

Definition runBody {D} (X : XmlImports D) (g : xmlGrammar) (xml : string)
  : xmlOutcome D :=
  match buildDocument X g xml with
  | inl doc => Parsed doc
  | inr what => RuntimeError what
  end.

(** [xml.match(/^<\?xml/)]. *)
Definition hasXmlDeclaration (xml : string) : bool := String.prefix "<?xml" xml.

Definition xmlParse {D} (X : XmlImports D) (xml : string) : xmlOutcome D :=
  if hasXmlDeclaration xml then
    if Z.eqb (searchVersion10 X xml) 5 then runBody X XML10 xml
    else if Z.eqb (searchVersion11 X xml) 5 then runBody X XML11 xml
    else ThrowError versionInfoMessage
  else runBody X XML10 xml.

(** ** A small document and an evaluator over it

    Modelled from the spec: element nodes with a name, ordered children
    and a document-order identifier (section 3); the [self], [child] and
    [descendant-or-self] axes in document order (section 4.D); the name
    test and [node()] (section 4.C); a predicate that is a number [n]
    holds at position [n], a predicate that is a relative path holds when
    the path selects a node (section 4.I).  The instance serves the
    worked examples. *)

Module SampleDom.

Inductive tree := Node (id : nat) (name : string) (children : list tree).

Definition treeId (t : tree) : nat := match t with Node i _ _ => i end.
Definition treeName (t : tree) : string := match t with Node _ n _ => n end.
Definition treeChildren (t : tree) : list tree :=
  match t with Node _ _ cs => cs end.

Fixpoint descendantOrSelf (t : tree) : list tree :=
  match t with
  | Node _ _ cs => t :: flat_map descendantOrSelf cs
  end.

Definition axisOf (axis : string) (t : tree) : list tree :=
  if String.eqb axis "self" then [t]
  else if String.eqb axis "child" then treeChildren t
  else if String.eqb axis "descendant-or-self" then descendantOrSelf t
  else [].

Definition passesTest (nodeTest : Expression) (t : tree) : bool :=
  match nodeTest with
  | NodeTestName n => String.eqb n (treeName t)
  | NodeTestAny | NodeTestElementOrAttribute => true
  | _ => false
  end.

Definition sampleAxisNodes (s : Expression) (t : tree) : list tree :=
  match s with
  | StepExpr axis nodeTest _ _ =>
      List.filter (passesTest nodeTest) (axisOf axis t)
  | _ => []
  end.

(** The number a string of digits writes. *)
Fixpoint digitsValue (acc : nat) (s : string) : nat :=
  match s with
  | String c r => digitsValue (10 * acc + (JS.code c - 48)) r
  | EmptyString => acc
  end.

Definition samplePredicateHolds (p : Expression) (ctx : ExprContext tree) : bool :=
  match p with
  | PredicateExpr (NumberExpr d) => Nat.eqb (S (position ctx)) (digitsValue 0 d)
  | PredicateExpr (LocationExpr false [s]) =>
      match nodeList ctx !! position ctx with
      | Some t => Nat.ltb 0 (length (sampleAxisNodes s t))
      | None => false
      end
  | _ => false
  end.

(** The string value of a sort key is the name of the context node, its
    number value the number the name writes, not-a-number for a name that
    is not made of digits. *)
Definition sampleStringValue (e : Expression) (ctx : ExprContext tree) : string :=
  match nodeList ctx !! position ctx with
  | Some t => treeName t
  | None => EmptyString
  end.

Definition sampleNumberValue (e : Expression) (ctx : ExprContext tree) : jsNumber :=
  match nodeList ctx !! position ctx with
  | Some t =>
      if JS.matchesDigits (treeName t)
      then Finite (inject_Z (Z.of_nat (digitsValue 0 (treeName t))))
      else NaN
  | None => NaN
  end.

Definition evaluator : Evaluator tree := {|
  axisNodes := sampleAxisNodes;
  predicateHolds := samplePredicateHolds;
  stringValueOf := sampleStringValue;
  numberValueOf := sampleNumberValue;
  documentOrderId := fun t => Z.of_nat (treeId t)
|}.

(** [<r><x><a/></x><a/></r>], numbered in document order. *)
Definition a2 : tree := Node 2 "a" [].
Definition a3 : tree := Node 3 "a" [].
Definition x1 : tree := Node 1 "x" [a2].
Definition r0 : tree := Node 0 "r" [x1; a3].

(** [<l><b>7</b>...</l>]: children named by the sort key they carry. *)
Definition items : list tree :=
  [Node 1 "7" []; Node 2 "3" []; Node 3 "7" []; Node 4 "3" []].

(** An insertion sort that places an item before the first item it
    compares smaller than, from the last item of the list to the first. *)
Fixpoint insertBy {A} (cmp : A -> A -> Z) (x : A) (l : list A) : list A :=
  match l with
  | [] => [x]
  | y :: t => if Z.ltb (cmp x y) 0 then x :: y :: t else y :: insertBy cmp x t
  end.

Definition insertionSort {A} (cmp : A -> A -> Z) (l : list A) : list A :=
  fold_right (insertBy cmp) [] l.

(** A search for one fixed declaration text, and a document that records
    the grammar chosen. *)
Definition searchText (needle xml : string) : Z :=
  match String.index 0 needle xml with
  | Some i => Z.of_nat i
  | None => (-1)%Z
  end.

(** The text [s] between two double quotation marks. *)
Definition doubleQuoted (s : string) : string :=
  String (ascii_of_nat 34) (s ++ String (ascii_of_nat 34) EmptyString).

(** The index of the first place of the version number [v], written in
    single or in double quotation marks. *)
Definition searchVersion (v xml : string) : Z :=
  let i := searchText (" version='" ++ v ++ "'") xml in
  let j := searchText (" version=" ++ doubleQuoted v) xml in
  if Z.ltb i 0 then j else if Z.ltb j 0 then i else Z.min i j.

Definition xmlImports : XmlImports (xmlGrammar * string) := {|
  searchVersion10 := searchVersion "1.0";
  searchVersion11 := searchVersion "1.1";
  buildDocument := fun g xml => inl (g, xml)
|}.

End SampleDom.

(** ** The statements of the specification, as predicates *)

(** A token rule fails on an input when [exec] returns [null] or an empty
    match. *)
Definition failsOn (I : Imports) (expression : string) (t : symbol) : Prop :=
  exec I t expression = None \/ exec I t expression = Some EmptyString.

(** The lexer as the specification words it: the rule selected has the
    longest match of the table. *)
Definition selectsLongestMatch (I : Imports) : Prop :=
  forall expression previous rule m k,
    findXPathRuleForExpression I expression previous = (Some rule, m, k) ->
    forall t' m', In t' (xPathTokenRules I) ->
      exec I t' expression = Some m' ->
      (String.length m' <= String.length m)%nat.

(** The look-back condition of the specification: no previous token, or
    one of [@], [//], [/], [::], [$]. *)
Definition nameContext (previous : option frame) : Prop :=
  previous = None
  \/ exists p, previous = Some p
       /\ In (f_tag p) [TOK_AT; TOK_DSLASH; TOK_SLASH; TOK_AXIS; TOK_DOLLAR].

(** The test of [xPathReduce] as the specification words it: the
    look-ahead is the end of the input, or the candidate's precedence is
    greater than the look-ahead's, or the look-ahead is left-associative
    and the candidate's precedence is at least the look-ahead's. *)
Definition reducesSpec (I : Imports) (c : candidate) (ahead : option frame)
  : Prop :=
  ahead = None
  \/ exists a, ahead = Some a
       /\ ((f_prec a < c_prec c)%Z
           \/ (left I (f_tag a) = true /\ (f_prec a <= c_prec c)%Z)).

(** The frame a reduction by the candidate [c] pushes. *)
Definition reducedFrame (c : candidate) (e : Expression) : frame :=
  Frame (r_target (c_rule c)) (c_prec c) e.

(** The semantic value of the candidate [c]. *)
Definition candidateExpr (I : Imports) (c : candidate) : outcome Expression :=
  applyFactory I (r_factory (c_rule c)) (map itemExpr (c_match c)).

(** A rule matches the stack when [xPathMatchStack] returns an array
    that is not empty. *)
Definition ruleMatches (stack : list frame) (r : rule) : Prop :=
  exists m ms ml, xPathMatchStack stack (r_pattern r) = Some (m :: ms, ml).

(** The candidate of a stack as the grammar gives it: its rule is the
    first rule that matches the stack in the table of the grammar sorted
    by descending length of the pattern, its match is the match of that
    rule and its precedence the precedence [xPathGrammarPrecedence] gives
    the rule. *)
Definition candidateOf (I : Imports) (stack : list frame) (c : candidate)
  : Prop :=
  exists before after,
    sortedGrammarRules = (before ++ c_rule c :: after)%list
    /\ Forall (fun r => ~ ruleMatches stack r) before
    /\ xPathMatchStack stack (r_pattern (c_rule c))
       = Some (c_match c, c_matchlength c)
    /\ c_match c <> []
    /\ c_prec c = xPathGrammarPrecedence I (c_rule c).

Definition isQuantifier (q : symbol) : bool :=
  symbol_eqb q Q_MM || symbol_eqb q Q_01 || symbol_eqb q Q_1M.

(** The weight of the symbols of a reversed pattern that every match
    takes from the stack: the symbols that carry no quantifier. *)
Fixpoint mandatoryWeight (rp : list symbol) : nat :=
  match rp with
  | [] => 0
  | q :: rp' =>
      if isQuantifier q then
        match rp' with
        | _ :: rp'' => mandatoryWeight rp''
        | [] => 0
        end
      else weight q + mandatoryWeight rp'
  end.

(** A rule lowers the weight of the stack when its target weighs less
    than the symbols every match of its pattern takes. *)
Definition lowersWeight (r : rule) : bool :=
  Nat.ltb (weight (r_target r)) (mandatoryWeight (rev (r_pattern r))).

(** A computation ends: it returns or throws. *)
Definition ends {A} (o : outcome A) : Prop := o <> OutOfFuel.

(** A location path of plain name-test steps. *)
Definition isNameTestStep (s : Expression) : bool :=
  match s with
  | StepExpr _ (NodeTestName _) [] false => true
  | _ => false
  end.

Definition isNameTestLocation (e : Expression) : bool :=
  match e with
  | LocationExpr _ steps => forallb isNameTestStep steps
  | _ => false
  end.

(** The shortcuts as the specification words them: every input of the
    three textual patterns gives a location path of plain name-test
    steps. *)
Definition shortcutsBuildLocations (I : Imports) : Prop :=
  forall expression axis this,
    JS.matchesSimple expression = true \/ JS.matchesChain expression = true ->
    exists e, fst (xPathParse I expression axis this) = Ok e
      /\ isNameTestLocation e = true.

(** The labels of the frames of a stack. *)
Definition stackLabels (I : Imports) (stack : list frame) : list string :=
  map (fun f => label I (f_tag f)) stack.

(** The value of the shortcuts of [xPathParse]. *)
Definition shortcut (expression : string) (axis : option string) : Expression :=
  if JS.matchesSimple expression then makeSimpleExpr expression axis
  else makeSimpleExpr2 expression.

(** The text of the parse error as the specification words it: the
    prefix, the expression, a colon and a line break, then the labels of
    the frames joined by line breaks. *)
Definition parseErrorSpec (I : Imports) (expression : string)
    (stack : list frame) : string :=
  "XPath parse error " ++ expression ++ ":" ++ newline
  ++ String.concat newline (stackLabels I stack).

(** The flag [hasPositionalPredicate] of a step. *)
Definition isPositionalStep (s : Expression) : bool :=
  match s with
  | StepExpr _ _ _ hp => hp
  | _ => false
  end.

Definition isPlainStep (s : Expression) : bool :=
  match s with
  | StepExpr _ _ _ hp => negb hp
  | _ => false
  end.

Definition isStep (s : Expression) : bool :=
  match s with
  | StepExpr _ _ _ _ => true
  | _ => false
  end.

Definition predicatesOf (s : Expression) : list Expression :=
  match s with
  | StepExpr _ _ ps _ => ps
  | _ => []
  end.

(** The first-match shortcut as the specification words it for a path
    with a positional step: the whole path is evaluated as without the
    flag. *)
Definition positionalDisablesShortcut {N} (E : Evaluator N) : Prop :=
  forall steps input nl pos,
    existsb isPositionalStep steps = true ->
    xPathStep E [] steps 0 input (Context nl pos true)
    = xPathStep E [] steps 0 input (Context nl pos false).

(** The test of the loop with the early return on the node at index [i]
    of the nodes [l] of the step [s]: every predicate of the step holds
    there. *)
Definition passesAt {N} (E : Evaluator N) (s : Expression)
    (context : ExprContext N) (l : list N) (i : nat) : bool :=
  forallb (fun p => predicateHolds E p (clone context l i)) (predicatesOf s).

(** The nodes of [rest] that pass, [rest] being the nodes from index [i]
    on. *)
Fixpoint passingFrom {N} (passes : nat -> bool) (i : nat) (rest : list N)
  : list N :=
  match rest with
  | [] => []
  | n :: rest' =>
      if passes i then n :: passingFrom passes (S i) rest'
      else passingFrom passes (S i) rest'
  end.

(** The nodes of the axis of the step [s] from [input] that pass the
    node test and the predicates of the step, each predicate tested at
    the index of the node among the nodes of the axis. *)
Definition passing {N} (E : Evaluator N) (s : Expression)
    (context : ExprContext N) (input : N) : list N :=
  passingFrom (passesAt E s context (axisNodes E s input)) 0
    (axisNodes E s input).

(** The first-match shortcut as the specification words it for a path
    without positional steps: the node it yields is the first node in
    document order of the full result. *)
Definition firstMatchIsDocumentFirst {N} (E : Evaluator N) : Prop :=
  forall steps input n,
    forallb isPlainStep steps = true ->
    xPathStep E [] steps 0 input (Context [input] 0 true) = Ok [n] ->
    exists full,
      xPathStep E [] steps 0 input (Context [input] 0 false) = Ok full
      /\ firstInDocumentOrder E full = Some n.

(** The context node of a context. *)
Definition contextNode {N} (c : ExprContext N) : option N :=
  nodeList c !! position c.

(** The truth of the predicates of the steps depends on the context node
    alone: not on its position, the other nodes of the list or the
    flag. *)
Definition nodeOnlyPredicates {N} (E : Evaluator N) (steps : list Expression)
  : Prop :=
  forall s p, In s steps -> In p (predicatesOf s) ->
    forall c c' : ExprContext N,
      contextNode c = contextNode c' ->
      predicateHolds E p c = predicateHolds E p c'.

(** The nodes a step selects from [input] without the shortcut. *)
Definition selected {N} (E : Evaluator N) (s : Expression) (input : N) : list N :=
  StepExpr_evaluate E s (Context [input] 0 false).

(** The nodes the steps select from [input] without the shortcut, in the
    order [xPathStep] pushes them: depth first, the nodes of each step in
    the order of its axis. *)
Fixpoint fullResult {N} (E : Evaluator N) (steps : list Expression) (input : N)
  : list N :=
  match steps with
  | [] => []
  | s :: rest =>
      match rest with
      | [] => selected E s input
      | _ :: _ => flat_map (fullResult E rest) (selected E s input)
      end
  end.

(** A list of nodes in document order. *)
Fixpoint inDocumentOrder {N} (E : Evaluator N) (l : list N) : Prop :=
  match l with
  | [] => True
  | n :: rest =>
      Forall (fun m => (documentOrderId E n <= documentOrderId E m)%Z) rest
      /\ inDocumentOrder E rest
  end.

(** What the next step does with a node that passed: the closure of the
    loops of [xPathStep]. *)
Definition visitNext {N} (E : Evaluator N) (rest : list Expression)
    (context : ExprContext N) (nodes : list N) (n : N) : outcome (list N) :=
  match rest with
  | [] => Ok (nodes ++ [n])%list
  | _ :: _ => xPathStepFrom E rest nodes n context
  end.

(** The item [xPathSort] builds for the node [n] at index [i]: the keys
    of the caller, then the index. *)
Definition itemAt {N} (E : Evaluator N) (context : ExprContext N)
    (sort : list SortSpec) (i : nat) (n : N) : sortItem N :=
  SortItem n (map (keyOf E context n) sort ++ [indexKey i])%list.

(** Two values of one place of the key vectors can be compared: they
    have the same type and neither is not-a-number. *)
Definition comparable (a b : keyValue) : Prop :=
  a <> KNumber NaN /\ b <> KNumber NaN
  /\ match a, b with
     | KString _, KString _ | KNumber _, KNumber _ | KUndefined, KUndefined => True
     | _, _ => False
     end.

Definition compatibleKeys (k1 k2 : list keyEntry) : Prop :=
  Forall2 (fun e1 e2 => k_order e1 = k_order e2
                        /\ comparable (k_value e1) (k_value e2)) k1 k2.

(** A list in which no item stands behind an item it compares greater
    than. *)
Fixpoint sortedBy {A} (cmp : A -> A -> Z) (l : list A) : Prop :=
  match l with
  | [] => True
  | a :: rest => Forall (precedes cmp a) rest /\ sortedBy cmp rest
  end.


(** * Further definitions *)

(** ** Matches and patterns *)

(** The frames of an entry of [match]: the frame itself, or the frames of
    a quantified match. *)
Definition itemFrames (m : matchItem) : list frame :=
  match m with
  | MFrame f => [f]
  | MQuant fs => fs
  end.

(** The frames of [match], from the deepest to the top of the stack. *)
Definition matchFrames (ms : list matchItem) : list frame :=
  flat_map itemFrames ms.

(** The tags [ts], read from the top of the stack downwards, are an
    instance of the reversed pattern [rp]: a symbol stands for itself,
    [x Q_MM] for any number of [x], [x Q_1M] for at least one [x], and
    [x Q_01] for at most two [x], which is what the loop of
    [xPathMatchStack] takes ([ds < 2]). *)
Inductive instanceOf : list symbol -> list symbol -> Prop :=
| instance_end : instanceOf [] []
| instance_symbol q rp ts :
    isQuantifier q = false -> instanceOf rp ts ->
    instanceOf (q :: rp) (q :: ts)
| instance_any x rp n ts :
    instanceOf rp ts ->
    instanceOf (Q_MM :: x :: rp) (repeat x n ++ ts)%list
| instance_upto2 x rp n ts :
    (n <= 2)%nat -> instanceOf rp ts ->
    instanceOf (Q_01 :: x :: rp) (repeat x n ++ ts)%list
| instance_some x rp n ts :
    (1 <= n)%nat -> instanceOf rp ts ->
    instanceOf (Q_1M :: x :: rp) (repeat x n ++ ts)%list.

(** A reversed pattern whose every match takes the frame on top of the
    stack: it does not consist of optional symbols alone. *)
Fixpoint anchored (rp : list symbol) : bool :=
  match rp with
  | [] => false
  | q :: rest =>
      if symbol_eqb q Q_1M then true
      else if symbol_eqb q Q_MM || symbol_eqb q Q_01 then
        match rest with
        | _ :: rest' => anchored rest'
        | [] => true
        end
      else true
  end.

(** A list of rules in which no rule stands before a rule with a longer
    pattern. *)
Fixpoint descendingByLength (l : list rule) : bool :=
  match l with
  | [] => true
  | r :: rest =>
      forallb (fun r' => Nat.leb (length (r_pattern r')) (length (r_pattern r))) rest
      && descendingByLength rest
  end.

(** A stack for the worked examples: a primary expression followed by
    two predicates, as the parser holds it before the end of [$x[a][b]]. *)
Definition filterStack : list frame := [
  Frame XPathPrimaryExpr 33 (VariableExpr "x");
  Frame XPathPredicate 33 (PredicateExpr (NumberExpr "1"));
  Frame XPathPredicate 33 (PredicateExpr (NumberExpr "2"))
].

(** An insertion sort that takes the items from the first to the last. *)
Definition insertionSortLeft {A} (cmp : A -> A -> Z) (l : list A) : list A :=
  fold_left (fun acc x => SampleDom.insertBy cmp x acc) l [].





(** The flag [hasPositionalPredicate] of the second step of the path the
    sample parser makes of an expression. *)
Definition secondStepFlag (expression : string) : option bool :=
  match fst (xPathParse Sample.imports expression None Sample.fresh) with
  | Ok (LocationExpr _ [_; StepExpr _ _ _ hp]) => Some hp
  | _ => None
  end.

(** ** Visitors of [xPathStep] *)

(** A visitor that appends to [nodes], for the nodes of the domain [D],
    nodes with the property [R], at most one of them when [b] is set. *)
Definition appender {N} (visit : list N -> N -> outcome (list N))
    (D R : N -> Prop) (b : bool) : Prop :=
  forall nodes n, D n ->
    exists extra, visit nodes n = Ok (nodes ++ extra)%list
      /\ Forall R extra /\ (b = true -> (length extra <= 1)%nat).

(** ** [xPathCollectDescendants] and [xPathCollectDescendantsReverse] *)

(** Modelled from the spec: a node of [./dom/xnode], which is not among
    the sources, as far as the two functions read it: its type, its name
    and its ordered list of children (section 3, DOM node).  [firstChild]
    and [nextSibling] walk the list of children from the first to the
    last, [lastChild] and [previousSibling] from the last to the first. *)
Inductive XNode := XNodeOf (nodeType : nat) (nodeName : string)
                           (childNodes : list XNode).

Definition nodeType (n : XNode) : nat :=
  match n with XNodeOf t _ _ => t end.

Definition childNodes (n : XNode) : list XNode :=
  match n with XNodeOf _ _ cs => cs end.

(** What the two functions import: the constant [DOM_ATTRIBUTE_NODE] of
    [../constants], the method [getElementsByTagName] of a node, [None]
    for a node without it, and [copyArray dst src] of
    [./common-function], the array [dst] as the call leaves it. *)
Record DomImports := {
  DOM_ATTRIBUTE_NODE : nat;
  getElementsByTagName : XNode -> option (string -> list XNode);
  copyArray : list XNode -> list XNode -> list XNode
}.

(** The nodes the loop of [xPathCollectDescendants] pushes for [node],
    in the order of the pushes. *)
Fixpoint collectedBelow (attribute : nat) (node : XNode) : list XNode :=
  match node with
  | XNodeOf _ _ cs =>
      flat_map
        (fun n =>
           ((if Nat.eqb (nodeType n) attribute then [] else [n])
            ++ collectedBelow attribute n)%list)
        cs
  end.

(** [xPathCollectDescendants(nodeList, node, opt_tagName)]: the array
    [nodeList] as the call leaves it.  A tag name that is [undefined] or
    empty is falsy. *)
Definition xPathCollectDescendants (D : DomImports) (nodeList : list XNode)
    (node : XNode) (opt_tagName : option string) : list XNode :=
  match opt_tagName, getElementsByTagName D node with
  | Some tag, Some elements =>
      if JS.nonEmpty tag then copyArray D nodeList (elements tag)
      else (nodeList ++ collectedBelow (DOM_ATTRIBUTE_NODE D) node)%list
  | _, _ => (nodeList ++ collectedBelow (DOM_ATTRIBUTE_NODE D) node)%list
  end.

(** The nodes the loop of [xPathCollectDescendantsReverse] pushes for
    [node]: the children from the last to the first, each followed by
    what the call pushes for it. *)
Fixpoint collectedBelowReverse (node : XNode) : list XNode :=
  match node with
  | XNodeOf _ _ cs =>
      (fix fromLast (cs : list XNode) : list XNode :=
         match cs with
         | [] => []
         | n :: rest => (fromLast rest ++ n :: collectedBelowReverse n)%list
         end) cs
  end.

Definition xPathCollectDescendantsReverse (nodeList : list XNode) (node : XNode)
  : list XNode :=
  (nodeList ++ collectedBelowReverse node)%list.

(** The nodes below [node] in document order: every child followed by
    the nodes below it. *)
Fixpoint nodesBelow (node : XNode) : list XNode :=
  match node with
  | XNodeOf _ _ cs => flat_map (fun n => n :: nodesBelow n) cs
  end.

(** The nodes below [node], every child after the nodes below it. *)
Fixpoint nodesBelowPostorder (node : XNode) : list XNode :=
  match node with
  | XNodeOf _ _ cs => flat_map (fun n => (nodesBelowPostorder n ++ [n])%list) cs
  end.

(** [<a><b><c/></b><d/></a>] with element nodes of type 1. *)
Definition sampleTree : XNode :=
  XNodeOf 1 "a" [XNodeOf 1 "b" [XNodeOf 1 "c" []]; XNodeOf 1 "d" []].

(** ** Tokens that no rule reduces on their own *)

(** The tokens that are not the whole pattern of a rule of the grammar:
    a stack that consists of one such token matches no rule. *)
Definition loneTokens : list symbol := [
  TOK_DIV; TOK_MOD; TOK_AND; TOK_OR; TOK_AT; TOK_AXIS; TOK_DOLLAR;
  TOK_AXISNAME; TOK_NCNAME; TOK_COLON; TOK_NODEO; TOK_PARENC; TOK_BRACKC;
  TOK_BRACKO; TOK_PARENO; TOK_COMMA; TOK_PIPE; TOK_MINUS; TOK_EQ; TOK_NEQ;
  TOK_LT; TOK_LE; TOK_GT; TOK_GE; TOK_PLUS
].

(** ** The scanner of [xmlParse]

    The part of [xmlParse] after the choice of the grammar: the loop over
    the characters of the input, which builds the document with the
    wrappers [domCreateElement], [domSetAttribute], [domAppendChild],
    [domCreateTextNode], [domCreateComment], [domCreateCDATASection] and
    [domCreateDTDSection]. *)

(** Modelled from the spec: the nodes the wrappers create, as the tree
    the calls build (section 3, DOM node): an element with its name, the
    calls of [domSetAttribute] on it in order, and its children; a text,
    a comment, a CDATA section and a DTD section with their text.
    [domAppendChild] makes the node the last child of its parent.  The
    namespace of a node, which [namespaceMapAt] computes, is not part of
    the tree. *)
Inductive Dom :=
| DomElement (name : string) (attributes : list (string * string))
    (children : list Dom)
| DomText (value : string)
| DomComment (value : string)
| DomCData (value : string)
| DomDTD (value : string).

(** What the scanner imports: [tagNameOf g text] is
    [regexTagname.exec(text)], [None] for [null] and the first group
    otherwise; [attributesOf g text] are the matches of the loop over
    [regexAttribute.exec(text)], each with [attribute[1]] and
    [attribute[5] || attribute[7] || '']; [heDecode] is [he.decode]. *)
Record XmlTokens := {
  tagNameOf : xmlGrammar -> string -> option string;
  attributesOf : xmlGrammar -> string -> list (string * string);
  heDecode : string -> string
}.

(** [s.slice(a, b)] for indices that are not negative. *)
Definition jsSlice (a b : nat) (s : string) : string :=
  String.substring a (b - a) s.

(** [s.indexOf(needle)], counted from [k]. *)
Fixpoint indexOfFrom (needle s : string) (k : nat) : Z :=
  if String.prefix needle s then Z.of_nat k
  else match s with
       | EmptyString => (-1)%Z
       | String _ r => indexOfFrom needle r (S k)
       end.

Definition jsIndexOf (needle s : string) : Z := indexOfFrom needle s 0.

(** [text.match(/\/$/)]. *)
Fixpoint endsWithSlash (text : string) : bool :=
  match text with
  | EmptyString => false
  | String c EmptyString => Ascii.eqb c "/"
  | String _ r => endsWithSlash r
  end.

(** An element of [stack] above the document: the element is already
    the last child of the element below it; its children are those added
    so far. *)
Record openElement := OpenElement {
  oe_name : string;
  oe_attributes : list (string * string);
  oe_children : list Dom
}.

(** The document under construction: the elements of [stack] above the
    document, the innermost first, the children of the document, and
    whether the document is still on [stack].  [parent] is the innermost
    element, the document when there is none, and [undefined] once the
    document has been popped. *)
Record domState := DomState {
  d_open : list openElement;
  d_root : list Dom;
  d_rootOnStack : bool
}.

Definition closed (o : openElement) : Dom :=
  DomElement (oe_name o) (oe_attributes o) (oe_children o).

Definition addChild (o : openElement) (node : Dom) : openElement :=
  OpenElement (oe_name o) (oe_attributes o) (oe_children o ++ [node]).

(** [domAppendChild(parent, node)]. *)
Definition appendToParent (d : domState) (node : Dom) : outcome domState :=
  match d_open d with
  | o :: rest => Ok (DomState (addChild o node :: rest) (d_root d) (d_rootOnStack d))
  | [] =>
      if d_rootOnStack d
      then Ok (DomState [] (d_root d ++ [node]) true)
      else illTyped "parent is undefined"
  end.

(** [stack.pop(); parent = stack[stack.length - 1]]. *)
Definition popStack (d : domState) : domState :=
  match d_open d with
  | o :: p :: rest => DomState (addChild p (closed o) :: rest) (d_root d) (d_rootOnStack d)
  | [o] => DomState [] (d_root d ++ [closed o]) (d_rootOnStack d)
  | [] => DomState [] (d_root d) false
  end.

(** [parent !== root]. *)
Definition parentIsNotRoot (d : domState) : bool :=
  match d_open d with
  | _ :: _ => true
  | [] => negb (d_rootOnStack d)
  end.

(** [parent.nodeName]; the name of the document is [#document]. *)
Definition parentNodeName (d : domState) : outcome string :=
  match d_open d with
  | o :: _ => Ok (oe_name o)
  | [] => if d_rootOnStack d then Ok "#document" else illTyped "parent is undefined"
  end.

(** The branch of the loop that creates an element from the text of a
    tag. *)
Definition openTag (T : XmlTokens) (g : xmlGrammar) (text : string)
    (d : domState) : outcome domState :=
  let empty := endsWithSlash text in
  match tagNameOf T g text with
  | None => illTyped "regexTagname.exec(text) is null"
  | Some tagname =>
      let attributes :=
        map (fun a => (fst a, heDecode T (snd a))) (attributesOf T g text) in
      if empty then appendToParent d (DomElement tagname attributes [])
      else
        match d_open d with
        | [] =>
            if d_rootOnStack d
            then Ok (DomState [OpenElement tagname attributes []] (d_root d) true)
            else illTyped "parent is undefined"
        | _ :: _ =>
            Ok (DomState (OpenElement tagname attributes [] :: d_open d)
                  (d_root d) (d_rootOnStack d))
        end
  end.

(** The variables of the loop. *)
Record scanState := ScanState {
  s_tag : bool;
  s_quotes : bool;
  s_doublequotes : bool;
  s_start : nat;
  s_dom : domState
}.

(** The state after a tag or a section has been handled at index [i]. *)
Definition resumeAfter (i : nat) (d : domState) : scanState :=
  ScanState false false false (S i) d.

(** [i += n] for a number [n] that may be negative. *)
Definition advance (i : nat) (n : Z) : nat := Z.to_nat (Z.of_nat i + n).

(** The body of the loop at index [i], where the character is [char]:
    the index and the variables it leaves. *)
Definition xmlStep (T : XmlTokens) (g : xmlGrammar) (xml : string)
    (i : nat) (char : ascii) (s : scanState) : outcome (nat * scanState) :=
  let d := s_dom s in
  if s_tag s && negb (s_doublequotes s) && Ascii.eqb char "'" then
    Ok (i, ScanState (s_tag s) (negb (s_quotes s)) (s_doublequotes s) (s_start s) d)
  else if s_tag s && negb (s_quotes s) && Ascii.eqb char (ascii_of_nat 34) then
    Ok (i, ScanState (s_tag s) (s_quotes s) (negb (s_doublequotes s)) (s_start s) d)
  else if s_tag s && Ascii.eqb char ">" && negb (s_quotes s)
          && negb (s_doublequotes s) then
    let text := jsSlice (s_start s) i xml in
    d' ← (if JS.charAt0_is "/" text then Ok (popStack d)
          else if JS.charAt0_is "?" text then Ok d
          else if JS.charAt0_is "!" text then Ok d
          else openTag T g text d);
    Ok (i, resumeAfter i d')
  else if negb (s_tag s) && Ascii.eqb char "<" then
    let text := jsSlice (s_start s) i xml in
    d1 ← (if JS.nonEmpty text && parentIsNotRoot d
          then appendToParent d (DomText text) else Ok d);
    if String.eqb (jsSlice (i + 1) (i + 4) xml) "!--" then
      let endTagIndex := jsIndexOf "-->" (JS.substr (i + 4) xml) in
      if Z.eqb endTagIndex 0 then Ok (i, ScanState false (s_quotes s) (s_doublequotes s) (S i) d1)
      else
        d2 ← appendToParent d1
               (DomComment (jsSlice (i + 4) (advance i (endTagIndex + 4)) xml));
        let i' := advance i (endTagIndex + 6) in
        Ok (i', ScanState false (s_quotes s) (s_doublequotes s) (S i') d2)
    else if String.eqb (jsSlice (i + 1) (i + 9) xml) "![CDATA[" then
      let endTagIndex := jsIndexOf "]]>" (JS.substr (i + 9) xml) in
      if Z.eqb endTagIndex 0 then Ok (i, ScanState false (s_quotes s) (s_doublequotes s) (S i) d1)
      else
        d2 ← appendToParent d1
               (DomCData (jsSlice (i + 9) (advance i (endTagIndex + 9)) xml));
        let i' := advance i (endTagIndex + 11) in
        Ok (i', ScanState false (s_quotes s) (s_doublequotes s) (S i') d2)
    else if String.eqb (jsSlice (i + 1) (i + 9) xml) "!DOCTYPE" then
      let endTagIndex := jsIndexOf ">" (JS.substr (i + 9) xml) in
      if Z.eqb endTagIndex 0 then Ok (i, ScanState false (s_quotes s) (s_doublequotes s) (S i) d1)
      else
        let dtdValue :=
          JS.trimStart (jsSlice (i + 9) (advance i (endTagIndex + 9)) xml) in
        name ← parentNodeName d1;
        let node :=
          if String.eqb name "xsl:text"
          then DomText ("<!DOCTYPE " ++ dtdValue ++ ">")
          else DomDTD dtdValue in
        d2 ← appendToParent d1 node;
        let i' := advance i (endTagIndex + Z.of_nat (String.length dtdValue) + 5) in
        Ok (i', ScanState false (s_quotes s) (s_doublequotes s) (S i') d2)
    else Ok (i, ScanState true (s_quotes s) (s_doublequotes s) (S i) d1)
  else Ok (i, s).

(** [for (let i = 0; i < xml.length; ++i) { ... }] from the index [i]
    on. *)
Fixpoint xmlLoop (fuel : nat) (T : XmlTokens) (g : xmlGrammar) (xml : string)
    (i : nat) (s : scanState) : outcome scanState :=
  match String.get i xml with
  | None => Ok s
  | Some char =>
      match fuel with
      | O => OutOfFuel
      | S k =>
          match xmlStep T g xml i char s with
          | Ok (i', s') => xmlLoop k T g xml (S i') s'
          | Throw e => Throw e
          | OutOfFuel => OutOfFuel
          end
      end
  end.

(** The children of the document [root] that [xmlParse] returns: the
    elements still on [stack] are the last children of their parents. *)
Fixpoint closeInto (node : Dom) (open : list openElement) (root : list Dom)
  : list Dom :=
  match open with
  | [] => (root ++ [node])%list
  | p :: rest => closeInto (closed (addChild p node)) rest root
  end.

Definition documentChildren (d : domState) : list Dom :=
  match d_open d with
  | [] => d_root d
  | o :: rest => closeInto (closed o) rest (d_root d)
  end.

Definition scanStart : scanState :=
  ScanState false false false 0 (DomState [] [] true).

(** The loop of [xmlParse] with the expressions of the grammar [g]: the
    children of the document returned. *)
Definition xmlParseBody (T : XmlTokens) (g : xmlGrammar) (xml : string)
  : outcome (list Dom) :=
  s ← xmlLoop (String.length xml) T g xml 0 scanStart;
  Ok (documentChildren (s_dom s)).

(** The loop once more, with the input kept as the text between [start]
    and the index, [pending], and the text from the index on, [rest]: the
    loop reads the input through [xml.charAt(i)], [xml.slice(start, i)]
    and slices that begin behind the index, and nothing else.  The
    functions are compared with [xmlLoop] below. *)
Definition scanStep (T : XmlTokens) (g : xmlGrammar)
    (pending : string) (char : ascii) (rest : string)
    (tag quotes doublequotes : bool) (d : domState)
  : outcome (string * string * (bool * bool * bool) * domState) :=
  let more := (pending ++ String char EmptyString)%string in
  if tag && negb doublequotes && Ascii.eqb char "'" then
    Ok (more, rest, (tag, negb quotes, doublequotes), d)
  else if tag && negb quotes && Ascii.eqb char (ascii_of_nat 34) then
    Ok (more, rest, (tag, quotes, negb doublequotes), d)
  else if tag && Ascii.eqb char ">" && negb quotes && negb doublequotes then
    d' ← (if JS.charAt0_is "/" pending then Ok (popStack d)
          else if JS.charAt0_is "?" pending then Ok d
          else if JS.charAt0_is "!" pending then Ok d
          else openTag T g pending d);
    Ok (EmptyString, rest, (false, false, false), d')
  else if negb tag && Ascii.eqb char "<" then
    d1 ← (if JS.nonEmpty pending && parentIsNotRoot d
          then appendToParent d (DomText pending) else Ok d);
    if String.eqb (String.substring 0 3 rest) "!--" then
      let endTagIndex := jsIndexOf "-->" (JS.substr 3 rest) in
      if Z.eqb endTagIndex 0 then Ok (EmptyString, rest, (false, quotes, doublequotes), d1)
      else
        d2 ← appendToParent d1
               (DomComment (String.substring 0 (Z.to_nat endTagIndex) (JS.substr 3 rest)));
        Ok (EmptyString, JS.substr (Z.to_nat (endTagIndex + 6)) rest,
            (false, quotes, doublequotes), d2)
    else if String.eqb (String.substring 0 8 rest) "![CDATA[" then
      let endTagIndex := jsIndexOf "]]>" (JS.substr 8 rest) in
      if Z.eqb endTagIndex 0 then Ok (EmptyString, rest, (false, quotes, doublequotes), d1)
      else
        d2 ← appendToParent d1
               (DomCData (String.substring 0 (Z.to_nat endTagIndex) (JS.substr 8 rest)));
        Ok (EmptyString, JS.substr (Z.to_nat (endTagIndex + 11)) rest,
            (false, quotes, doublequotes), d2)
    else if String.eqb (String.substring 0 8 rest) "!DOCTYPE" then
      let endTagIndex := jsIndexOf ">" (JS.substr 8 rest) in
      if Z.eqb endTagIndex 0 then Ok (EmptyString, rest, (false, quotes, doublequotes), d1)
      else
        let dtdValue :=
          JS.trimStart (String.substring 0 (Z.to_nat endTagIndex) (JS.substr 8 rest)) in
        name ← parentNodeName d1;
        let node :=
          if String.eqb name "xsl:text"
          then DomText ("<!DOCTYPE " ++ dtdValue ++ ">")
          else DomDTD dtdValue in
        d2 ← appendToParent d1 node;
        Ok (EmptyString,
            JS.substr (Z.to_nat (endTagIndex + Z.of_nat (String.length dtdValue) + 5)) rest,
            (false, quotes, doublequotes), d2)
    else Ok (EmptyString, rest, (true, quotes, doublequotes), d1)
  else Ok (more, rest, (tag, quotes, doublequotes), d).

Fixpoint scanText (fuel : nat) (T : XmlTokens) (g : xmlGrammar)
    (pending rest : string) (tag quotes doublequotes : bool) (d : domState)
  : outcome domState :=
  match rest with
  | EmptyString => Ok d
  | String char rest' =>
      match fuel with
      | O => OutOfFuel
      | S k =>
          match scanStep T g pending char rest' tag quotes doublequotes d with
          | Ok (pending', rest'', (tag', quotes', doublequotes'), d') =>
              scanText k T g pending' rest'' tag' quotes' doublequotes' d'
          | Throw e => Throw e
          | OutOfFuel => OutOfFuel
          end
      end
  end.

(** The scan of [rest] with the fuel its length gives. *)
Definition scanAll (T : XmlTokens) (g : xmlGrammar) (pending rest : string)
    (tag quotes doublequotes : bool) (d : domState) : outcome domState :=
  scanText (String.length rest) T g pending rest tag quotes doublequotes d.

(** What the loop does with the text before a [<]: [text && parent !==
    root]. *)
Definition flushText (pending : string) (d : domState) : outcome domState :=
  if JS.nonEmpty pending && parentIsNotRoot d
  then appendToParent d (DomText pending) else Ok d.

(** What the loop does with the text of a tag at its [>]. *)
Definition handleTag (T : XmlTokens) (g : xmlGrammar) (text : string)
    (d : domState) : outcome domState :=
  if JS.charAt0_is "/" text then Ok (popStack d)
  else if JS.charAt0_is "?" text then Ok d
  else if JS.charAt0_is "!" text then Ok d
  else openTag T g text d.

Definition domOf (o : outcome scanState) : outcome domState :=
  match o with
  | Ok s => Ok (s_dom s)
  | Throw e => Throw e
  | OutOfFuel => OutOfFuel
  end.

(** *** Documents written as text *)

(** An element without attributes and a text, written as markup. *)
Fixpoint serialize (n : Dom) : string :=
  match n with
  | DomElement name _ children =>
      "<" ++ name ++ ">" ++ String.concat "" (map serialize children)
      ++ "</" ++ name ++ ">"
  | DomText value => value
  | _ => EmptyString
  end.

(** A character that neither ends a tag nor opens a quotation. *)
Definition tagChar (c : ascii) : bool :=
  negb (Ascii.eqb c "'") && negb (Ascii.eqb c (ascii_of_nat 34))
  && negb (Ascii.eqb c ">").

Definition textChar (c : ascii) : bool := negb (Ascii.eqb c "<").

(** A name that the expressions of the grammar [g] read back from the
    text of its tag, without attributes, and that is not taken for an end
    tag, an instruction, a declaration or an empty element. *)
Definition plainName (T : XmlTokens) (g : xmlGrammar) (name : string) : Prop :=
  tagNameOf T g name = Some name
  /\ attributesOf T g name = []
  /\ JS.forallb_string tagChar name = true
  /\ JS.charAt0_is "/" name = false
  /\ JS.charAt0_is "?" name = false
  /\ JS.charAt0_is "!" name = false
  /\ endsWithSlash name = false.

(** No two texts stand side by side. *)
Fixpoint separated (l : list Dom) : Prop :=
  match l with
  | DomText _ :: ((DomText _ :: _) as rest) => False
  | _ :: rest => separated rest
  | [] => True
  end.

(** A tree of elements with plain names and no attributes, and of texts
    that are not empty and hold no [<]. *)
Fixpoint plainTree (T : XmlTokens) (g : xmlGrammar) (n : Dom) : Prop :=
  match n with
  | DomElement name attributes children =>
      attributes = [] /\ plainName T g name /\ separated children
      /\ (fix all (l : list Dom) : Prop :=
            match l with
            | [] => True
            | c :: rest => plainTree T g c /\ all rest
            end) children
  | DomText value =>
      value <> EmptyString /\ JS.forallb_string textChar value = true
  | _ => False
  end.

Definition isText (n : Dom) : bool :=
  match n with DomText _ => true | _ => false end.

Definition textNode (p : string) : list Dom :=
  if JS.nonEmpty p then [DomText p] else [].

(** The children the scan has added, and the text it holds back, after
    the markup of the nodes [l], when it held back the text [p] before. *)
Fixpoint added (p : string) (l : list Dom) : list Dom :=
  match l with
  | [] => []
  | DomText t :: rest => added (p ++ t) rest
  | n :: rest => (textNode p ++ n :: added EmptyString rest)%list
  end.

Fixpoint heldBack (p : string) (l : list Dom) : string :=
  match l with
  | [] => p
  | DomText t :: rest => heldBack (p ++ t) rest
  | _ :: rest => heldBack EmptyString rest
  end.

Definition addChildren (o : openElement) (l : list Dom) : openElement :=
  OpenElement (oe_name o) (oe_attributes o) (oe_children o ++ l).

(** The document after the text [p], when the parent is not the
    document, and the node [n] have become children of the parent. *)
Definition placed (p : string) (n : Dom) (d : domState) : domState :=
  match d_open d with
  | o :: rest =>
      DomState (addChildren o (textNode p ++ [n]) :: rest) (d_root d)
        (d_rootOnStack d)
  | [] => DomState [] (d_root d ++ [n]) (d_rootOnStack d)
  end.

(** A sample of the imports: the name of a tag is its text up to the
    first blank or [/], its attributes are the pairs of a name and a
    value between two quotation marks of one kind that follow the name,
    and [he.decode] leaves its text as it is. *)
Fixpoint nameOfTag (text : string) : string :=
  match text with
  | EmptyString => EmptyString
  | String c rest =>
      if JS.isSpace c || Ascii.eqb c "/" then EmptyString
      else String c (nameOfTag rest)
  end.

(** Where the scan of the attributes of a tag stands: in the name of the
    tag, between two attributes, in the name of an attribute, behind its
    [=], or in its value, which began with the quotation mark [quote]. *)
Inductive attributeScan :=
| InTagName
| BetweenAttributes
| InAttributeName (name : string)
| BehindEquals (name : string)
| InAttributeValue (name : string) (quote : ascii) (value : string).

Definition isQuote (c : ascii) : bool :=
  Ascii.eqb c "'" || Ascii.eqb c (ascii_of_nat 34).

Fixpoint scanAttributes (at_ : attributeScan) (text : string)
  : list (string * string) :=
  match text with
  | EmptyString => []
  | String c rest =>
      match at_ with
      | InTagName =>
          scanAttributes (if JS.isSpace c then BetweenAttributes else InTagName)
            rest
      | BetweenAttributes =>
          if JS.isSpace c || Ascii.eqb c "/"
          then scanAttributes BetweenAttributes rest
          else scanAttributes (InAttributeName (String c EmptyString)) rest
      | InAttributeName name =>
          if Ascii.eqb c "=" then scanAttributes (BehindEquals name) rest
          else if JS.isSpace c then scanAttributes BetweenAttributes rest
          else scanAttributes (InAttributeName (name ++ String c EmptyString)) rest
      | BehindEquals name =>
          if isQuote c
          then scanAttributes (InAttributeValue name c EmptyString) rest
          else scanAttributes BetweenAttributes rest
      | InAttributeValue name quote value =>
          if Ascii.eqb c quote
          then (name, value) :: scanAttributes BetweenAttributes rest
          else scanAttributes
                 (InAttributeValue name quote (value ++ String c EmptyString))
                 rest
      end
  end.

Definition sampleTokens : XmlTokens := {|
  tagNameOf := fun _ text =>
    match nameOfTag text with
    | EmptyString => None
    | name => Some name
    end;
  attributesOf := fun _ text => scanAttributes InTagName text;
  heDecode := fun v => v
|}.

(** [parent] is the document or an element. *)
Definition parentDefined (d : domState) : Prop :=
  d_open d <> [] \/ d_rootOnStack d = true.

(** The markup of an element with any name in its end tag. *)
Definition markup (name : string) (children : list Dom) (other : string)
  : string :=
  "<" ++ name ++ ">" ++ String.concat "" (map serialize children)
  ++ "</" ++ other ++ ">".


(** The text [c] followed by [needle] holds [needle] at no earlier
    place. *)
Definition firstAt (needle c : string) : Prop :=
  jsIndexOf needle (c ++ needle) = Z.of_nat (String.length c).

(** The two quotation marks of the loop. *)
Definition quoteChar (double : bool) : ascii :=
  if double then ascii_of_nat 34 else "'"%char.

(** The attributes [openTag] sets on the element of the tag [text]. *)
Definition attributesSet (T : XmlTokens) (g : xmlGrammar) (text : string)
  : list (string * string) :=
  map (fun a => (fst a, heDecode T (snd a))) (attributesOf T g text).

(** The text of an empty-element tag that ends with a quotation:
    [t], the quotation of [q], and [/]. *)
Definition quotedTag (double : bool) (t q : string) : string :=
  t ++ String (quoteChar double) (q ++ String (quoteChar double) "/").

(** What the scan makes of the text [p] held back and of the markup of
    an element, when the parent is defined. *)
Definition readsBack (T : XmlTokens) (g : xmlGrammar) (n : Dom) : Prop :=
  plainTree T g n -> isText n = false ->
  forall p r d, parentDefined d ->
    scanAll T g p (serialize n ++ r) false false false d
    = scanAll T g EmptyString r false false false (placed p n d).


(** * Properties *)

(** ** Symbols and strings *)

Lemma symbol_eqb_eq a b : symbol_eqb a b = true <-> a = b.
Proof. unfold symbol_eqb. apply bool_decide_eq_true. Qed.

Lemma symbol_eqb_refl a : symbol_eqb a a = true.
Proof. apply symbol_eqb_eq. reflexivity. Qed.

Lemma symbol_eqb_neq a b : symbol_eqb a b = false <-> a <> b.
Proof. unfold symbol_eqb. apply bool_decide_eq_false. Qed.

Lemma nonEmpty_false s : JS.nonEmpty s = false <-> s = EmptyString.
Proof. destruct s; simpl; split; congruence. Qed.

Lemma nonEmpty_true s : JS.nonEmpty s = true <-> s <> EmptyString.
Proof. destruct s; simpl; split; congruence. Qed.

Lemma prefix_substring n s : String.prefix (String.substring 0 n s) s = true.
Proof.
  revert n. induction s as [|c s IH]; intros [|n]; simpl; auto.
  rewrite IH. destruct (ascii_dec c c); congruence.
Qed.

Lemma length_substring_le n s :
  (String.length (String.substring 0 n s) <= String.length s)%nat.
Proof.
  revert n. induction s as [|c s IH]; intros [|n]; simpl; try lia.
  specialize (IH n). lia.
Qed.

(** ** The lexer *)

Lemma allowsName_spec previous : allowsName previous = true <-> nameContext previous.
Proof.
  unfold allowsName, nameContext. destruct previous as [p|].
  - rewrite !orb_true_iff, !symbol_eqb_eq. split.
    + intros H. right. exists p. split; [reflexivity|]. simpl.
      intuition congruence.
    + intros [H|[q [[= <-] H]]]; [discriminate|]. simpl in H.
      intuition congruence.
  - split; auto.
Qed.

Lemma exec_prefix I t e m : exec I t e = Some m -> String.prefix m e = true.
Proof.
  unfold exec. destruct (re I t e); intros [= <-]. apply prefix_substring.
Qed.

Lemma firstMatch_Some I rules e t m k :
  firstMatch I rules e = (Some t, m, k) ->
  exists before after,
    rules = (before ++ t :: after)%list
    /\ exec I t e = Some m /\ m <> EmptyString
    /\ Forall (failsOn I e) before
    /\ k = S (length before).
Proof.
  revert k. induction rules as [|r rules IH]; intros k; simpl; [discriminate|].
  destruct (exec I r e) as [mr|] eqn:Hr.
  - destruct (JS.nonEmpty mr) eqn:Hne.
    + intros [= -> -> <-]. exists [], rules. repeat split; auto.
      now apply nonEmpty_true.
    + destruct (firstMatch I rules e) as [[r' m'] k'] eqn:Hrec.
      intros [= -> -> <-].
      destruct (IH k' eq_refl) as (b & a & -> & He & Hm & Hf & ->).
      exists (r :: b), a. repeat split; auto.
      constructor; auto. right. rewrite Hr. f_equal. now apply nonEmpty_false.
  - destruct (firstMatch I rules e) as [[r' m'] k'] eqn:Hrec.
    intros [= -> -> <-].
    destruct (IH k' eq_refl) as (b & a & -> & He & Hm & Hf & ->).
    exists (r :: b), a. repeat split; auto.
    constructor; auto. now left.
Qed.

Lemma firstMatch_None I rules e m k :
  firstMatch I rules e = (None, m, k) ->
  m = EmptyString /\ k = length rules /\ Forall (failsOn I e) rules.
Proof.
  revert k. induction rules as [|r rules IH]; intros k; simpl.
  - intros [= <- <-]. auto.
  - destruct (exec I r e) as [mr|] eqn:Hr.
    + destruct (JS.nonEmpty mr) eqn:Hne; [discriminate|].
      destruct (firstMatch I rules e) as [[r' m'] k'] eqn:Hrec.
      intros [= -> -> <-]. destruct (IH k' eq_refl) as (-> & -> & Hf).
      repeat split; auto. constructor; auto.
      right. rewrite Hr. f_equal. now apply nonEmpty_false.
    + destruct (firstMatch I rules e) as [[r' m'] k'] eqn:Hrec.
      intros [= -> -> <-]. destruct (IH k' eq_refl) as (-> & -> & Hf).
      repeat split; auto. constructor; auto. now left.
Qed.

(** The text of a token is a non-empty match of one of the rules. *)
Lemma found_token_text I expression previous rule m k :
  findXPathRuleForExpression I expression previous = (Some rule, m, k) ->
  exists t, exec I t expression = Some m /\ m <> EmptyString.
Proof.
  unfold findXPathRuleForExpression.
  destruct (firstMatch I (xPathTokenRules I) expression) as [[r m0] k0] eqn:Hfm.
  destruct r as [t|]; [|discriminate].
  destruct (firstMatch_Some _ _ _ _ _ _ Hfm) as (_ & _ & _ & He & Hm & _).
  intros Hres. exists t.
  assert (m0 = m) as <-
    by (destruct (isOperatorKeyword t && allowsName previous); congruence).
  auto.
Qed.

(** C3: a token matched as one of the operator keywords [div], [mod],
    [and], [or] is returned as the name token [TOK_QNAME] if and only if
    there is no previous token or the previous token is one of [@], [//],
    [/], [::], [$]; otherwise the keyword token itself is returned.  The
    matched text and the count of tried rules are those of the keyword in
    both cases. *)
Theorem keyword_demoted_iff I expression previous t m k :
  firstMatch I (xPathTokenRules I) expression = (Some t, m, k) ->
  In t [TOK_DIV; TOK_MOD; TOK_AND; TOK_OR] ->
  (findXPathRuleForExpression I expression previous = (Some TOK_QNAME, m, k)
   <-> nameContext previous)
  /\ (~ nameContext previous ->
      findXPathRuleForExpression I expression previous = (Some t, m, k)).
Proof.
  intros Hfm Hkw. unfold findXPathRuleForExpression. rewrite Hfm.
  assert (Hk : isOperatorKeyword t = true).
  { unfold isOperatorKeyword. simpl in Hkw.
    rewrite !orb_true_iff, !symbol_eqb_eq. intuition congruence. }
  assert (Hq : t <> TOK_QNAME).
  { simpl in Hkw. intuition congruence. }
  rewrite Hk. simpl. rewrite <- allowsName_spec.
  destruct (allowsName previous); split.
  - split; auto.
  - intros H; now elim H.
  - split; [intros [= ->]; now elim Hq | discriminate].
  - auto.
Qed.

(** The sample table returns [and] as a name at the start of an
    expression and after [::]. *)
Lemma keyword_demoted_iff_witness :
  ((findXPathRuleForExpression Sample.imports "and" None
      = (Some TOK_QNAME, "and", 16%nat)
    <-> nameContext None)
   /\ (~ nameContext None ->
       findXPathRuleForExpression Sample.imports "and" None
       = (Some TOK_AND, "and", 16%nat))).
Proof.
  apply (keyword_demoted_iff Sample.imports "and" None TOK_AND "and" 16).
  - reflexivity.
  - simpl. tauto.
Defined.

(** C7, as the specification states it, fails: in the sample table the
    keyword rule matches the two characters [or] of [or-1], and the name
    rule further down the table matches all four. *)
Lemma longest_match_counterexample : ~ selectsLongestMatch Sample.imports.
Proof.
  intros H.
  specialize (H "or-1" (Some (Frame TOK_NUMBER 35 (TokenExpr "1")))
                TOK_OR "or" 15%nat eq_refl TOK_QNAME "or-1").
  simpl in H. assert (4 <= 2)%nat; [|lia].
  apply H; [|reflexivity]. unfold Sample.sampleRules. simpl. tauto.
Qed.

Lemma firstMatch_all_fail I rules e :
  Forall (failsOn I e) rules ->
  firstMatch I rules e = (None, EmptyString, length rules).
Proof.
  induction 1 as [|t rules [Ht|Ht] _ IH]; simpl; [reflexivity| |];
    rewrite Ht, IH; reflexivity.
Qed.

(** The loop stops at the first rule whose match is not empty. *)
Lemma firstMatch_first I before t after e m :
  Forall (failsOn I e) before ->
  exec I t e = Some m -> m <> EmptyString ->
  firstMatch I (before ++ t :: after) e = (Some t, m, S (length before)).
Proof.
  intros Hf He Hm. induction Hf as [|r before [Hr|Hr] _ IH]; simpl.
  - rewrite He. apply nonEmpty_true in Hm. now rewrite Hm.
  - now rewrite Hr, IH.
  - now rewrite Hr, IH.
Qed.

Lemma failsOn_dec I e t : failsOn I e t \/ ~ failsOn I e t.
Proof.
  unfold failsOn. destruct (exec I t e) as [[|c m]|].
  - left. now right.
  - right. intros [H|H]; discriminate.
  - left. now left.
Qed.

(** A table with a rule that does not fail splits at its first such
    rule. *)
Lemma first_not_failing I e rules t :
  In t rules -> ~ failsOn I e t ->
  exists t' before after,
    rules = (before ++ t' :: after)%list
    /\ Forall (failsOn I e) before /\ ~ failsOn I e t'.
Proof.
  induction rules as [|r rules IH]; intros Hin Ht; [destruct Hin|].
  destruct (failsOn_dec I e r) as [Hr|Hr].
  - destruct Hin as [->|Hin]; [contradiction|].
    destruct (IH Hin Ht) as (t' & b & a & -> & Hb & Ht').
    exists t', (r :: b), a. split; [reflexivity|]. split; [|exact Ht'].
    now constructor.
  - exists r, [], rules. split; [reflexivity|]. split; [constructor|exact Hr].
Qed.

(** The token the lexer returns for the match of the rule [t]. *)
Lemma found_rule I expression previous t m k :
  firstMatch I (xPathTokenRules I) expression = (Some t, m, k) ->
  findXPathRuleForExpression I expression previous
  = (Some (if isOperatorKeyword t && allowsName previous then TOK_QNAME else t),
     m, k).
Proof.
  intros H. unfold findXPathRuleForExpression. rewrite H.
  now destruct (isOperatorKeyword t && allowsName previous).
Qed.

(** C7, amended: the lexer selects the first rule, in the order of the
    token table, whose anchored expression matches a non-empty prefix of
    the remaining input, whatever the length of the match: it returns a
    token exactly when some rule of the table has such a match, the
    token is that of the first such rule (an operator keyword in a name
    context is returned as [TOK_QNAME]), the text is the match of that
    rule, and every rule before it has been tried and has failed; it
    returns no token exactly when every rule of the table fails. *)
Theorem lexer_selects_first_match I expression previous :
  (forall rule m k,
     findXPathRuleForExpression I expression previous = (Some rule, m, k) <->
     exists t before after,
       xPathTokenRules I = (before ++ t :: after)%list
       /\ exec I t expression = Some m
       /\ m <> EmptyString
       /\ String.prefix m expression = true
       /\ Forall (failsOn I expression) before
       /\ k = S (length before)
       /\ rule = (if isOperatorKeyword t && allowsName previous
                  then TOK_QNAME else t))
  /\ (forall m k,
        findXPathRuleForExpression I expression previous = (None, m, k) <->
        Forall (failsOn I expression) (xPathTokenRules I)
        /\ m = EmptyString /\ k = length (xPathTokenRules I))
  /\ ((exists rule m k,
         findXPathRuleForExpression I expression previous = (Some rule, m, k))
      <-> exists t, In t (xPathTokenRules I) /\ ~ failsOn I expression t).
Proof.
  assert (Hsome : forall rule m k,
    findXPathRuleForExpression I expression previous = (Some rule, m, k) <->
    exists t before after,
      xPathTokenRules I = (before ++ t :: after)%list
      /\ exec I t expression = Some m
      /\ m <> EmptyString
      /\ String.prefix m expression = true
      /\ Forall (failsOn I expression) before
      /\ k = S (length before)
      /\ rule = (if isOperatorKeyword t && allowsName previous
                 then TOK_QNAME else t)).
  { intros rule m k. split.
    - unfold findXPathRuleForExpression.
      destruct (firstMatch I (xPathTokenRules I) expression) as [[r m0] k0] eqn:Hfm.
      destruct r as [t|]; [|discriminate].
      intros Hres.
      destruct (firstMatch_Some _ _ _ _ _ _ Hfm) as (b & a & Hsplit & He & Hm & Hf & Hk).
      assert (m0 = m /\ k0 = k /\
              rule = if isOperatorKeyword t && allowsName previous then TOK_QNAME else t)
        as (<- & <- & ->).
      { destruct (isOperatorKeyword t && allowsName previous);
          injection Hres; intros; subst; auto. }
      exists t, b, a. repeat split; auto.
      eapply exec_prefix; eauto.
    - intros (t & b & a & Hsplit & He & Hm & _ & Hf & -> & ->).
      apply found_rule. rewrite Hsplit. now apply firstMatch_first. }
  split; [exact Hsome|]. split.
  - intros m k. split.
    + unfold findXPathRuleForExpression.
      destruct (firstMatch I (xPathTokenRules I) expression) as [[r m0] k0] eqn:Hfm.
      destruct r as [t|].
      * destruct (isOperatorKeyword t && allowsName previous); discriminate.
      * intros [= <- <-]. apply firstMatch_None in Hfm. tauto.
    + intros (Hf & -> & ->). unfold findXPathRuleForExpression.
      now rewrite (firstMatch_all_fail _ _ _ Hf).
  - split.
    + intros (rule & m & k & H). apply Hsome in H.
      destruct H as (t & b & a & Hsplit & He & Hm & _).
      exists t. split.
      * rewrite Hsplit. apply in_or_app. right. now left.
      * intros [H|H]; congruence.
    + intros (t & Hin & Ht).
      destruct (first_not_failing I expression _ t Hin Ht)
        as (t' & b & a & Hsplit & Hb & Ht').
      destruct (exec I t' expression) as [m|] eqn:He.
      * exists (if isOperatorKeyword t' && allowsName previous then TOK_QNAME else t'),
          m, (S (length b)).
        apply found_rule. rewrite Hsplit. apply firstMatch_first; auto.
        intros ->. apply Ht'. now right.
      * elim Ht'. now left.
Qed.

Lemma lexer_selects_first_match_witness :
  findXPathRuleForExpression Sample.imports "or-1"
    (Some (Frame TOK_NUMBER 35 (TokenExpr "1")))
  = (Some TOK_OR, "or", 15%nat)
  /\ exists t before after,
       xPathTokenRules Sample.imports = (before ++ t :: after)%list
       /\ exec Sample.imports t "or-1" = Some "or"
       /\ "or" <> EmptyString
       /\ String.prefix "or" "or-1" = true
       /\ Forall (failsOn Sample.imports "or-1") before
       /\ 15%nat = S (length before)
       /\ TOK_OR = (if isOperatorKeyword t
                       && allowsName (Some (Frame TOK_NUMBER 35 (TokenExpr "1")))
                    then TOK_QNAME else t).
Proof.
  split; [reflexivity|].
  apply (proj1 (lexer_selects_first_match Sample.imports "or-1"
                  (Some (Frame TOK_NUMBER 35 (TokenExpr "1"))))).
  reflexivity.
Defined.

(** ** [xPathReduce] *)

Lemma reduces_spec I c ahead : reduces I c ahead = true <-> reducesSpec I c ahead.
Proof.
  unfold reduces, reducesSpec. destruct ahead as [a|].
  - rewrite orb_true_iff, andb_true_iff, Z.ltb_lt, Z.leb_le. split.
    + intros H. right. exists a. split; [reflexivity | exact H].
    + intros [H|(b & [= <-] & H)]; [discriminate | exact H].
  - split; auto.
Qed.

Lemma findGrammarRuleCandidate_Some I ruleset stack c :
  findGrammarRuleCandidate I ruleset stack = Some c ->
  exists before after,
    ruleset = (before ++ c_rule c :: after)%list
    /\ Forall (fun r => ~ ruleMatches stack r) before
    /\ xPathMatchStack stack (r_pattern (c_rule c)) = Some (c_match c, c_matchlength c)
    /\ c_match c <> []
    /\ c_prec c = xPathGrammarPrecedence I (c_rule c).
Proof.
  induction ruleset as [|r rs IH]; simpl; [discriminate|].
  destruct (xPathMatchStack stack (r_pattern r)) as [[[|m ms] ml]|] eqn:Hm.
  - intros H. destruct (IH H) as (b & a & -> & Hb & Hc).
    exists (r :: b), a. split; [reflexivity|]. split; [|exact Hc].
    constructor; auto. intros (m' & ms' & ml' & H'). congruence.
  - intros [= <-]. exists [], rs. simpl. repeat split; auto; discriminate.
  - intros H. destruct (IH H) as (b & a & -> & Hb & Hc).
    exists (r :: b), a. split; [reflexivity|]. split; [|exact Hc].
    constructor; auto. intros (m' & ms' & ml' & H'). congruence.
Qed.

Lemma findGrammarRuleCandidate_None I ruleset stack :
  findGrammarRuleCandidate I ruleset stack = None <->
  Forall (fun r => ~ ruleMatches stack r) ruleset.
Proof.
  induction ruleset as [|r rs IH]; simpl.
  - split; auto.
  - destruct (xPathMatchStack stack (r_pattern r)) as [[[|m ms] ml]|] eqn:Hm.
    + rewrite IH. split.
      * intros H. constructor; auto. intros (m' & ms' & ml' & H'). congruence.
      * intros H. now inversion H.
    + split; [discriminate|]. intros H. inversion H as [|? ? Hr _]; subst.
      elim Hr. now exists m, ms, ml.
    + rewrite IH. split.
      * intros H. constructor; auto. intros (m' & ms' & ml' & H'). congruence.
      * intros H. now inversion H.
Qed.

(** A candidate exists exactly when a rule of the bin of the top symbol
    matches the stack; the candidate is the first such rule of the bin. *)
Lemma stackCandidate_exists I stack :
  (exists c, stackCandidate I stack = Some c) <->
  exists top r, last stack = Some top
    /\ In r (xPathRules I (key I (f_tag top))) /\ ruleMatches stack r.
Proof.
  unfold stackCandidate. destruct (last stack) as [top|].
  - split.
    + intros [c Hc].
      destruct (findGrammarRuleCandidate_Some _ _ _ _ Hc) as (b & a & Hs & _ & Hm & Hne & _).
      exists top, (c_rule c). split; [reflexivity|]. split.
      * rewrite Hs. apply in_or_app. right. now left.
      * destruct (c_match c) as [|m ms]; [congruence|]. now exists m, ms, (c_matchlength c).
    + intros (top' & r & [= <-] & Hin & Hr).
      destruct (findGrammarRuleCandidate I _ stack) as [c|] eqn:Hc; [now exists c|].
      rewrite findGrammarRuleCandidate_None in Hc.
      rewrite List.Forall_forall in Hc. now elim (Hc r Hin).
  - split; [intros [c Hc]; discriminate | intros (top & r & H & _); discriminate].
Qed.

(** A reduction replaces the frames of its candidate by one frame. *)
Lemma reduce_true_inv I stack ahead stack' :
  xPathReduce I stack ahead = Ok (true, stack') ->
  exists c e, stackCandidate I stack = Some c
    /\ stack' = (popN (c_matchlength c) stack ++ [reducedFrame c e])%list.
Proof.
  unfold xPathReduce, reducedFrame.
  destruct (stackCandidate I stack) as [c|]; [|discriminate].
  destruct (reduces I c ahead); [|discriminate].
  destruct (applyFactory I (r_factory (c_rule c)) (map itemExpr (c_match c)))
    as [e|x|]; simpl; try discriminate.
  intros [= <-]. now exists c, e.
Qed.

(** The three outcomes of [xPathReduce] in terms of the candidate it
    computes. *)
Lemma xPathReduce_cases I stack ahead :
  (forall stack',
     xPathReduce I stack ahead = Ok (true, stack') <->
     exists c e, stackCandidate I stack = Some c /\ reducesSpec I c ahead
       /\ candidateExpr I c = Ok e
       /\ stack' = (popN (c_matchlength c) stack ++ [reducedFrame c e])%list)
  /\ (forall x,
        xPathReduce I stack ahead = Throw x <->
        exists c, stackCandidate I stack = Some c /\ reducesSpec I c ahead
          /\ candidateExpr I c = Throw x)
  /\ (forall stack',
        xPathReduce I stack ahead = Ok (false, stack') <->
        ~ (exists c, stackCandidate I stack = Some c /\ reducesSpec I c ahead)
        /\ stack' = match ahead with
                    | Some a => (stack ++ [a])%list
                    | None => stack
                    end).
Proof.
  unfold xPathReduce, candidateExpr, reducedFrame.
  destruct (stackCandidate I stack) as [c|] eqn:Hc.
  - destruct (reduces I c ahead) eqn:Hr.
    + assert (Hs : reducesSpec I c ahead) by now apply reduces_spec.
      destruct (applyFactory I (r_factory (c_rule c)) (map itemExpr (c_match c)))
        as [e|x|] eqn:Hf; simpl.
      * split; [|split]; intros y; split.
        -- intros [= <-]. exists c, e. auto.
        -- intros (c' & e' & [= <-] & _ & He & ->). congruence.
        -- discriminate.
        -- intros (c' & [= <-] & _ & He). congruence.
        -- discriminate.
        -- intros [Hn _]. elim Hn. now exists c.
      * split; [|split]; intros y; split.
        -- discriminate.
        -- intros (c' & e' & [= <-] & _ & He & _). congruence.
        -- intros [= <-]. now exists c.
        -- intros (c' & [= <-] & _ & He). congruence.
        -- discriminate.
        -- intros [Hn _]. elim Hn. now exists c.
      * split; [|split]; intros y; split.
        -- discriminate.
        -- intros (c' & e' & [= <-] & _ & He & _). congruence.
        -- discriminate.
        -- intros (c' & [= <-] & _ & He). congruence.
        -- discriminate.
        -- intros [Hn _]. elim Hn. now exists c.
    + assert (Hs : ~ reducesSpec I c ahead).
      { rewrite <- reduces_spec. congruence. }
      split; [|split]; intros y; split.
      * discriminate.
      * intros (c' & e' & [= <-] & Hs' & _). now elim Hs.
      * discriminate.
      * intros (c' & [= <-] & Hs' & _). now elim Hs.
      * intros [= <-]. split; [|reflexivity].
        intros (c' & [= <-] & Hs'). now elim Hs.
      * intros [_ ->]. reflexivity.
  - split; [|split]; intros y; split.
    + discriminate.
    + intros (c' & e' & [=] & _).
    + discriminate.
    + intros (c' & [=] & _).
    + intros [= <-]. split; [|reflexivity]. intros (c' & [=] & _).
    + intros [_ ->]. reflexivity.
Qed.

(** ** Termination of the reduction loop *)

Lemma stackWeight_app a b :
  stackWeight (a ++ b) = (stackWeight a + stackWeight b)%nat.
Proof.
  unfold stackWeight. induction a as [|f a IH]; simpl; [reflexivity|].
  rewrite IH. lia.
Qed.

Lemma stackWeight_rev a : stackWeight (rev a) = stackWeight a.
Proof.
  induction a as [|f a IH]; simpl; [reflexivity|].
  rewrite stackWeight_app, IH. unfold stackWeight. simpl. lia.
Qed.

Lemma spanTag_split x limit rs taken rest :
  spanTag x limit rs = (taken, rest) ->
  rs = (taken ++ rest)%list /\ Forall (fun f => f_tag f = x) taken.
Proof.
  revert rs taken rest. induction limit as [|k IH]; intros rs taken rest.
  - destruct rs; simpl; intros [= <- <-]; auto.
  - destruct rs as [|f rs]; simpl; [intros [= <- <-]; auto|].
    destruct (symbol_eqb (f_tag f) x) eqn:Hx; [|intros [= <- <-]; auto].
    destruct (spanTag x k rs) as [a b] eqn:Hs. intros [= <- <-].
    destruct (IH _ _ _ Hs) as [-> Ha]. split; [reflexivity|].
    constructor; auto. now apply symbol_eqb_eq.
Qed.

Lemma isQuantifier_false q :
  symbol_eqb q Q_MM = false -> symbol_eqb q Q_01 = false ->
  symbol_eqb q Q_1M = false -> isQuantifier q = false.
Proof. unfold isQuantifier. now intros -> -> ->. Qed.

(** A match takes frames from the top of the stack, and they weigh at
    least what the mandatory symbols of the pattern weigh. *)
Lemma matchRev_weight n :
  forall rp, (length rp <= n)%nat ->
  forall rs acc ml m k,
    matchRev rp rs acc ml = Some (m, k) ->
    exists j, k = (ml + j)%nat /\ (j <= length rs)%nat
      /\ (mandatoryWeight rp <= stackWeight (take j rs))%nat.
Proof.
  induction n as [|n IH]; intros rp Hlen rs acc ml m k.
  - destruct rp; [|simpl in Hlen; lia]. simpl. intros [= <- <-].
    exists 0%nat. simpl. repeat split; lia.
  - destruct rp as [|q rp]; cbn [matchRev mandatoryWeight].
    { intros [= <- <-]. exists 0%nat. simpl. repeat split; lia. }
    destruct rs as [|f rs]; [discriminate|].
    assert (Hquant : forall limit x rp'',
      rp = x :: rp'' ->
      (let '(taken, rest) := spanTag x limit (f :: rs) in
       matchRev rp'' rest (MQuant (rev taken) :: acc) (ml + length taken))
      = Some (m, k) ->
      exists j, k = (ml + j)%nat /\ (j <= length (f :: rs))%nat
        /\ (mandatoryWeight rp'' <= stackWeight (take j (f :: rs)))%nat).
    { intros limit x rp'' -> Hm.
      destruct (spanTag x limit (f :: rs)) as [taken rest] eqn:Hs.
      destruct (spanTag_split _ _ _ _ _ Hs) as [Hsplit _].
      apply IH in Hm; [|simpl in Hlen; lia].
      destruct Hm as (j & -> & Hj & Hw).
      exists (length taken + j)%nat. rewrite Hsplit.
      rewrite length_app. repeat split; try lia.
      rewrite take_app_add'; [|reflexivity].
      rewrite stackWeight_app. lia. }
    destruct (symbol_eqb q Q_MM) eqn:HMM.
    { unfold isQuantifier. rewrite HMM. cbn [orb].
      destruct rp as [|x rp'']; [discriminate|]. now apply Hquant. }
    destruct (symbol_eqb q Q_01) eqn:H01.
    { unfold isQuantifier. rewrite HMM, H01. cbn [orb].
      destruct rp as [|x rp'']; [discriminate|]. now apply Hquant. }
    destruct (symbol_eqb q Q_1M) eqn:H1M.
    { unfold isQuantifier. rewrite HMM, H01, H1M. cbn [orb].
      destruct rp as [|x rp'']; [discriminate|].
      destruct (symbol_eqb (f_tag f) x); [|discriminate]. now apply Hquant. }
    rewrite (isQuantifier_false q HMM H01 H1M).
    destruct (symbol_eqb (f_tag f) q) eqn:Hq; [|discriminate].
    apply symbol_eqb_eq in Hq. intros Hm.
    apply IH in Hm; [|simpl in Hlen; lia].
    destruct Hm as (j & -> & Hj & Hw).
    exists (S j). simpl. repeat split; try lia.
    change (stackWeight (f :: take j rs)) with (weight (f_tag f) + stackWeight (take j rs))%nat.
    rewrite Hq. lia.
Qed.

Lemma xPathMatchStack_weight stack pattern m k :
  xPathMatchStack stack pattern = Some (m, k) ->
  (k <= length stack)%nat
  /\ (mandatoryWeight (rev pattern)
      <= stackWeight (drop (length stack - k) stack))%nat.
Proof.
  unfold xPathMatchStack. intros H.
  apply (matchRev_weight _ _ (le_n _)) in H.
  destruct H as (j & -> & Hj & Hw). rewrite length_rev in Hj.
  split; [lia|]. simpl.
  rewrite firstn_rev, stackWeight_rev in Hw. exact Hw.
Qed.

Lemma xPathRules_sorted I k r :
  In r (xPathRules I k) -> In r sortedGrammarRules.
Proof.
  unfold xPathRules. rewrite in_flat_map. intros (x & Hx & Hr).
  apply in_map_iff in Hr. destruct Hr as (_ & <- & _). exact Hx.
Qed.

(** Every rule of the grammar lowers the weight of the stack. *)
Lemma grammar_lowers_weight r :
  In r sortedGrammarRules -> lowersWeight r = true.
Proof.
  revert r. apply forallb_forall. vm_compute. reflexivity.
Qed.

Lemma stackCandidate_lowers I stack c :
  stackCandidate I stack = Some c ->
  (c_matchlength c <= length stack)%nat
  /\ (weight (r_target (c_rule c))
      < stackWeight (drop (length stack - c_matchlength c) stack))%nat.
Proof.
  unfold stackCandidate. destruct (last stack) as [top|]; [|discriminate].
  intros H.
  destruct (findGrammarRuleCandidate_Some _ _ _ _ H) as (b & a & Hs & _ & Hm & _).
  apply xPathMatchStack_weight in Hm. destruct Hm as [Hk Hw]. split; [exact Hk|].
  assert (Hin : In (c_rule c) sortedGrammarRules).
  { apply (xPathRules_sorted I (key I (f_tag top))). rewrite Hs.
    apply in_or_app. right. now left. }
  apply grammar_lowers_weight in Hin. unfold lowersWeight in Hin.
  apply Nat.ltb_lt in Hin. lia.
Qed.

(** A reduction leaves a lighter stack. *)
Lemma reduce_lowers_weight I stack ahead stack' :
  xPathReduce I stack ahead = Ok (true, stack') ->
  (stackWeight stack' < stackWeight stack)%nat.
Proof.
  intros H. apply reduce_true_inv in H.
  destruct H as (c & e & Hc & ->).
  apply stackCandidate_lowers in Hc. destruct Hc as [Hk Hw].
  unfold popN. rewrite stackWeight_app.
  rewrite <- (take_drop (length stack - c_matchlength c) stack) at 3.
  rewrite stackWeight_app. unfold reducedFrame, stackWeight at 2. simpl. lia.
Qed.

Lemma valueOf_ends e : ends (valueOf e).
Proof. destruct e; discriminate. Qed.

Lemma bind_ends {A B} (x : outcome A) (f : A -> outcome B) :
  ends x -> (forall a, ends (f a)) -> ends (x ≫= f).
Proof.
  unfold ends. intros Hx Hf.
  destruct x; cbn; [apply Hf | discriminate | congruence].
Qed.

Lemma applyFactory_ends I f a : ends (applyFactory I f a).
Proof.
  destruct f; simpl;
    unfold passExpr, makeLocationExpr1, makeLocationExpr2, makeLocationExpr3,
      makeLocationExpr4, makeLocationExpr5, makeLocationExpr6,
      makeLocationExpr7, makeStepExpr1, makeStepExpr2, makeStepExpr3,
      makeStepExpr4, makeStepExpr5, makeStepExpr6, makeNodeTestExpr1,
      makeNodeTestExpr2, makeNodeTestExpr3, makeNodeTestExpr4,
      makeNodeTestExpr5, makePredicateExpr, makePrimaryExpr,
      makeFunctionCallExpr1, makeFunctionCallExpr2, makeArgumentExpr,
      makeUnionExpr, makePathExpr1, makePathExpr2, makeFilterExpr,
      makeUnaryMinusExpr, makeBinaryExpr, makeLiteralExpr, makeNumberExpr,
      makeVariableReference, setAbsolute, appendStep, prependStep,
      appendPredicate, illTyped;
    repeat first
      [ discriminate
      | apply bind_ends; [try apply valueOf_ends | intros ?]
      | match goal with
        | |- ends (match ?x with _ => _ end) => destruct x
        | |- ends (if ?x then _ else _) => destruct x
        end ].
Qed.

Lemma xPathReduce_ends I stack ahead : ends (xPathReduce I stack ahead).
Proof.
  unfold xPathReduce. destruct (stackCandidate I stack) as [c|]; [|discriminate].
  destruct (reduces I c ahead); [|discriminate].
  apply bind_ends; [apply applyFactory_ends | discriminate].
Qed.

(** Fuel above the weight of the stack is enough for the reduction
    loop. *)
Lemma reduceLoop_ends I ahead fuel :
  forall stack, (stackWeight stack < fuel)%nat ->
    ends (reduceLoop fuel I stack ahead).
Proof.
  induction fuel as [|fuel IH]; intros stack Hw; [lia|]. simpl.
  destruct (xPathReduce I stack ahead) as [[[|] stack']|x|] eqn:Hr.
  - apply IH. apply reduce_lowers_weight in Hr. lia.
  - discriminate.
  - discriminate.
  - now elim (xPathReduce_ends I stack ahead).
Qed.

Lemma reduceAll_ends I stack ahead : ends (reduceAll I stack ahead).
Proof. apply reduceLoop_ends. lia. Qed.

(** ** Termination of the parse loop *)

Lemma length_trimStart s : (String.length (JS.trimStart s) <= String.length s)%nat.
Proof.
  induction s as [|c s IH]; simpl; [lia|].
  destruct (JS.isSpace c); simpl; lia.
Qed.

Lemma length_substr n s : String.length (JS.substr n s) = (String.length s - n)%nat.
Proof.
  revert s. induction n as [|n IH]; intros [|c s]; simpl; auto.
Qed.

(** A token consumes at least one character of the input. *)
Lemma token_consumes I expression previous rule m k :
  findXPathRuleForExpression I expression previous = (Some rule, m, k) ->
  (String.length (JS.substr (String.length m) expression)
   < String.length expression)%nat.
Proof.
  intros H. apply found_token_text in H.
  destruct H as (t & He & Hm).
  unfold exec in He. destruct (re I t expression) as [n|]; [|discriminate].
  injection He as <-. rewrite length_substr.
  pose proof (length_substring_le n expression).
  destruct (String.substring 0 n expression) eqn:Hs; [congruence|].
  simpl in *. lia.
Qed.

(** Fuel above the length of the input is enough for the parse loop. *)
Lemma parseLoop_ends I fuel :
  forall expression stack ahead n,
    (String.length expression < fuel)%nat ->
    ends (fst (parseLoop fuel I expression stack ahead n)).
Proof.
  induction fuel as [|fuel IH]; intros expression stack ahead n Hlen; [lia|].
  cbn [parseLoop].
  destruct (findXPathRuleForExpression I (JS.trimStart expression) ahead)
    as [[[t|] m] k] eqn:Hf.
  - pose proof (token_consumes _ _ _ _ _ _ Hf) as Hc.
    pose proof (length_trimStart expression) as Ht.
    destruct (reduceAll I stack _) as [stack'|x|] eqn:Hr.
    + apply IH. lia.
    + discriminate.
    + now elim (reduceAll_ends I stack
                  (Some (Frame t (aheadPrec I t) (makeTokenExpr m)))).
  - simpl. apply reduceAll_ends.
Qed.

Lemma parseStack_ends I expression : ends (fst (parseStack I expression)).
Proof. apply parseLoop_ends. lia. Qed.



(** ** [stackToString] *)

Lemma append_assoc (a b c : string) : (a ++ b) ++ c = a ++ (b ++ c).
Proof.
  induction a as [|x a IH]; [reflexivity|].
  change (String x ((a ++ b) ++ c) = String x (a ++ (b ++ c))). now f_equal.
Qed.

Lemma nonEmpty_append_r a b : JS.nonEmpty b = true -> JS.nonEmpty (a ++ b) = true.
Proof. destruct a; simpl; auto. Qed.

Lemma concat_cons_cons sep a b rest :
  String.concat sep (a :: b :: rest) = a ++ sep ++ String.concat sep (b :: rest).
Proof. reflexivity. Qed.

Lemma stackToString_from I stack acc :
  (forall t, label I t <> EmptyString) ->
  JS.nonEmpty acc = true ->
  fold_left
    (fun ret f =>
       (if JS.nonEmpty ret then ret ++ newline else ret) ++ label I (f_tag f))
    stack acc
  = String.concat newline (acc :: stackLabels I stack).
Proof.
  intros Hl. revert acc. induction stack as [|f stack IH]; intros acc Hacc.
  - reflexivity.
  - cbn [fold_left stackLabels map]. rewrite Hacc. rewrite IH.
    + fold (stackLabels I stack).
      rewrite (concat_cons_cons newline acc).
      destruct (stackLabels I stack) as [|c r].
      * cbn [String.concat]. apply append_assoc.
      * rewrite !concat_cons_cons. now rewrite !append_assoc.
    + apply nonEmpty_append_r. apply nonEmpty_true. apply Hl.
Qed.

(** With labels that are not empty, [stackToString] joins the labels of
    the frames by line breaks. *)
Lemma stackToString_concat I stack :
  (forall t, label I t <> EmptyString) ->
  stackToString I stack = String.concat newline (stackLabels I stack).
Proof.
  intros Hl. unfold stackToString. destruct stack as [|f stack]; [reflexivity|].
  cbn [fold_left]. cbn [JS.nonEmpty]. cbn [append].
  apply stackToString_from; [exact Hl|]. apply nonEmpty_true. apply Hl.
Qed.

(** ** [xPathParse] *)

(** C1: for an expression that no shortcut handles, the parse loop ends,
    and when it ends with a stack: a stack of exactly one frame makes
    [xPathParse] return the expression of that frame (with the axis of its
    first step overridden when an axis is passed); any other stack makes
    it throw the text [XPath parse error ], the original expression, a
    colon and a line break, and the labels of the residual frames joined
    by line breaks, and nothing is returned or cached.  What a factory
    function raises inside the loop is raised unchanged, and nothing is
    cached then either. *)
Theorem xPathParse_result I expression axis this :
  (forall t, label I t <> EmptyString) ->
  JS.matchesSimple expression = false ->
  JS.matchesChain expression = false ->
  ends (fst (parseStack I expression))
  /\ (forall stack, fst (parseStack I expression) = Ok stack ->
        (forall f, stack = [f] ->
           fst (xPathParse I expression axis this)
           = overrideAxis axis expression (f_expr f)
           /\ fst (xPathParse I expression None this) = Ok (f_expr f))
        /\ (length stack <> 1%nat ->
            fst (xPathParse I expression axis this)
            = Throw (ParseError (parseErrorSpec I expression stack))
            /\ xPathParseCache (snd (xPathParse I expression axis this))
               = xPathParseCache this))
  /\ (forall x, fst (parseStack I expression) = Throw x ->
        fst (xPathParse I expression axis this) = Throw x
        /\ xPathParseCache (snd (xPathParse I expression axis this))
           = xPathParseCache this).
Proof.
  intros Hl Hs Hc. split; [apply parseStack_ends|].
  unfold xPathParse. rewrite Hs, Hc.
  destruct (parseStack I expression) as [r n]. simpl. split.
  - intros stack ->. split.
    + intros f ->. split.
      * destruct (overrideAxis axis expression (f_expr f)); reflexivity.
      * reflexivity.
    + intros Hlen. unfold parseErrorSpec, parseErrorText.
      rewrite (stackToString_concat I stack Hl).
      destruct stack as [|f [|g stack]]; simpl in *; try lia; auto.
  - intros x ->. auto.
Qed.

Lemma xPathParse_result_witness :
  fst (xPathParse Sample.imports "a b" None Sample.fresh)
  = Throw (ParseError
             ("XPath parse error a b:" ++ newline ++ "Expr" ++ newline ++ "Expr"))
  /\ xPathParseCache (snd (xPathParse Sample.imports "a b" None Sample.fresh))
     = xPathParseCache Sample.fresh.
Proof.
  assert (Hl : forall t, label Sample.imports t <> EmptyString)
    by (intros t; destruct t; discriminate).
  destruct (xPathParse_result Sample.imports "a b" None Sample.fresh
              Hl eq_refl eq_refl) as (_ & H & _).
  destruct (H (match fst (parseStack Sample.imports "a b") with
               | Ok s => s
               | _ => []
               end) eq_refl) as (_ & H2).
  apply H2. vm_compute. lia.
Defined.

Lemma lexerCount_setCache this k e n : lexerCount (setCache this k e n) = n.
Proof. unfold setCache. now destruct (String.eqb k "__proto__"). Qed.





(** After a parse of [__proto__] with an empty cache, the cache has no
    entry, and the lookup of every other key goes to the expression: the
    key [steps] reads the steps of the location path. *)
Example proto_replaces_prototype :
  xPathParseCache (snd (xPathParse Sample.imports "__proto__" None Sample.fresh))
  = xPathParseCache Sample.fresh
  /\ xPathCacheLookup (snd (xPathParse Sample.imports "__proto__" None Sample.fresh))
       "steps"
     = Inherited
         (Some (LocationExpr false
                  [StepExpr "child" (NodeTestName "__proto__") [] false]))
         "steps"
  /\ xPathCacheLookup Sample.fresh "steps" = Inherited None "steps".
Proof. repeat split. Qed.

(** ** The shortcuts *)

Lemma isDigit_isWord c : JS.isDigit c = true -> JS.isWord c = true.
Proof. unfold JS.isDigit, JS.isWord. intros ->. reflexivity. Qed.

Lemma isDigit_not_sigil c :
  JS.isDigit c = true -> Ascii.eqb c "$" = false /\ Ascii.eqb c "@" = false.
Proof.
  destruct c as [[] [] [] [] [] [] [] []]; vm_compute; intros H;
    first [discriminate H | split; reflexivity].
Qed.

Lemma forallb_string_impl (p q : ascii -> bool) s :
  (forall c, p c = true -> q c = true) ->
  JS.forallb_string p s = true -> JS.forallb_string q s = true.
Proof.
  intros Hpq. induction s as [|c s IH]; simpl; [auto|].
  rewrite !andb_true_iff. intros [Hc Hs]. auto.
Qed.

Lemma matchesDigits_simple e :
  JS.matchesDigits e = true ->
  JS.matchesSimple e = true
  /\ JS.charAt0_is "$" e = false /\ JS.charAt0_is "@" e = false.
Proof.
  unfold JS.matchesDigits, JS.matchesSimple, JS.wordPlus.
  rewrite andb_true_iff. intros [Hne Hd]. split.
  - rewrite Hne. rewrite (forallb_string_impl _ _ _ isDigit_isWord Hd). reflexivity.
  - destruct e as [|c e]; [discriminate|]. simpl in *.
    apply andb_true_iff in Hd. destruct Hd as [Hc _].
    now apply isDigit_not_sigil.
Qed.

Lemma dollar_not_chain e :
  JS.charAt0_is "$" e = true -> JS.matchesChain e = false.
Proof.
  destruct e as [|c e]; simpl; [discriminate|].
  intros H. apply Ascii.eqb_eq in H. subst c. reflexivity.
Qed.

Lemma makeSimpleExpr2_location e : isNameTestLocation (makeSimpleExpr2 e) = true.
Proof.
  unfold makeSimpleExpr2, isNameTestLocation.
  induction (JS.split "/" e) as [|s l IH]; simpl; auto.
Qed.

(** C6, as the specification states it, fails: the shortcut turns the
    variable reference [$x] into a variable expression, which is not a
    location path. *)
Lemma shortcut_counterexample : ~ shortcutsBuildLocations Sample.imports.
Proof.
  intros H.
  destruct (H "$x" None Sample.fresh (or_introl eq_refl)) as (e & He & Hloc).
  vm_compute in He. injection He as <-. discriminate Hloc.
Qed.

(** C6, amended: an input of one of the textual patterns is answered
    without the shift/reduce parser: the value depends on the text and the
    axis alone, and the count of the lexer is not touched.  The value is a
    variable expression for [$name], a number expression for digits, and
    a location path of plain name-test steps for a name, an attribute or
    a chain of names separated by [/]. *)
Theorem shortcuts_bypass_parser I expression axis this :
  JS.matchesSimple expression = true \/ JS.matchesChain expression = true ->
  xPathParse I expression axis this
  = (Ok (shortcut expression axis),
     setCache this expression (shortcut expression axis) (lexerCount this))
  /\ (JS.charAt0_is "$" expression = true ->
      shortcut expression axis = VariableExpr (JS.substr 1 expression))
  /\ (JS.matchesDigits expression = true ->
      shortcut expression axis = NumberExpr expression)
  /\ (JS.charAt0_is "$" expression = false ->
      JS.matchesDigits expression = false ->
      isNameTestLocation (shortcut expression axis) = true).
Proof.
  intros Hfast. unfold xPathParse, shortcut.
  destruct (JS.matchesSimple expression) eqn:Hs.
  - split; [reflexivity|]. unfold makeSimpleExpr. split; [|split].
    + now intros ->.
    + intros Hd. destruct (matchesDigits_simple _ Hd) as (_ & -> & ->).
      now rewrite Hd.
    + intros -> ->. now destruct (JS.charAt0_is "@" expression).
  - destruct Hfast as [Hf|Hf]; [discriminate|]. rewrite Hf.
    split; [reflexivity|]. split; [|split].
    + intros Hd. apply dollar_not_chain in Hd. congruence.
    + intros Hd. destruct (matchesDigits_simple _ Hd) as (Hd' & _). congruence.
    + intros _ _. apply makeSimpleExpr2_location.
Qed.

Lemma shortcuts_bypass_parser_witness :
  xPathParse Sample.imports "page/locations" None Sample.fresh
  = (Ok (shortcut "page/locations" None),
     setCache Sample.fresh "page/locations" (shortcut "page/locations" None)
       (lexerCount Sample.fresh))
  /\ (JS.charAt0_is "$" "page/locations" = true ->
      shortcut "page/locations" None = VariableExpr (JS.substr 1 "page/locations"))
  /\ (JS.matchesDigits "page/locations" = true ->
      shortcut "page/locations" None = NumberExpr "page/locations")
  /\ (JS.charAt0_is "$" "page/locations" = false ->
      JS.matchesDigits "page/locations" = false ->
      isNameTestLocation (shortcut "page/locations" None) = true).
Proof.
  apply (shortcuts_bypass_parser Sample.imports "page/locations" None Sample.fresh).
  right. reflexivity.
Defined.

(** The values of the shortcuts on the examples of the source: [@id],
    [page], [$address], [4] and [page/overlay]. *)
Example shortcut_examples :
  shortcut "@id" None
  = LocationExpr false [StepExpr "attribute" (NodeTestName "id") [] false]
  /\ shortcut "page" None
     = LocationExpr false [StepExpr "child" (NodeTestName "page") [] false]
  /\ shortcut "$address" None = VariableExpr "address"
  /\ shortcut "4" None = NumberExpr "4"
  /\ shortcut "page/overlay" None
     = LocationExpr false
         [StepExpr "child" (NodeTestName "page") [] false;
          StepExpr "child" (NodeTestName "overlay") [] false].
Proof. repeat split. Qed.

(** ** [xPathStep] *)

Lemma xPathStepFrom_unfold {N} (E : Evaluator N) ax nt ps hp rest nodes input context :
  xPathStepFrom E (StepExpr ax nt ps hp :: rest) nodes input context
  = if returnOnFirstMatch context && negb hp then
      visitFirst
        (fun i =>
           forallb
             (fun p =>
                predicateHolds E p
                  (clone context
                     (StepExpr_evaluate E (StepExpr ax nt ps hp)
                        (clone context [input] 0)) i)) ps)
        (visitNext E rest context) 0
        (StepExpr_evaluate E (StepExpr ax nt ps hp) (clone context [input] 0))
        nodes
    else
      visitAll (visitNext E rest context)
        (selected E (StepExpr ax nt ps hp) input) nodes.
Proof. destruct rest; reflexivity. Qed.

Lemma visitAll_ext {N} (v w : list N -> N -> outcome (list N)) l nodes :
  (forall ns n, v ns n = w ns n) -> visitAll v l nodes = visitAll w l nodes.
Proof.
  intros H. revert nodes. induction l as [|n l IH]; intros nodes; simpl; auto.
  rewrite H. destruct (w nodes n); auto.
Qed.

(** With positional steps only, the flag changes nothing. *)
Lemma positional_path_unchanged {N} (E : Evaluator N) steps :
  forallb isPositionalStep steps = true ->
  forall nodes input nl pos,
    xPathStepFrom E steps nodes input (Context nl pos true)
    = xPathStepFrom E steps nodes input (Context nl pos false).
Proof.
  induction steps as [|s rest IH]; intros Hall nodes input nl pos; [reflexivity|].
  simpl in Hall. apply andb_true_iff in Hall. destruct Hall as [Hs Hrest].
  destruct s; try discriminate. simpl in Hs. subst.
  rewrite !xPathStepFrom_unfold. cbn [returnOnFirstMatch negb andb].
  apply visitAll_ext. intros ns n. unfold visitNext.
  destruct rest; [reflexivity|]. now apply IH.
Qed.

(** C4, as the specification states it, fails: in [//a[1]] the second
    step is positional, and the first step still returns at the first
    match: the flag gives one node where the full evaluation gives two. *)
Lemma positional_counterexample : ~ positionalDisablesShortcut SampleDom.evaluator.
Proof.
  intros H.
  specialize (H [StepExpr "descendant-or-self" NodeTestAny [] false;
                 StepExpr "child" (NodeTestName "a")
                   [PredicateExpr (NumberExpr "1")] true]
                SampleDom.r0 [SampleDom.r0] 0%nat eq_refl).
  vm_compute in H. discriminate H.
Qed.

(** The loop with the early return on the last step: the first node
    that passes is pushed and the loop ends. *)
Lemma visitFirst_push {N} (passes : nat -> bool) (l : list N) :
  forall i nodes,
    visitFirst passes (fun nodes n => Ok (nodes ++ [n])%list) i l nodes
    = Ok (nodes ++ take 1 (passingFrom passes i l))%list.
Proof.
  induction l as [|n l IH]; intros i nodes; cbn [visitFirst passingFrom].
  - now rewrite app_nil_r.
  - destruct (passes i); [|apply IH].
    rewrite length_app. cbn [length].
    replace (Nat.ltb 0 (length nodes + 1)) with true; [reflexivity|].
    symmetry. apply Nat.ltb_lt. lia.
Qed.

(** The loop with the early return ends at the first node that passes
    and whose visit leaves [nodes] not empty: no later node of the step
    is visited. *)
Lemma visitFirst_stops {N} (passes : nat -> bool)
    (visit : list N -> N -> outcome (list N)) n after nodes nodes' :
  visit nodes n = Ok nodes' -> nodes' <> [] ->
  forall before i,
    passingFrom passes i before = [] ->
    passes (i + length before)%nat = true ->
    visitFirst passes visit i (before ++ n :: after) nodes = Ok nodes'.
Proof.
  intros Hv Hne. induction before as [|b before IH]; intros i Hb Hp.
  - cbn [app visitFirst]. rewrite Nat.add_0_r in Hp. rewrite Hp, Hv.
    destruct nodes'; [congruence|reflexivity].
  - cbn [app visitFirst]. cbn [passingFrom] in Hb.
    destruct (passes i); [discriminate|].
    apply IH; [exact Hb|]. rewrite <- Hp. f_equal. simpl. lia.
Qed.

(** C4, amended: the shortcut is decided step by step.  In a context
    with [returnOnFirstMatch] set, a step with a positional predicate is
    evaluated without the early return: every node the step selects is
    pushed, when the step is the last one, or handed to the next step.
    A step without a positional predicate keeps the early return: as
    the last step it pushes the first node that passes its predicates
    and no other, and before other steps it stops at the first node that
    passes and whose visit leaves [nodes] not empty.  A path all of
    whose steps are positional gives the same nodes with the flag as
    without it. *)
Theorem positional_step_visits_all {N} (E : Evaluator N)
    s rest nodes input context :
  isStep s = true -> returnOnFirstMatch context = true ->
  (isPositionalStep s = true ->
   xPathStepFrom E (s :: rest) nodes input context
   = visitAll (visitNext E rest context) (selected E s input) nodes
   /\ (rest = [] ->
       xPathStepFrom E (s :: rest) nodes input context
       = Ok (nodes ++ selected E s input)%list))
  /\ (isPositionalStep s = false ->
      (rest = [] ->
       xPathStepFrom E (s :: rest) nodes input context
       = Ok (nodes ++ take 1 (passing E s context input))%list)
      /\ (forall before n after nodes',
            axisNodes E s input = (before ++ n :: after)%list ->
            passingFrom (passesAt E s context (axisNodes E s input)) 0 before = [] ->
            passesAt E s context (axisNodes E s input) (length before) = true ->
            visitNext E rest context nodes n = Ok nodes' -> nodes' <> [] ->
            xPathStepFrom E (s :: rest) nodes input context = Ok nodes'))
  /\ (forallb isPositionalStep (s :: rest) = true ->
      xPathStepFrom E (s :: rest) nodes input context
      = xPathStepFrom E (s :: rest) nodes input
          (setReturnOnFirstMatch context false)).
Proof.
  intros Hs Hflag.
  destruct s as [| | | | ax nt ps hp | | | | | | | | | | | | | | | | |];
    try discriminate.
  assert (Hcands : StepExpr_evaluate E (StepExpr ax nt ps hp)
                     (clone context [input] 0)
                   = axisNodes E (StepExpr ax nt ps hp) input).
  { unfold StepExpr_evaluate, clone. cbn [nodeList position returnOnFirstMatch].
    change ([input] !! 0%nat) with (Some input). now rewrite Hflag. }
  cbn [isPositionalStep]. split; [|split].
  - intros ->. rewrite xPathStepFrom_unfold, Hflag. cbn [andb negb].
    split; [reflexivity|].
    intros ->. generalize (selected E (StepExpr ax nt ps true) input).
    intros l. revert nodes. induction l as [|n l IH]; intros nodes; simpl.
    + now rewrite app_nil_r.
    + rewrite IH. now rewrite <- app_assoc.
  - intros ->. rewrite xPathStepFrom_unfold, Hflag. cbn [andb negb].
    rewrite Hcands. split.
    + intros ->. unfold visitNext, passing. apply visitFirst_push.
    + intros before n after nodes' Hsplit Hb Hp Hv Hne.
      pose proof (visitFirst_stops _ _ n after nodes nodes' Hv Hne before 0
                    Hb Hp) as H.
      rewrite <- Hsplit in H. exact H.
  - intros Hall. destruct context as [nl pos flag]. simpl in Hflag. subst flag.
    exact (positional_path_unchanged E _ Hall nodes input nl pos).
Qed.

(** On [<r><x><a/></x><a/></r>] from the root, with the flag set: the
    positional step [child::a[1]] pushes what it selects, and the step
    [child::*], which is not positional, pushes its first node and not
    its second. *)
Lemma positional_step_visits_all_witness :
  xPathStepFrom SampleDom.evaluator
    [StepExpr "child" (NodeTestName "a") [PredicateExpr (NumberExpr "1")] true]
    [] SampleDom.r0 (Context [SampleDom.r0] 0 true)
  = Ok ([] ++ [SampleDom.a3])%list
  /\ xPathStepFrom SampleDom.evaluator
       [StepExpr "child" NodeTestAny [] false]
       [] SampleDom.r0 (Context [SampleDom.r0] 0 true)
     = Ok ([] ++ take 1 [SampleDom.x1; SampleDom.a3])%list.
Proof.
  split.
  - apply (positional_step_visits_all SampleDom.evaluator
             (StepExpr "child" (NodeTestName "a") [PredicateExpr (NumberExpr "1")] true)
             [] [] SampleDom.r0 (Context [SampleDom.r0] 0 true) eq_refl eq_refl);
      reflexivity.
  - apply (positional_step_visits_all SampleDom.evaluator
             (StepExpr "child" NodeTestAny [] false)
             [] [] SampleDom.r0 (Context [SampleDom.r0] 0 true) eq_refl eq_refl);
      reflexivity.
Defined.

(** *** The shortcut against the full evaluation *)

Lemma visitAll_append {N} (v : list N -> N -> outcome (list N)) (g : N -> list N) l :
  (forall nodes n, v nodes n = Ok (nodes ++ g n)%list) ->
  forall nodes, visitAll v l nodes = Ok (nodes ++ flat_map g l)%list.
Proof.
  intros Hv. induction l as [|n l IH]; intros nodes; simpl.
  - now rewrite app_nil_r.
  - rewrite Hv, IH. now rewrite <- app_assoc.
Qed.

Lemma flat_map_singleton {A} (l : list A) : flat_map (fun n => [n]) l = l.
Proof. induction l as [|a l IH]; simpl; [reflexivity | now rewrite IH]. Qed.

(** Without the flag, [xPathStep] appends the full result of the steps
    to [nodes]. *)
Lemma full_run {N} (E : Evaluator N) steps :
  steps <> [] -> forallb isStep steps = true ->
  forall nodes input nl pos,
    xPathStepFrom E steps nodes input (Context nl pos false)
    = Ok (nodes ++ fullResult E steps input)%list.
Proof.
  induction steps as [|s rest IH]; intros Hne Hall nodes input nl pos; [congruence|].
  simpl in Hall. apply andb_true_iff in Hall. destruct Hall as [Hs Hrest].
  destruct s; try discriminate.
  rewrite xPathStepFrom_unfold. cbn [returnOnFirstMatch andb].
  destruct rest as [|s' rest].
  - cbn [fullResult]. rewrite (visitAll_append _ (fun n => [n])).
    + now rewrite flat_map_singleton.
    + reflexivity.
  - cbn [fullResult]. apply visitAll_append. intros ns n. unfold visitNext.
    apply IH; [discriminate | exact Hrest].
Qed.

Lemma filterAt_nodeOnly {N} (E : Evaluator N) p ctx nl :
  (forall c c' : ExprContext N,
     contextNode c = contextNode c' ->
     predicateHolds E p c = predicateHolds E p c') ->
  forall rest i, drop i nl = rest ->
    filterAt E p ctx nl i rest
    = List.filter (fun n => predicateHolds E p (Context [n] 0 false)) rest.
Proof.
  intros Hp. induction rest as [|n rest IH]; intros i Hd; [reflexivity|].
  cbn [filterAt List.filter].
  assert (Hn : nl !! i = Some n).
  { rewrite <- (Nat.add_0_r i), <- lookup_drop, Hd. reflexivity. }
  assert (Hrest : drop (S i) nl = rest).
  { rewrite <- Nat.add_1_r, <- drop_drop, Hd. reflexivity. }
  rewrite (Hp (clone ctx nl i) (Context [n] 0 false)).
  - rewrite (IH _ Hrest). reflexivity.
  - unfold contextNode. simpl. exact Hn.
Qed.

(** The test of a node against the predicates [ps], each evaluated with
    the node as the only node of the context. *)
Lemma selected_nodeOnly {N} (E : Evaluator N) ax nt ps hp input :
  (forall p, In p ps ->
     forall c c' : ExprContext N,
       contextNode c = contextNode c' ->
       predicateHolds E p c = predicateHolds E p c') ->
  selected E (StepExpr ax nt ps hp) input
  = List.filter
      (fun n => forallb (fun p => predicateHolds E p (Context [n] 0 false)) ps)
      (axisNodes E (StepExpr ax nt ps hp) input).
Proof.
  intros Hps. unfold selected, StepExpr_evaluate. cbn [nodeList position lookup].
  simpl. generalize (axisNodes E (StepExpr ax nt ps hp) input).
  induction ps as [|p ps IH]; intros cands.
  - simpl. induction cands as [|a l IHl]; simpl; [reflexivity | now rewrite <- IHl].
  - cbn [fold_left]. rewrite IH.
    + unfold filterPredicate.
      rewrite (filterAt_nodeOnly E p _ cands (Hps p (or_introl eq_refl)) cands 0 eq_refl).
      induction cands as [|a l IHl]; simpl; [reflexivity|].
      destruct (predicateHolds E p (Context [a] 0 false)); simpl; rewrite IHl; reflexivity.
    + intros q Hq. apply Hps. now right.
Qed.

(** The loop with the early return, started on an empty [nodes], yields
    the first node of what the loop without it yields. *)
Lemma visitFirst_take1 {N} (passes : nat -> bool) (test : N -> bool)
    (v : list N -> N -> outcome (list N)) (g : N -> list N) :
  (forall n, v [] n = Ok (take 1 (g n))) ->
  forall rest i,
    (forall k n, rest !! k = Some n -> passes (i + k)%nat = test n) ->
    visitFirst passes v i rest []
    = Ok (take 1 (flat_map g (List.filter test rest))).
Proof.
  intros Hv. induction rest as [|n rest IH]; intros i Hp; [reflexivity|].
  cbn [visitFirst List.filter].
  assert (Hn : passes i = test n).
  { rewrite <- (Nat.add_0_r i). now apply Hp. }
  assert (Hrest : forall k m, rest !! k = Some m -> passes (S i + k)%nat = test m).
  { intros k m Hk. replace (S i + k)%nat with (i + S k)%nat by lia. now apply Hp. }
  rewrite Hn. destruct (test n).
  - rewrite Hv. cbn [flat_map]. destruct (g n) as [|x l]; simpl.
    + now apply IH.
    + reflexivity.
  - now apply IH.
Qed.

(** A predicate that looks at the context node alone gives, at the
    position of a node in a list, what it gives on the node alone. *)
Lemma passes_nodeOnly {N} (E : Evaluator N) ps (ctx : ExprContext N) cands k n :
  (forall p, In p ps ->
     forall c c' : ExprContext N,
       contextNode c = contextNode c' ->
       predicateHolds E p c = predicateHolds E p c') ->
  cands !! k = Some n ->
  forallb (fun p => predicateHolds E p (clone ctx cands k)) ps
  = forallb (fun p => predicateHolds E p (Context [n] 0 false)) ps.
Proof.
  intros Hps Hk. induction ps as [|p ps IHp]; [reflexivity|].
  cbn [forallb]. rewrite IHp; [|intros q Hq; apply Hps; now right].
  f_equal. apply Hps; [now left|]. unfold contextNode. simpl. exact Hk.
Qed.

(** With the flag, on steps that are not positional and whose predicates
    look at the context node alone, [xPathStep] yields the first node of
    the full result. *)
Lemma first_match_run {N} (E : Evaluator N) steps :
  steps <> [] -> forallb isPlainStep steps = true ->
  nodeOnlyPredicates E steps ->
  forall input nl pos,
    xPathStepFrom E steps [] input (Context nl pos true)
    = Ok (take 1 (fullResult E steps input)).
Proof.
  induction steps as [|s rest IH]; intros Hne Hall Hnode input nl pos; [congruence|].
  simpl in Hall. apply andb_true_iff in Hall. destruct Hall as [Hs Hrest].
  destruct s; try discriminate. simpl in Hs. apply negb_true_iff in Hs. subst.
  assert (Hps : forall p, In p predicate ->
            forall c c' : ExprContext N,
              contextNode c = contextNode c' ->
              predicateHolds E p c = predicateHolds E p c').
  { intros p Hp. apply (Hnode (StepExpr axis s predicate false)); [now left | exact Hp]. }
  assert (Hnode' : nodeOnlyPredicates E rest).
  { intros s' p Hs' Hp. apply (Hnode s'); [now right | exact Hp]. }
  rewrite xPathStepFrom_unfold. cbn [returnOnFirstMatch negb andb].
  assert (Hcands : StepExpr_evaluate E (StepExpr axis s predicate false)
                     (clone (Context nl pos true) [input] 0)
                   = axisNodes E (StepExpr axis s predicate false) input)
    by reflexivity.
  rewrite Hcands.
  set (cands := axisNodes E (StepExpr axis s predicate false) input).
  set (test := fun n => forallb (fun p => predicateHolds E p (Context [n] 0 false)) predicate).
  assert (Hpass : forall k n, cands !! k = Some n ->
            forallb (fun p => predicateHolds E p (clone (Context nl pos true) cands (0 + k)))
              predicate = test n).
  { intros k n Hk. now apply passes_nodeOnly. }
  assert (Hsel : selected E (StepExpr axis s predicate false) input
                 = List.filter test cands)
    by (apply selected_nodeOnly; exact Hps).
  destruct rest as [|s' rest].
  - cbn [fullResult]. rewrite Hsel.
    rewrite (visitFirst_take1 _ test _ (fun n => [n])).
    + now rewrite flat_map_singleton.
    + reflexivity.
    + exact Hpass.
  - cbn [fullResult]. rewrite Hsel.
    apply (visitFirst_take1 _ test _ (fullResult E (s' :: rest))).
    + intros n. unfold visitNext. apply IH; [discriminate | exact Hrest | exact Hnode'].
    + exact Hpass.
Qed.

Lemma firstInDocumentOrder_In {N} (E : Evaluator N) l n :
  firstInDocumentOrder E l = Some n -> In n l.
Proof.
  revert n. induction l as [|a l IH]; intros n; simpl; [discriminate|].
  destruct (firstInDocumentOrder E l) as [m|].
  - destruct (Z.ltb _ _); intros [= <-]; auto.
  - intros [= <-]. auto.
Qed.

(** The first node of a list in document order is its first node in
    document order. *)
Lemma firstInDocumentOrder_head {N} (E : Evaluator N) l :
  inDocumentOrder E l -> firstInDocumentOrder E l = head l.
Proof.
  destruct l as [|n l]; [reflexivity|]. simpl. intros [Hall _].
  destruct (firstInDocumentOrder E l) as [m|] eqn:Hm; [|reflexivity].
  apply firstInDocumentOrder_In in Hm.
  rewrite List.Forall_forall in Hall. specialize (Hall m Hm).
  destruct (Z.ltb_spec (documentOrderId E m) (documentOrderId E n)); [lia|reflexivity].
Qed.

(** C5, as the specification states it, fails: on
    [<r><x><a/></x><a/></r>] the path [//a] visits the [a] child of the
    root before the [a] inside [x], so the shortcut yields the second [a]
    of the document, and the first node of the full result in document
    order is the first [a]. *)
Lemma first_match_counterexample : ~ firstMatchIsDocumentFirst SampleDom.evaluator.
Proof.
  intros H.
  destruct (H [StepExpr "descendant-or-self" NodeTestAny [] false;
               StepExpr "child" (NodeTestName "a") [] false]
              SampleDom.r0 SampleDom.a3 eq_refl eq_refl) as (full & Hfull & Hfirst).
  vm_compute in Hfull. injection Hfull as <-.
  vm_compute in Hfirst. discriminate Hfirst.
Qed.

(** C5, amended: for a context with [returnOnFirstMatch] set and a path
    none of whose steps is flagged positional and whose predicates look
    at the context node alone, the evaluation with the shortcut yields
    the first node of the full result in the order in which [xPathStep]
    visits the nodes (depth first, each step in the order of its axis),
    and no node when the full result is empty.  That node is the first
    node in document order whenever the full result is visited in
    document order. *)
Theorem first_match_is_first_visited {N} (E : Evaluator N) steps input nl pos :
  steps <> [] -> forallb isPlainStep steps = true ->
  nodeOnlyPredicates E steps ->
  xPathStep E [] steps 0 input (Context nl pos false)
  = Ok (fullResult E steps input)
  /\ xPathStep E [] steps 0 input (Context nl pos true)
     = Ok (take 1 (fullResult E steps input))
  /\ (inDocumentOrder E (fullResult E steps input) ->
      forall n,
        xPathStep E [] steps 0 input (Context nl pos true) = Ok [n] ->
        firstInDocumentOrder E (fullResult E steps input) = Some n).
Proof.
  intros Hne Hplain Hnode. unfold xPathStep. rewrite drop_0.
  assert (Hstep : forallb isStep steps = true).
  { clear -Hplain. induction steps as [|s l IH]; [reflexivity|].
    simpl in *. apply andb_true_iff in Hplain. destruct Hplain as [Hs Hl].
    rewrite (IH Hl). now destruct s. }
  rewrite (full_run E steps Hne Hstep [] input nl pos).
  rewrite (first_match_run E steps Hne Hplain Hnode input nl pos).
  split; [reflexivity|]. split; [reflexivity|].
  intros Hord n Hn. rewrite (firstInDocumentOrder_head E _ Hord).
  destruct (fullResult E steps input) as [|m l]; [discriminate|].
  simpl in Hn. injection Hn as <-. reflexivity.
Qed.

Lemma first_match_is_first_visited_witness :
  xPathStep SampleDom.evaluator []
    [StepExpr "child" NodeTestElementOrAttribute
       [PredicateExpr
          (LocationExpr false [StepExpr "child" (NodeTestName "a") [] false])]
       false;
     StepExpr "child" (NodeTestName "a") [] false]
    0 SampleDom.r0 (Context [SampleDom.r0] 0 true)
  = Ok [SampleDom.a2].
Proof.
  apply (first_match_is_first_visited SampleDom.evaluator
           [StepExpr "child" NodeTestElementOrAttribute
              [PredicateExpr
                 (LocationExpr false [StepExpr "child" (NodeTestName "a") [] false])]
              false;
            StepExpr "child" (NodeTestName "a") [] false]
           SampleDom.r0 [SampleDom.r0] 0).
  - discriminate.
  - reflexivity.
  - intros s p [<-|[<-|[]]] Hp; simpl in Hp; [|destruct Hp].
    destruct Hp as [<-|[]].
    intros c c' Hc. unfold contextNode in Hc. simpl. now rewrite Hc.
Defined.

(** ** [xmlParse] *)

Lemma prefix_append p s : String.prefix p s = true <-> exists rest, s = p ++ rest.
Proof.
  revert s. induction p as [|c p IH]; intros s.
  - split; [intros _; now exists s | intros _; now destruct s].
  - destruct s as [|d s]; simpl.
    + split; [discriminate | intros [rest H]; discriminate].
    + destruct (ascii_dec c d) as [->|Hne].
      * rewrite IH. split; intros [rest H]; exists rest; [now rewrite H | now injection H].
      * split; [discriminate | intros [rest H]; injection H; congruence].
Qed.

Lemma runBody_no_Error {D} (X : XmlImports D) g xml message :
  runBody X g xml <> ThrowError message.
Proof. unfold runBody. destruct (buildDocument X g xml); discriminate. Qed.

(** C10: [xmlParse] throws the error [VersionInfo is missing, or unknown
    version number.] exactly when the input begins with [<?xml] and the
    search for the version information of XML 1.0 and the search for that
    of XML 1.1 both give an index other than 5; it throws no other error
    of its own; an input that does not begin with [<?xml] is built with
    the expressions of XML 1.0 and the error is not raised. *)
Theorem xmlParse_version {D} (X : XmlImports D) xml :
  (xmlParse X xml = ThrowError versionInfoMessage <->
   (exists rest, xml = "<?xml" ++ rest)
   /\ searchVersion10 X xml <> 5%Z /\ searchVersion11 X xml <> 5%Z)
  /\ (forall message, xmlParse X xml = ThrowError message ->
        message = versionInfoMessage)
  /\ (~ (exists rest, xml = "<?xml" ++ rest) ->
      xmlParse X xml = runBody X XML10 xml
      /\ forall message, xmlParse X xml <> ThrowError message)
  /\ ((exists rest, xml = "<?xml" ++ rest) ->
      (searchVersion10 X xml = 5%Z -> xmlParse X xml = runBody X XML10 xml)
      /\ (searchVersion10 X xml <> 5%Z -> searchVersion11 X xml = 5%Z ->
          xmlParse X xml = runBody X XML11 xml)).
Proof.
  unfold xmlParse, hasXmlDeclaration. rewrite <- prefix_append.
  destruct (String.prefix "<?xml" xml).
  - destruct (Z.eqb_spec (searchVersion10 X xml) 5) as [H10|H10];
      [|destruct (Z.eqb_spec (searchVersion11 X xml) 5) as [H11|H11]].
    + split; [|split; [|split]].
      * split; [intros H; now apply runBody_no_Error in H | intros (_ & H & _); now elim H].
      * intros message H. now apply runBody_no_Error in H.
      * intros H. now elim H.
      * intros _. split; [reflexivity | intros H; now elim H].
    + split; [|split; [|split]].
      * split; [intros H; now apply runBody_no_Error in H | intros (_ & _ & H); now elim H].
      * intros message H. now apply runBody_no_Error in H.
      * intros H. now elim H.
      * intros _. split; [intros H; now elim H10 | reflexivity].
    + split; [|split; [|split]].
      * split; auto.
      * intros message [= <-]. reflexivity.
      * intros H. now elim H.
      * intros _. split; [intros H; now elim H10 | intros _ H; now elim H11].
  - split; [|split; [|split]].
    + split; [intros H; now apply runBody_no_Error in H | intros (H & _); discriminate].
    + intros message H. now apply runBody_no_Error in H.
    + intros _. split; [reflexivity | intros message; apply runBody_no_Error].
    + discriminate.
Qed.

(** The sample search finds the version information of XML 1.0 and of
    XML 1.1 at index 5, and nothing for another version number or for a
    declaration with two blanks. *)
Example xmlParse_examples :
  xmlParse SampleDom.xmlImports "<?xml version='1.0'?><a/>"
  = Parsed (XML10, "<?xml version='1.0'?><a/>")
  /\ xmlParse SampleDom.xmlImports "<?xml version='1.1'?><a/>"
     = Parsed (XML11, "<?xml version='1.1'?><a/>")
  /\ xmlParse SampleDom.xmlImports "<?xml version='2.0'?><a/>"
     = ThrowError versionInfoMessage
  /\ xmlParse SampleDom.xmlImports "<a/>" = Parsed (XML10, "<a/>")
  /\ xmlParse SampleDom.xmlImports
       ("<?xml version=" ++ SampleDom.doubleQuoted "1.1" ++ "?><a/>")
     = Parsed (XML11, "<?xml version=" ++ SampleDom.doubleQuoted "1.1" ++ "?><a/>").
Proof. repeat split. Qed.

(** ** The order of key values *)

Lemma stringLt_irrefl a : stringLt a a = false.
Proof.
  induction a as [|c a IH]; simpl; [reflexivity|].
  rewrite Nat.ltb_irrefl, Nat.eqb_refl. exact IH.
Qed.

Lemma stringLt_asym a : forall b, stringLt a b = true -> stringLt b a = false.
Proof.
  induction a as [|c a IH]; intros [|d b]; simpl; try congruence.
  destruct (Nat.ltb_spec (JS.code c) (JS.code d)),
           (Nat.ltb_spec (JS.code d) (JS.code c)),
           (Nat.eqb_spec (JS.code c) (JS.code d)),
           (Nat.eqb_spec (JS.code d) (JS.code c));
    try lia; try congruence; auto.
Qed.

(** When [a < b] and [b < c] both fail, [a < c] fails. *)
Lemma stringLt_negtrans a : forall b c,
  stringLt a b = false -> stringLt b c = false -> stringLt a c = false.
Proof.
  induction a as [|x a IH]; intros [|y b] [|z c]; simpl; try congruence.
  destruct (Nat.ltb_spec (JS.code x) (JS.code y)),
           (Nat.ltb_spec (JS.code y) (JS.code z)),
           (Nat.ltb_spec (JS.code x) (JS.code z)),
           (Nat.eqb_spec (JS.code x) (JS.code y)),
           (Nat.eqb_spec (JS.code y) (JS.code z)),
           (Nat.eqb_spec (JS.code x) (JS.code z));
    try lia; try congruence; eauto.
Qed.

Lemma numberLt_irrefl a : numberLt a a = false.
Proof.
  destruct a; simpl; try reflexivity.
  apply negb_false_iff. apply Qle_bool_iff. apply Qle_refl.
Qed.

Lemma numberLt_asym a b : numberLt a b = true -> numberLt b a = false.
Proof.
  destruct a, b; simpl; try congruence.
  rewrite negb_true_iff, negb_false_iff. intros H.
  apply Qle_bool_iff. apply Qlt_le_weak. apply Qnot_le_lt.
  intros Hle. apply Qle_bool_iff in Hle. congruence.
Qed.

Lemma numberLt_negtrans a b c :
  a <> NaN -> b <> NaN -> c <> NaN ->
  numberLt a b = false -> numberLt b c = false -> numberLt a c = false.
Proof.
  destruct a, b, c; simpl; try congruence.
  rewrite !negb_false_iff, !Qle_bool_iff. intros _ _ _ H1 H2.
  eapply Qle_trans; eauto.
Qed.

Lemma jsLt_irrefl a : jsLt a a = false.
Proof. destruct a; simpl; auto using stringLt_irrefl, numberLt_irrefl. Qed.

Lemma jsLt_asym a b : jsLt a b = true -> jsLt b a = false.
Proof. destruct a, b; simpl; auto using stringLt_asym, numberLt_asym. Qed.

Lemma jsLt_negtrans a b c :
  comparable a b -> comparable b c ->
  jsLt a b = false -> jsLt b c = false -> jsLt a c = false.
Proof.
  intros (Ha & Hb & Hab) (_ & Hc & Hbc).
  destruct a, b, c; simpl in *; try tauto.
  - apply stringLt_negtrans.
  - apply numberLt_negtrans; congruence.
Qed.

Lemma comparable_sym a b : comparable a b -> comparable b a.
Proof. intros (Ha & Hb & H). repeat split; auto. destruct a, b; auto. Qed.

Lemma comparable_trans a b c : comparable a b -> comparable b c -> comparable a c.
Proof.
  intros (Ha & Hb & Hab) (_ & Hc & Hbc). repeat split; auto.
  destruct a, b, c; auto.
Qed.

Lemma jsLt_trans a b c :
  comparable a b -> comparable b c ->
  jsLt a b = true -> jsLt b c = true -> jsLt a c = true.
Proof.
  intros Hab Hbc H1 H2. destruct (jsLt a c) eqn:Hac; [reflexivity|].
  apply jsLt_asym in H2.
  rewrite (jsLt_negtrans a c b) in H1; auto.
  - apply (comparable_trans a b c); auto.
  - now apply comparable_sym.
Qed.

(** ** [xPathSortByKey] is a consistent comparison *)

Lemma compareKeys_refl k : compareKeys k k = 0%Z.
Proof.
  induction k as [|e k IH]; simpl; [reflexivity|].
  unfold jsGt. now rewrite jsLt_irrefl.
Qed.

Lemma compareKeys_antisym k1 k2 :
  compatibleKeys k1 k2 -> compareKeys k2 k1 = (- compareKeys k1 k2)%Z.
Proof.
  induction 1 as [|e1 e2 r1 r2 [Ho _] _ IH]; [reflexivity|].
  cbn [compareKeys]. unfold jsGt. rewrite <- Ho.
  destruct (jsLt (k_value e2) (k_value e1)) eqn:H21.
  - rewrite (jsLt_asym _ _ H21).
    destruct (String.eqb (k_order e1) "descending"); reflexivity.
  - destruct (jsLt (k_value e1) (k_value e2));
      [destruct (String.eqb (k_order e1) "descending"); reflexivity | exact IH].
Qed.

Lemma compareKeys_trans k1 : forall k2 k3,
  compatibleKeys k1 k2 -> compatibleKeys k2 k3 ->
  (compareKeys k1 k2 <= 0)%Z -> (compareKeys k2 k3 <= 0)%Z ->
  (compareKeys k1 k3 <= 0)%Z.
Proof.
  induction k1 as [|e1 r1 IH]; intros k2 k3 H12 H23; [simpl; lia|].
  inversion H12 as [|? e2 ? r2 [Ho12 Hc12] Hr12]; subst.
  inversion H23 as [|? e3 ? r3 [Ho23 Hc23] Hr23]; subst.
  cbn [compareKeys]. unfold jsGt. rewrite <- Ho12.
  assert (Hc13 : comparable (k_value e1) (k_value e3))
    by (eapply comparable_trans; eauto).
  pose proof (jsLt_asym (k_value e1) (k_value e2)) as A12.
  pose proof (jsLt_asym (k_value e2) (k_value e3)) as A23.
  pose proof (jsLt_asym (k_value e1) (k_value e3)) as A13.
  pose proof (jsLt_negtrans _ _ _ Hc12 Hc23) as N123.
  pose proof (jsLt_negtrans _ _ _ Hc13 (comparable_sym _ _ Hc23)) as N132.
  pose proof (jsLt_negtrans _ _ _ (comparable_sym _ _ Hc12) Hc13) as N213.
  pose proof (jsLt_negtrans _ _ _ Hc23 (comparable_sym _ _ Hc13)) as N231.
  pose proof (jsLt_negtrans _ _ _ (comparable_sym _ _ Hc13) Hc12) as N312.
  pose proof (jsLt_negtrans _ _ _ (comparable_sym _ _ Hc23) (comparable_sym _ _ Hc12)) as N321.
  specialize (IH r2 r3 Hr12 Hr23).
  destruct (String.eqb (k_order e1) "descending");
    destruct (jsLt (k_value e1) (k_value e2)), (jsLt (k_value e2) (k_value e1)),
             (jsLt (k_value e2) (k_value e3)), (jsLt (k_value e3) (k_value e2)),
             (jsLt (k_value e1) (k_value e3)), (jsLt (k_value e3) (k_value e1));
    intros; try lia;
    try (specialize (A12 eq_refl)); try (specialize (A23 eq_refl));
    try (specialize (A13 eq_refl));
    try (specialize (N123 eq_refl eq_refl)); try (specialize (N132 eq_refl eq_refl));
    try (specialize (N213 eq_refl eq_refl)); try (specialize (N231 eq_refl eq_refl));
    try (specialize (N312 eq_refl eq_refl)); try (specialize (N321 eq_refl eq_refl));
    try congruence; auto.
Qed.

Lemma compatibleKeys_refl_of k1 k2 : compatibleKeys k1 k2 -> compatibleKeys k1 k1.
Proof.
  induction 1 as [|e1 e2 r1 r2 [Ho (Ha & Hb & Hk)] _ IH]; constructor; auto.
  split; [reflexivity|]. repeat split; auto. now destruct (k_value e1).
Qed.

(** On items whose key vectors are compatible two by two,
    [xPathSortByKey] is consistent. *)
Lemma xPathSortByKey_consistent {N} (l : list (sortItem N)) :
  (forall a b, In a l -> In b l -> compatibleKeys (item_key a) (item_key b)) ->
  consistentOn xPathSortByKey l.
Proof.
  intros Hc. unfold consistentOn, precedes, xPathSortByKey. split; [|split].
  - intros a _. apply compareKeys_refl.
  - intros a b Ha Hb. rewrite (compareKeys_antisym _ _ (Hc a b Ha Hb)). lia.
  - intros a b c Ha Hb Hcc. apply compareKeys_trans; auto.
Qed.

(** ** The items of [xPathSort] *)

Lemma sortItemsFrom_lookup {N} (E : Evaluator N) context sort rest :
  forall i k,
    sortItemsFrom E context sort i rest !! k
    = itemAt E context sort (i + k) <$> rest !! k.
Proof.
  induction rest as [|n rest IH]; intros i k; [now destruct k|].
  destruct k as [|k]; simpl.
  - now rewrite Nat.add_0_r.
  - rewrite IH. now rewrite Nat.add_succ_r.
Qed.

(** The first part of C9: the item of the node at index [i] carries the
    keys of the caller followed by the index [i], ascending. *)
Lemma sortList_lookup {N} (E : Evaluator N) context sort i :
  sortList E context sort !! i
  = itemAt E context sort i <$> nodeList context !! i.
Proof. unfold sortList. now rewrite sortItemsFrom_lookup. Qed.

Lemma sortList_In {N} (E : Evaluator N) context sort a :
  In a (sortList E context sort) ->
  exists i n, nodeList context !! i = Some n /\ a = itemAt E context sort i n.
Proof.
  intros Ha. apply list_elem_of_In in Ha. apply list_elem_of_lookup in Ha.
  destruct Ha as [i Hi]. rewrite sortList_lookup in Hi.
  destruct (nodeList context !! i) as [n|] eqn:Hn; [|discriminate].
  injection Hi as <-. now exists i, n.
Qed.

Lemma keyOf_comparable {N} (E : Evaluator N) context sort n m s :
  noNaNKey E context sort ->
  In n (nodeList context) -> In m (nodeList context) -> In s sort ->
  k_order (keyOf E context n s) = k_order (keyOf E context m s)
  /\ comparable (k_value (keyOf E context n s)) (k_value (keyOf E context m s)).
Proof.
  intros Hnan Hn Hm Hs. split; [reflexivity|].
  pose proof (Hnan n s Hn Hs) as H1. pose proof (Hnan m s Hm Hs) as H2.
  repeat split; auto. unfold keyOf. simpl.
  destruct (String.eqb (sortType s) "text"); [exact Logic.I|].
  destruct (String.eqb (sortType s) "number"); exact Logic.I.
Qed.

Lemma userKeys_compatible {N} (E : Evaluator N) context sort n m :
  noNaNKey E context sort ->
  In n (nodeList context) -> In m (nodeList context) ->
  forall l, (forall s, In s l -> In s sort) ->
    compatibleKeys (map (keyOf E context n) l) (map (keyOf E context m) l).
Proof.
  intros Hnan Hn Hm. induction l as [|s l IH]; intros Hsub; simpl; constructor.
  - apply (keyOf_comparable E context sort); auto. apply Hsub. now left.
  - apply IH. intros s' Hs'. apply Hsub. now right.
Qed.

Lemma itemAt_compatible {N} (E : Evaluator N) context sort i n j m :
  noNaNKey E context sort ->
  In n (nodeList context) -> In m (nodeList context) ->
  compatibleKeys (item_key (itemAt E context sort i n))
                 (item_key (itemAt E context sort j m)).
Proof.
  intros Hnan Hn Hm. unfold itemAt, compatibleKeys. simpl.
  apply Forall2_app.
  - apply (userKeys_compatible E context sort); auto.
  - constructor; [|constructor]. split; [reflexivity|].
    repeat split; discriminate.
Qed.

Lemma sortList_consistent {N} (E : Evaluator N) context sort :
  noNaNKey E context sort ->
  consistentOn xPathSortByKey (sortList E context sort).
Proof.
  intros Hnan. apply xPathSortByKey_consistent. intros a b Ha Hb.
  apply sortList_In in Ha. destruct Ha as (i & n & Hn & ->).
  apply sortList_In in Hb. destruct Hb as (j & m & Hm & ->).
  apply itemAt_compatible; auto.
  - apply list_elem_of_In. eapply list_elem_of_lookup_2; eauto.
  - apply list_elem_of_In. eapply list_elem_of_lookup_2; eauto.
Qed.

(** With a key that is not a number the comparison function is not
    consistent on the items: [NaN] compares equal to 2 and to 1, so the
    index puts 2 before [NaN] and [NaN] before 1, and the values put 1
    before 2. *)
Example nan_key_not_consistent :
  ~ consistentOn xPathSortByKey
      [SortItem 0%nat [KeyEntry (KNumber (Finite 2)) "ascending"; indexKey 0];
       SortItem 1%nat [KeyEntry (KNumber NaN) "ascending"; indexKey 1];
       SortItem 2%nat [KeyEntry (KNumber (Finite 1)) "ascending"; indexKey 2]].
Proof.
  intros (_ & _ & Htrans).
  specialize (Htrans
    (SortItem 0%nat [KeyEntry (KNumber (Finite 2)) "ascending"; indexKey 0])
    (SortItem 1%nat [KeyEntry (KNumber NaN) "ascending"; indexKey 1])
    (SortItem 2%nat [KeyEntry (KNumber (Finite 1)) "ascending"; indexKey 2])).
  unfold precedes in Htrans. vm_compute in Htrans.
  apply Htrans; auto; discriminate.
Qed.

Lemma compareKeys_index i j :
  (i < j)%nat -> compareKeys [indexKey i] [indexKey j] = (-1)%Z.
Proof.
  intros Hij. cbn. unfold jsGt. cbn.
  assert (H1 : Qle_bool (inject_Z (Z.of_nat i)) (inject_Z (Z.of_nat j)) = true).
  { apply Qle_bool_iff. rewrite <- Zle_Qle. lia. }
  assert (H2 : Qle_bool (inject_Z (Z.of_nat j)) (inject_Z (Z.of_nat i)) = false).
  { apply not_true_is_false. rewrite Qle_bool_iff, <- Zle_Qle. lia. }
  rewrite H1, H2. reflexivity.
Qed.


(** ** [xPathSort] is stable *)



Lemma sorted_item_of_node {N} (E : Evaluator N)
    (arraySort : (sortItem N -> sortItem N -> Z) ->
                 list (sortItem N) -> list (sortItem N))
    context sort i n :
  Permutation (arraySort xPathSortByKey (sortList E context sort))
              (sortList E context sort) ->
  map item_node (arraySort xPathSortByKey (sortList E context sort)) !! i = Some n ->
  exists i0,
    arraySort xPathSortByKey (sortList E context sort) !! i
    = Some (itemAt E context sort i0 n)
    /\ nodeList context !! i0 = Some n.
Proof.
  intros Hperm Hn. change (map item_node ?l) with (item_node <$> l) in Hn.
  rewrite list_lookup_fmap in Hn.
  destruct (arraySort xPathSortByKey (sortList E context sort) !! i) as [a|] eqn:Ha;
    [|discriminate].
  injection Hn as <-.
  assert (Hin : In a (sortList E context sort)).
  { apply (Permutation_in _ Hperm). apply list_elem_of_In.
    eapply list_elem_of_lookup_2; eauto. }
  apply sortList_In in Hin. destruct Hin as (i0 & n0 & Hn0 & ->).
  exists i0. split; [reflexivity|exact Hn0].
Qed.


(** *** The sample sort keeps its promise *)

Lemma insertBy_perm {A} (cmp : A -> A -> Z) x l :
  Permutation (SampleDom.insertBy cmp x l) (x :: l).
Proof.
  induction l as [|y l IH]; simpl; [reflexivity|].
  destruct (Z.ltb (cmp x y) 0); [reflexivity|].
  rewrite IH. apply perm_swap.
Qed.

Lemma insertionSort_perm {A} (cmp : A -> A -> Z) l :
  Permutation (SampleDom.insertionSort cmp l) l.
Proof.
  induction l as [|x l IH]; simpl; [reflexivity|].
  unfold SampleDom.insertionSort in *. simpl.
  rewrite insertBy_perm. now constructor.
Qed.

Lemma insertBy_sorted {A} (cmp : A -> A -> Z) (L : list A) x l :
  consistentOn cmp L -> In x L -> (forall y, In y l -> In y L) ->
  sortedBy cmp l -> sortedBy cmp (SampleDom.insertBy cmp x l).
Proof.
  intros (Hrefl & Hanti & Htrans) Hx. induction l as [|y l IH]; intros Hl Hs.
  - simpl. auto.
  - destruct Hs as [Hy Hs]. cbn [SampleDom.insertBy].
    assert (HyL : In y L) by (apply Hl; now left).
    assert (HlL : forall z, In z l -> In z L) by (intros z Hz; apply Hl; now right).
    destruct (Z.ltb_spec (cmp x y) 0) as [Hlt|Hge].
    + cbn [sortedBy]. split; [|split; assumption].
      constructor; [unfold precedes; lia|].
      rewrite List.Forall_forall in Hy |- *. intros z Hz.
      apply (Htrans x y z); auto. unfold precedes. lia.
    + cbn [sortedBy]. split; [|now apply IH].
      apply (Permutation_Forall (Permutation_sym (insertBy_perm cmp x l))).
      constructor; [|exact Hy].
      unfold precedes. destruct (Z.le_gt_cases (cmp y x) 0) as [H|H]; [exact H|].
      apply Z.gt_lt in H || idtac. apply (Hanti x y Hx HyL) in H. lia.
Qed.

Lemma insertionSort_sorted {A} (cmp : A -> A -> Z) (L : list A) l :
  consistentOn cmp L -> (forall y, In y l -> In y L) ->
  sortedBy cmp (SampleDom.insertionSort cmp l).
Proof.
  intros Hc. induction l as [|x l IH]; intros Hl; [exact Logic.I|].
  unfold SampleDom.insertionSort in *. cbn [fold_right].
  apply (insertBy_sorted cmp L); auto.
  - apply Hl. now left.
  - intros y Hy. apply Hl. right.
    apply (Permutation_in _ (insertionSort_perm cmp l)). exact Hy.
  - apply IH. intros y Hy. apply Hl. now right.
Qed.

Lemma sortedBy_lookup {A} (cmp : A -> A -> Z) l :
  sortedBy cmp l ->
  forall i j a b, (i < j)%nat -> l !! i = Some a -> l !! j = Some b ->
    precedes cmp a b.
Proof.
  induction l as [|x l IH]; intros Hs i j a b Hij Hi Hj; [now destruct i|].
  destruct Hs as [Hx Hs]. destruct j as [|j]; [lia|].
  destruct i as [|i].
  - injection Hi as <-. rewrite List.Forall_forall in Hx. apply Hx.
    apply list_elem_of_In. eapply list_elem_of_lookup_2. exact Hj.
  - apply (IH Hs i j); auto. lia.
Qed.

(** The insertion sort orders the items consistently with a consistent
    comparison function. *)
Lemma insertionSort_consistent {A} : sortsConsistently (@SampleDom.insertionSort A).
Proof.
  intros cmp l Hc. split; [apply insertionSort_perm|].
  apply sortedBy_lookup. apply (insertionSort_sorted cmp l); auto.
Qed.


(** *** Without the condition on the keys *)




(** * Further properties of the code *)

(** ** [xPathMatchStack] *)

Lemma spanTag_length x limit rs taken rest :
  spanTag x limit rs = (taken, rest) -> (length taken <= limit)%nat.
Proof.
  revert rs taken rest. induction limit as [|k IH]; intros rs taken rest.
  - destruct rs; simpl; intros [= <- <-]; simpl; lia.
  - destruct rs as [|f rs]; simpl; [intros [= <- <-]; simpl; lia|].
    destruct (symbol_eqb (f_tag f) x); [|intros [= <- <-]; simpl; lia].
    destruct (spanTag x k rs) as [a b] eqn:Hs. intros [= <- <-].
    apply IH in Hs. simpl. lia.
Qed.

Lemma tags_repeat x (l : list frame) :
  Forall (fun f => f_tag f = x) l -> map f_tag l = repeat x (length l).
Proof. induction 1 as [|f l Hf _ IH]; simpl; congruence. Qed.

(** The loop of [xPathMatchStack] takes the frames of the match from the
    top of the stack, in order, and their tags are an instance of the
    pattern. *)
Lemma matchRev_frames n :
  forall rp, (length rp <= n)%nat ->
  forall rs acc ml m k,
    matchRev rp rs acc ml = Some (m, k) ->
    exists t r, rs = (t ++ r)%list
      /\ matchFrames m = (rev t ++ matchFrames acc)%list
      /\ k = (ml + length t)%nat
      /\ instanceOf rp (map f_tag t).
Proof.
  induction n as [|n IH]; intros rp Hlen rs acc ml m k.
  - destruct rp; [|simpl in Hlen; lia]. simpl. intros [= <- <-].
    exists [], rs. simpl. repeat split; [lia|constructor].
  - destruct rp as [|q rp]; cbn [matchRev].
    { intros [= <- <-]. exists [], rs. simpl. repeat split; [lia|constructor]. }
    destruct rs as [|f rs]; [discriminate|].
    assert (Hquant : forall limit x rp'',
      rp = x :: rp'' ->
      (let '(taken, rest) := spanTag x limit (f :: rs) in
       matchRev rp'' rest (MQuant (rev taken) :: acc) (ml + length taken))
      = Some (m, k) ->
      exists taken t r, (f :: rs) = ((taken ++ t) ++ r)%list
        /\ matchFrames m = (rev (taken ++ t) ++ matchFrames acc)%list
        /\ k = (ml + length (taken ++ t))%nat
        /\ map f_tag taken = repeat x (length taken)
        /\ (length taken <= limit)%nat
        /\ (symbol_eqb (f_tag f) x = true -> (0 < limit)%nat -> (1 <= length taken)%nat)
        /\ instanceOf rp'' (map f_tag t)).
    { intros limit x rp'' -> Hm.
      destruct (spanTag x limit (f :: rs)) as [taken rest] eqn:Hs.
      destruct (spanTag_split _ _ _ _ _ Hs) as [Hsplit Htags].
      pose proof (spanTag_length _ _ _ _ _ Hs) as Hlim.
      assert (Hone : symbol_eqb (f_tag f) x = true -> (0 < limit)%nat ->
                     (1 <= length taken)%nat).
      { intros Hx Hl. destruct limit as [|l]; [lia|]. simpl in Hs.
        rewrite Hx in Hs. destruct (spanTag x l rs). injection Hs as <- _.
        simpl. lia. }
      apply IH in Hm; [|simpl in Hlen; lia].
      destruct Hm as (t & r & -> & Hf & -> & Hi).
      exists taken, t, r. rewrite Hsplit.
      repeat split; auto.
      - now rewrite app_assoc.
      - rewrite Hf. simpl. rewrite rev_app_distr, <- !app_assoc. reflexivity.
      - rewrite length_app. lia.
      - now apply tags_repeat. }
    destruct (symbol_eqb q Q_MM) eqn:HMM.
    { apply symbol_eqb_eq in HMM. subst q.
      destruct rp as [|x rp'']; [discriminate|]. intros Hm.
      destruct (Hquant _ _ _ eq_refl Hm) as (taken & t & r & Hs & Hf & Hk & Ht & _ & _ & Hi).
      exists (taken ++ t)%list, r. repeat split; auto.
      rewrite map_app, Ht. now constructor. }
    destruct (symbol_eqb q Q_01) eqn:H01.
    { apply symbol_eqb_eq in H01. subst q.
      destruct rp as [|x rp'']; [discriminate|]. intros Hm.
      destruct (Hquant _ _ _ eq_refl Hm) as (taken & t & r & Hs & Hf & Hk & Ht & Hl & _ & Hi).
      exists (taken ++ t)%list, r. repeat split; auto.
      rewrite map_app, Ht. now constructor. }
    destruct (symbol_eqb q Q_1M) eqn:H1M.
    { apply symbol_eqb_eq in H1M. subst q.
      destruct rp as [|x rp'']; [discriminate|].
      destruct (symbol_eqb (f_tag f) x) eqn:Hx; [|discriminate]. intros Hm.
      destruct (Hquant _ _ _ eq_refl Hm) as (taken & t & r & Hs & Hf & Hk & Ht & _ & Hone & Hi).
      exists (taken ++ t)%list, r. repeat split; auto.
      rewrite map_app, Ht. constructor; auto. apply Hone; [exact Hx|simpl; lia]. }
    destruct (symbol_eqb (f_tag f) q) eqn:Hq; [|discriminate].
    apply symbol_eqb_eq in Hq. intros Hm.
    apply IH in Hm; [|simpl in Hlen; lia].
    destruct Hm as (t & r & -> & Hf & -> & Hi).
    exists (f :: t), r. repeat split.
    + rewrite Hf. simpl. rewrite <- app_assoc. reflexivity.
    + simpl. lia.
    + simpl. rewrite Hq. constructor; auto.
      now apply isQuantifier_false.
Qed.

Lemma xPathMatchStack_frames stack pattern m k :
  xPathMatchStack stack pattern = Some (m, k) ->
  stack = (popN k stack ++ matchFrames m)%list
  /\ length (matchFrames m) = k
  /\ (k <= length stack)%nat
  /\ instanceOf (rev pattern) (rev (map f_tag (matchFrames m))).
Proof.
  unfold xPathMatchStack. intros H.
  apply (matchRev_frames _ _ (le_n _)) in H.
  destruct H as (t & r & Hrs & Hf & -> & Hi).
  simpl in Hf. rewrite app_nil_r in Hf.
  assert (Hstack : stack = (rev r ++ rev t)%list).
  { rewrite <- rev_app_distr, <- Hrs. now rewrite rev_involutive. }
  rewrite Hf, length_rev. split; [|split; [|split]].
  - unfold popN. rewrite Hstack at 1 2 3. rewrite length_app, !length_rev.
    replace (length r + length t - (0 + length t))%nat with (length (rev r))
      by (rewrite length_rev; lia).
    rewrite take_app_length. reflexivity.
  - reflexivity.
  - rewrite Hstack, length_app, !length_rev. lia.
  - rewrite map_rev, rev_involutive. exact Hi.
Qed.

Lemma matchRev_plain t :
  forall r acc ml,
    forallb (fun f => negb (isQuantifier (f_tag f))) t = true ->
    matchRev (map f_tag t) (t ++ r) acc ml
    = Some ((rev (map MFrame t) ++ acc)%list, (ml + length t)%nat).
Proof.
  induction t as [|f t IH]; intros r acc ml Hq; simpl.
  - f_equal. f_equal. lia.
  - simpl in Hq. apply andb_prop in Hq. destruct Hq as [Hf Ht].
    apply negb_true_iff in Hf. unfold isQuantifier in Hf.
    apply orb_false_elim in Hf. destruct Hf as [Hf H1M].
    apply orb_false_elim in Hf. destruct Hf as [HMM H01].
    rewrite HMM, H01, H1M, symbol_eqb_refl.
    rewrite IH by exact Ht. rewrite <- app_assoc. simpl.
    f_equal. f_equal. lia.
Qed.

Lemma xPathMatchStack_plain below fs :
  forallb (fun f => negb (isQuantifier (f_tag f))) fs = true ->
  xPathMatchStack (below ++ fs) (map f_tag fs)
  = Some (map MFrame fs, length fs).
Proof.
  intros Hq. unfold xPathMatchStack.
  rewrite rev_app_distr, <- map_rev.
  rewrite matchRev_plain.
  - rewrite app_nil_r, map_rev, rev_involutive, length_rev. reflexivity.
  - rewrite forallb_forall in *. intros f Hf. apply Hq. now apply in_rev.
Qed.

Lemma instanceOf_plain rp ts :
  forallb (fun q => negb (isQuantifier q)) rp = true ->
  instanceOf rp ts -> ts = rp.
Proof.
  intros Hq Hi. induction Hi; simpl in Hq; try discriminate.
  - reflexivity.
  - apply andb_prop in Hq. destruct Hq as [_ Hq]. f_equal. auto.
Qed.

(** X1: a match of [xPathMatchStack] covers exactly the frames on top of
    the stack that [match.matchlength] counts, in the order of the stack,
    and the tags of these frames are an instance of the pattern. *)
Theorem xPathMatchStack_covers_top stack pattern m k :
  xPathMatchStack stack pattern = Some (m, k) ->
  stack = (popN k stack ++ matchFrames m)%list
  /\ length (matchFrames m) = k
  /\ (k <= length stack)%nat
  /\ instanceOf (rev pattern) (rev (map f_tag (matchFrames m))).
Proof. apply xPathMatchStack_frames. Qed.

Lemma xPathMatchStack_covers_top_witness :
  filterStack
  = (popN 3 filterStack
     ++ matchFrames [MFrame (Frame XPathPrimaryExpr 33 (VariableExpr "x"));
                     MQuant [Frame XPathPredicate 33 (PredicateExpr (NumberExpr "1"));
                             Frame XPathPredicate 33 (PredicateExpr (NumberExpr "2"))]])%list
  /\ length (matchFrames
       [MFrame (Frame XPathPrimaryExpr 33 (VariableExpr "x"));
        MQuant [Frame XPathPredicate 33 (PredicateExpr (NumberExpr "1"));
                Frame XPathPredicate 33 (PredicateExpr (NumberExpr "2"))]]) = 3%nat
  /\ (3 <= length filterStack)%nat
  /\ instanceOf (rev [XPathPrimaryExpr; XPathPredicate; Q_MM])
       (rev (map f_tag (matchFrames
          [MFrame (Frame XPathPrimaryExpr 33 (VariableExpr "x"));
           MQuant [Frame XPathPredicate 33 (PredicateExpr (NumberExpr "1"));
                   Frame XPathPredicate 33 (PredicateExpr (NumberExpr "2"))]]))).
Proof.
  apply (xPathMatchStack_covers_top filterStack
           [XPathPrimaryExpr; XPathPredicate; Q_MM]).
  reflexivity.
Defined.

(** X2: for a pattern without quantifiers, [xPathMatchStack] succeeds
    exactly when the tags of the frames on top of the stack spell the
    pattern, and the match is then these frames, one entry each. *)
Theorem xPathMatchStack_plain_iff stack pattern m k :
  forallb (fun q => negb (isQuantifier q)) pattern = true ->
  xPathMatchStack stack pattern = Some (m, k) <->
  exists below fs, stack = (below ++ fs)%list /\ map f_tag fs = pattern
    /\ m = map MFrame fs /\ k = length pattern.
Proof.
  intros Hq. split.
  - intros H. pose proof (xPathMatchStack_frames _ _ _ _ H) as (Hs & Hl & _ & Hi).
    apply instanceOf_plain in Hi.
    2:{ rewrite forallb_forall in *. intros q Hin. apply Hq. now apply in_rev. }
    apply (f_equal (@rev symbol)) in Hi. rewrite !rev_involutive in Hi.
    exists (popN k stack), (matchFrames m). split; [exact Hs|]. split; [exact Hi|].
    assert (Hq' : forallb (fun f => negb (isQuantifier (f_tag f))) (matchFrames m) = true).
    { rewrite forallb_forall in *. intros f Hf. apply Hq. rewrite <- Hi.
      now apply in_map. }
    pose proof (xPathMatchStack_plain (popN k stack) _ Hq') as H'.
    rewrite <- Hs, Hi, H in H'. injection H' as Hm Hk.
    split; [exact Hm|]. rewrite Hk, <- Hi. now rewrite length_map.
  - intros (below & fs & -> & <- & -> & ->).
    rewrite xPathMatchStack_plain.
    + now rewrite length_map.
    + rewrite forallb_forall in *. intros f Hf. apply Hq. now apply in_map.
Qed.

Lemma xPathMatchStack_plain_iff_witness :
  xPathMatchStack
    [Frame XPathRelativeLocationPath 31 (LocationExpr false []);
     Frame TOK_SLASH 30 (TokenExpr "/");
     Frame XPathStep 33 (StepExpr "child" (NodeTestName "a") [] false)]
    [TOK_SLASH; XPathStep]
  = Some ([MFrame (Frame TOK_SLASH 30 (TokenExpr "/"));
           MFrame (Frame XPathStep 33 (StepExpr "child" (NodeTestName "a") [] false))],
          2%nat)
  <-> exists below fs,
        [Frame XPathRelativeLocationPath 31 (LocationExpr false []);
         Frame TOK_SLASH 30 (TokenExpr "/");
         Frame XPathStep 33 (StepExpr "child" (NodeTestName "a") [] false)]
        = (below ++ fs)%list
        /\ map f_tag fs = [TOK_SLASH; XPathStep]
        /\ [MFrame (Frame TOK_SLASH 30 (TokenExpr "/"));
            MFrame (Frame XPathStep 33 (StepExpr "child" (NodeTestName "a") [] false))]
           = map MFrame fs
        /\ 2%nat = length [TOK_SLASH; XPathStep].
Proof.
  apply (xPathMatchStack_plain_iff _ [TOK_SLASH; XPathStep]). reflexivity.
Defined.

(** ** The bins of [xPathParseInit] *)

Lemma last_rev_head {A} (l : list A) x :
  last l = Some x -> exists l', rev l = x :: l'.
Proof.
  intros H. apply last_Some in H. destruct H as [l' ->].
  exists (rev l'). now rewrite rev_app_distr.
Qed.

(** A match of an anchored pattern takes the frame on top of the stack,
    and the binning loop of [xPathParseInit] files the rule under the tag
    of that frame. *)
Lemma matchRev_top n :
  forall rp, (length rp <= n)%nat ->
  forall rs acc ml m k,
    matchRev rp rs acc ml = Some (m, k) ->
    anchored rp = true ->
    exists top rs', rs = top :: rs' /\ In (f_tag top) (binSymbols rp).
Proof.
  induction n as [|n IH]; intros rp Hlen rs acc ml m k.
  - destruct rp; [|simpl in Hlen; lia]. discriminate 2.
  - destruct rp as [|q rp]; [discriminate 2|]. cbn [matchRev anchored binSymbols].
    destruct rs as [|f rs]; [discriminate|].
    assert (Hquant : forall limit x rp'',
      (0 < limit)%nat -> (length rp'' <= n)%nat ->
      (let '(taken, rest) := spanTag x limit (f :: rs) in
       matchRev rp'' rest (MQuant (rev taken) :: acc) (ml + length taken))
      = Some (m, k) ->
      anchored rp'' = true ->
      exists top rs', f :: rs = top :: rs'
        /\ In (f_tag top) (x :: binSymbols rp'')).
    { intros limit x rp'' Hl Hn Hm Ha. exists f, rs. split; [reflexivity|].
      destruct limit as [|l]; [lia|]. simpl in Hm.
      destruct (symbol_eqb (f_tag f) x) eqn:Hx.
      - left. symmetry. now apply symbol_eqb_eq.
      - right. apply (IH _ Hn) in Hm; [|exact Ha].
        destruct Hm as (top & rs' & [= <- <-] & Hin). exact Hin. }
    destruct (symbol_eqb q Q_MM) eqn:HMM.
    { assert (H1M : symbol_eqb q Q_1M = false).
      { apply symbol_eqb_eq in HMM. now subst q. }
      rewrite H1M. cbn [orb].
      destruct rp as [|x rp'']; [discriminate|]. intros Hm Ha.
      apply (Hquant (length (f :: rs)) x rp''); auto; simpl in *; lia. }
    destruct (symbol_eqb q Q_01) eqn:H01.
    { assert (H1M : symbol_eqb q Q_1M = false).
      { apply symbol_eqb_eq in H01. now subst q. }
      rewrite H1M. cbn [orb].
      destruct rp as [|x rp'']; [discriminate|]. intros Hm Ha.
      apply (Hquant 2%nat x rp''); auto; simpl in *; lia. }
    cbn [orb].
    destruct (symbol_eqb q Q_1M) eqn:H1M.
    { destruct rp as [|x rp'']; [discriminate|].
      destruct (symbol_eqb (f_tag f) x) eqn:Hx; [|discriminate].
      intros _ _. exists f, rs. split; [reflexivity|].
      left. symmetry. now apply symbol_eqb_eq. }
    destruct (symbol_eqb (f_tag f) q) eqn:Hq; [|discriminate].
    intros _ _. exists f, rs. split; [reflexivity|].
    left. symmetry. now apply symbol_eqb_eq.
Qed.

Lemma xPathMatchStack_top stack pattern m k top :
  xPathMatchStack stack pattern = Some (m, k) ->
  anchored (rev pattern) = true ->
  last stack = Some top ->
  In (f_tag top) (binSymbols (rev pattern)).
Proof.
  unfold xPathMatchStack. intros H Ha Hl.
  apply (matchRev_top _ _ (le_n _)) in H; [|exact Ha].
  destruct H as (top' & rs' & Hrs & Hin).
  apply last_rev_head in Hl. destruct Hl as [l' Hl].
  rewrite Hl in Hrs. injection Hrs as <- _. exact Hin.
Qed.

Lemma findGrammarRuleCandidate_copies I r (l : list symbol) rest stack :
  ~ ruleMatches stack r ->
  findGrammarRuleCandidate I (map (fun _ => r) l ++ rest) stack
  = findGrammarRuleCandidate I rest stack.
Proof.
  intros Hno. induction l as [|x l IH]; simpl; [reflexivity|].
  destruct (xPathMatchStack stack (r_pattern r)) as [[[|m ms] ml]|] eqn:Hm; auto.
  exfalso. apply Hno. now exists m, ms, ml.
Qed.

(** Looking in the bin of the tag on top of the stack finds the rule a
    scan of the whole table finds. *)
Lemma bins_scan I top stack rules :
  Forall (fun r => anchored (rev (r_pattern r)) = true) rules ->
  last stack = Some top ->
  findGrammarRuleCandidate I
    (flat_map
       (fun r =>
          map (fun _ => r)
            (List.filter (fun x => bool_decide (key I x = key I (f_tag top)))
               (binSymbols (rev (r_pattern r)))))
       rules) stack
  = findGrammarRuleCandidate I rules stack.
Proof.
  intros Ha Hl. induction Ha as [|r rules Hr _ IH]; [reflexivity|].
  cbn [flat_map findGrammarRuleCandidate].
  destruct (xPathMatchStack stack (r_pattern r)) as [[[|m ms] ml]|] eqn:Hm.
  - rewrite findGrammarRuleCandidate_copies; [exact IH|].
    intros (m & ms & ml' & H). congruence.
  - pose proof (xPathMatchStack_top _ _ _ _ _ Hm Hr Hl) as Hin.
    assert (Hf : In (f_tag top)
                   (List.filter (fun x => bool_decide (key I x = key I (f_tag top)))
                      (binSymbols (rev (r_pattern r))))).
    { apply filter_In. split; [exact Hin|]. now apply bool_decide_eq_true. }
    destruct (List.filter _ (binSymbols (rev (r_pattern r)))) as [|y ys];
      [destruct Hf|].
    simpl. now rewrite Hm.
  - rewrite findGrammarRuleCandidate_copies; [exact IH|].
    intros (m & ms & ml' & H). congruence.
Qed.

Lemma grammar_anchored :
  Forall (fun r => anchored (rev (r_pattern r)) = true) sortedGrammarRules.
Proof.
  apply List.Forall_forall. apply forallb_forall. vm_compute. reflexivity.
Qed.

Lemma findGrammarRuleCandidate_empty I rules :
  Forall (fun r => anchored (rev (r_pattern r)) = true) rules ->
  findGrammarRuleCandidate I rules [] = None.
Proof.
  induction 1 as [|r rules Hr _ IH]; [reflexivity|]. simpl.
  unfold xPathMatchStack. simpl.
  destruct (rev (r_pattern r)); [discriminate|]. exact IH.
Qed.

Lemma stackCandidate_scan I stack :
  stackCandidate I stack = findGrammarRuleCandidate I sortedGrammarRules stack.
Proof.
  unfold stackCandidate. destruct (last stack) as [top|] eqn:Hl.
  - unfold xPathRules. now apply bins_scan; [apply grammar_anchored|].
  - apply last_None in Hl. subst stack. symmetry.
    apply findGrammarRuleCandidate_empty, grammar_anchored.
Qed.

Lemma insertByLength_In r l x :
  In x (insertByLength r l) <-> x = r \/ In x l.
Proof.
  induction l as [|y l IH]; simpl.
  - intuition.
  - destruct (Nat.ltb _ _); simpl; [intuition|]. rewrite IH. intuition.
Qed.

Lemma sortedGrammarRules_In x :
  In x sortedGrammarRules <-> In x xPathGrammarRules.
Proof.
  unfold sortedGrammarRules.
  assert (H : forall l acc,
    In x (fold_left (fun acc r => insertByLength r acc) l acc)
    <-> In x l \/ In x acc).
  { induction l as [|r l IH]; intros acc; simpl; [intuition|].
    rewrite IH, insertByLength_In. intuition. }
  rewrite H. simpl. intuition.
Qed.

Lemma descending_split before r after :
  descendingByLength (before ++ r :: after) = true ->
  forall r', In r' after ->
    (length (r_pattern r') <= length (r_pattern r))%nat.
Proof.
  induction before as [|b before IH]; simpl; intros H r' Hin.
  - apply andb_prop in H. destruct H as [H _].
    rewrite forallb_forall in H. apply Nat.leb_le. now apply H.
  - apply andb_prop in H. destruct H as [_ H]. now apply IH.
Qed.

Lemma grammar_descending : descendingByLength sortedGrammarRules = true.
Proof. vm_compute. reflexivity. Qed.

Lemma ruleMatches_dec stack r : ruleMatches stack r \/ ~ ruleMatches stack r.
Proof.
  unfold ruleMatches.
  destruct (xPathMatchStack stack (r_pattern r)) as [[[|m ms] ml]|] eqn:Hm.
  - right. intros (m & ms & ml' & H). discriminate.
  - left. now exists m, ms, ml.
  - right. intros (m & ms & ml' & H). discriminate.
Qed.

(** The loop of [findGrammarRuleCandidate] stops at the first rule that
    matches. *)
Lemma findGrammarRuleCandidate_first I stack before r after m ml :
  Forall (fun r' => ~ ruleMatches stack r') before ->
  xPathMatchStack stack (r_pattern r) = Some (m, ml) -> m <> [] ->
  findGrammarRuleCandidate I (before ++ r :: after) stack
  = Some (Candidate r m ml (xPathGrammarPrecedence I r)).
Proof.
  intros Hb Hm Hne. induction Hb as [|r' before Hr' _ IH]; simpl.
  - rewrite Hm. destruct m; [congruence|reflexivity].
  - destruct (xPathMatchStack stack (r_pattern r')) as [[[|x xs] k]|] eqn:Hx;
      try exact IH.
    elim Hr'. now exists x, xs, k.
Qed.

(** The candidate [xPathReduce] computes through the bins is the
    candidate the grammar gives the stack. *)
Lemma stackCandidate_candidateOf I stack c :
  stackCandidate I stack = Some c <-> candidateOf I stack c.
Proof.
  rewrite stackCandidate_scan. split.
  - intros H. apply findGrammarRuleCandidate_Some in H.
    destruct H as (b & a & H). now exists b, a.
  - intros (b & a & Hs & Hb & Hm & Hne & Hp). rewrite Hs.
    rewrite (findGrammarRuleCandidate_first I stack b _ a _ _ Hb Hm Hne).
    destruct c as [r m ml p]. simpl in *. now rewrite Hp.
Qed.

Lemma candidateOf_grammar I stack c :
  candidateOf I stack c ->
  In (c_rule c) xPathGrammarRules
  /\ forall r, In r xPathGrammarRules -> ruleMatches stack r ->
       (length (r_pattern r) <= length (r_pattern (c_rule c)))%nat.
Proof.
  intros (before & after & Hs & Hno & Hm & Hne & Hp). split.
  - apply sortedGrammarRules_In. rewrite Hs. apply in_or_app. right. now left.
  - intros r Hin Hr. apply sortedGrammarRules_In in Hin. rewrite Hs in Hin.
    apply in_app_or in Hin. destruct Hin as [Hin|[<-|Hin]].
    + rewrite List.Forall_forall in Hno. now destruct (Hno r Hin).
    + lia.
    + pose proof grammar_descending as Hd. rewrite Hs in Hd.
      now apply (descending_split _ _ _ Hd).
Qed.

Lemma candidateOf_exists I stack :
  (exists c, candidateOf I stack c) <->
  exists r, In r xPathGrammarRules /\ ruleMatches stack r.
Proof.
  split.
  - intros [c Hc]. exists (c_rule c). split; [now apply (candidateOf_grammar I stack)|].
    destruct Hc as (_ & _ & _ & _ & Hm & Hne & _).
    destruct (c_match c) as [|m ms]; [congruence|].
    now exists m, ms, (c_matchlength c).
  - intros (r & Hin & Hm).
    destruct (findGrammarRuleCandidate I sortedGrammarRules stack) as [c|] eqn:Hc.
    + exists c. apply stackCandidate_candidateOf. now rewrite stackCandidate_scan.
    + apply findGrammarRuleCandidate_None in Hc.
      rewrite List.Forall_forall in Hc. exfalso.
      apply (Hc r); [now apply sortedGrammarRules_In|exact Hm].
Qed.

(** C2: [xPathReduce] performs a reduction if and only if a rule of the
    grammar matches the stack and, for the candidate of the stack, the
    look-ahead is the end of the input, or the precedence of the
    candidate is strictly greater than that of the look-ahead, or the
    look-ahead is left-associative and the precedence of the candidate
    is at least that of the look-ahead.  The candidate exists exactly
    when some rule of the grammar matches the stack; it is unique, its
    rule is a rule of the grammar that matches the stack, and no rule
    that matches has a longer pattern.  A reduction pops the matched
    frames and pushes the frame of the candidate, or raises what the
    factory function raises.  Otherwise the function returns false and
    the look-ahead, when there is one, is pushed on the stack. *)
Theorem xPathReduce_iff I stack ahead :
  ((exists c, candidateOf I stack c) <->
   exists r, In r xPathGrammarRules /\ ruleMatches stack r)
  /\ (forall c, candidateOf I stack c ->
        In (c_rule c) xPathGrammarRules
        /\ (forall c', candidateOf I stack c' -> c' = c)
        /\ forall r, In r xPathGrammarRules -> ruleMatches stack r ->
             (length (r_pattern r) <= length (r_pattern (c_rule c)))%nat)
  /\ (forall stack',
        xPathReduce I stack ahead = Ok (true, stack') <->
        exists c e, candidateOf I stack c /\ reducesSpec I c ahead
          /\ candidateExpr I c = Ok e
          /\ stack' = (popN (c_matchlength c) stack ++ [reducedFrame c e])%list)
  /\ (forall x,
        xPathReduce I stack ahead = Throw x <->
        exists c, candidateOf I stack c /\ reducesSpec I c ahead
          /\ candidateExpr I c = Throw x)
  /\ (forall stack',
        xPathReduce I stack ahead = Ok (false, stack') <->
        ~ (exists c, candidateOf I stack c /\ reducesSpec I c ahead)
        /\ stack' = match ahead with
                    | Some a => (stack ++ [a])%list
                    | None => stack
                    end).
Proof.
  destruct (xPathReduce_cases I stack ahead) as (Hred & Hthrow & Hshift).
  split; [apply candidateOf_exists|]. split.
  - intros c Hc. destruct (candidateOf_grammar I stack c Hc) as [Hin Hlong].
    split; [exact Hin|]. split; [|exact Hlong].
    intros c' Hc'. apply stackCandidate_candidateOf in Hc, Hc'. congruence.
  - split; [|split].
    + intros stack'. rewrite Hred. split.
      * intros (c & e & Hc & H). exists c, e.
        split; [now apply stackCandidate_candidateOf|exact H].
      * intros (c & e & Hc & H). exists c, e.
        split; [now apply stackCandidate_candidateOf|exact H].
    + intros x. rewrite Hthrow. split.
      * intros (c & Hc & H). exists c.
        split; [now apply stackCandidate_candidateOf|exact H].
      * intros (c & Hc & H). exists c.
        split; [now apply stackCandidate_candidateOf|exact H].
    + intros stack'. rewrite Hshift. split.
      * intros [Hn Hs]. split; [|exact Hs]. intros (c & Hc & H). apply Hn.
        exists c. split; [now apply stackCandidate_candidateOf|exact H].
      * intros [Hn Hs]. split; [|exact Hs]. intros (c & Hc & H). apply Hn.
        exists c. split; [now apply stackCandidate_candidateOf|exact H].
Qed.

(** On the stack [/ a] of the sample the rule of the relative path is
    the candidate: at the end of the input it is reduced. *)
Example xPathReduce_sample :
  exists stack', xPathReduce Sample.imports
                   [Frame TOK_SLASH 0 (TokenExpr "/");
                    Frame TOK_QNAME 0 (TokenExpr "a")] None
                 = Ok (true, stack').
Proof. eexists. vm_compute. reflexivity. Qed.

(** X3: the sorting and binning of [xPathParseInit] lose no rule: the
    candidate [xPathReduce] computes exists exactly when some rule of the
    grammar matches the stack, it is a rule of the grammar that matches,
    and no rule of the grammar that matches has a longer pattern,
    whatever keys the token table gives the symbols. *)
Theorem candidate_is_longest_match I stack :
  ((exists c, stackCandidate I stack = Some c) <->
   exists r, In r xPathGrammarRules /\ ruleMatches stack r)
  /\ forall c, stackCandidate I stack = Some c ->
       In (c_rule c) xPathGrammarRules
       /\ xPathMatchStack stack (r_pattern (c_rule c))
          = Some (c_match c, c_matchlength c)
       /\ c_match c <> []
       /\ c_prec c = xPathGrammarPrecedence I (c_rule c)
       /\ forall r, In r xPathGrammarRules -> ruleMatches stack r ->
            (length (r_pattern r) <= length (r_pattern (c_rule c)))%nat.
Proof.
  rewrite stackCandidate_scan. split.
  - split.
    + intros [c Hc]. apply findGrammarRuleCandidate_Some in Hc.
      destruct Hc as (before & after & Hs & _ & Hm & Hne & _).
      exists (c_rule c). split.
      * apply sortedGrammarRules_In. rewrite Hs. apply in_or_app. right. now left.
      * destruct (c_match c) as [|m ms]; [congruence|].
        now exists m, ms, (c_matchlength c).
    + intros (r & Hin & Hm).
      destruct (findGrammarRuleCandidate I sortedGrammarRules stack) as [c|] eqn:Hc;
        [now exists c|].
      apply findGrammarRuleCandidate_None in Hc.
      rewrite List.Forall_forall in Hc. exfalso.
      apply (Hc r); [now apply sortedGrammarRules_In|exact Hm].
  - intros c Hc. apply findGrammarRuleCandidate_Some in Hc.
    destruct Hc as (before & after & Hs & Hno & Hm & Hne & Hp).
    split; [|split; [exact Hm|split; [exact Hne|split; [exact Hp|]]]].
    + apply sortedGrammarRules_In. rewrite Hs. apply in_or_app. right. now left.
    + intros r Hin Hr. apply sortedGrammarRules_In in Hin. rewrite Hs in Hin.
      apply in_app_or in Hin. destruct Hin as [Hin|[<-|Hin]].
      * rewrite List.Forall_forall in Hno. now destruct (Hno r Hin).
      * lia.
      * pose proof grammar_descending as Hd. rewrite Hs in Hd.
        now apply (descending_split _ _ _ Hd).
Qed.

(** ** The effect of a reduction on the stack *)

Lemma reduce_effect I stack ahead stack' :
  xPathReduce I stack ahead = Ok (true, stack') ->
  exists below popped r e,
    stack = (below ++ popped)%list
    /\ popped <> []
    /\ In r xPathGrammarRules
    /\ instanceOf (rev (r_pattern r)) (rev (map f_tag popped))
    /\ stack' = (below ++ [Frame (r_target r) (xPathGrammarPrecedence I r) e])%list
    /\ (length stack' <= length stack)%nat.
Proof.
  intros H. apply reduce_true_inv in H. destruct H as (c & e & Hc & ->).
  pose proof (stackCandidate_lowers _ _ _ Hc) as [Hk Hw].
  rewrite stackCandidate_scan in Hc.
  apply findGrammarRuleCandidate_Some in Hc.
  destruct Hc as (before & after & Hs & _ & Hm & _ & Hp).
  pose proof (xPathMatchStack_frames _ _ _ _ Hm) as (Hst & Hl & _ & Hi).
  assert (Hpos : (1 <= c_matchlength c)%nat).
  { destruct (c_matchlength c) as [|k]; [|lia].
    rewrite Nat.sub_0_r, drop_all in Hw. unfold stackWeight in Hw.
    simpl in Hw. lia. }
  exists (popN (c_matchlength c) stack), (matchFrames (c_match c)), (c_rule c), e.
  split; [exact Hst|]. split.
  { intros Hnil. rewrite Hnil in Hl. simpl in Hl. lia. }
  split.
  { apply sortedGrammarRules_In. rewrite Hs. apply in_or_app. right. now left. }
  split; [exact Hi|]. split.
  { unfold reducedFrame. now rewrite Hp. }
  rewrite length_app. unfold popN. rewrite length_take.
  change (length [reducedFrame c e]) with 1%nat. lia.
Qed.

(** X4: a reduction of [xPathReduce] replaces the frames on top of the
    stack, at least one, whose tags are an instance of the pattern of a
    rule of the grammar, by one frame with the target of the rule and the
    precedence of the candidate; the frames below stay as they are and
    the stack does not grow. *)
Theorem reduce_replaces_top I stack ahead stack' :
  xPathReduce I stack ahead = Ok (true, stack') ->
  exists below popped r e,
    stack = (below ++ popped)%list
    /\ popped <> []
    /\ In r xPathGrammarRules
    /\ instanceOf (rev (r_pattern r)) (rev (map f_tag popped))
    /\ stack' = (below ++ [Frame (r_target r) (xPathGrammarPrecedence I r) e])%list
    /\ (length stack' <= length stack)%nat.
Proof. apply reduce_effect. Qed.

Lemma reduce_replaces_top_witness :
  exists below popped r e,
    [Frame TOK_SLASH 30 (TokenExpr "/"); Frame TOK_QNAME 0 (TokenExpr "a")]
    = (below ++ popped)%list
    /\ popped <> []
    /\ In r xPathGrammarRules
    /\ instanceOf (rev (r_pattern r)) (rev (map f_tag popped))
    /\ [Frame TOK_SLASH 30 (TokenExpr "/");
        Frame XPathNodeTest 33 (NodeTestName "a")]
       = (below ++ [Frame (r_target r)
                      (xPathGrammarPrecedence Sample.imports r) e])%list
    /\ (length [Frame TOK_SLASH 30 (TokenExpr "/");
                Frame XPathNodeTest 33 (NodeTestName "a")]
        <= length [Frame TOK_SLASH 30 (TokenExpr "/");
                   Frame TOK_QNAME 0 (TokenExpr "a")])%nat.
Proof.
  apply (reduce_replaces_top Sample.imports _ None). vm_compute. reflexivity.
Defined.

(** ** The precedence of a candidate *)

Lemma fold_max_bounds I (l : list symbol) :
  forall ret,
    let p := fold_left (fun ret t => Z.max ret (xPathTokenPrecedence I t)) l ret in
    (ret <= p)%Z
    /\ (forall t, In t l -> (xPathTokenPrecedence I t <= p)%Z)
    /\ (p = ret \/ exists t, In t l /\ p = xPathTokenPrecedence I t).
Proof.
  induction l as [|x l IH]; intros ret; simpl.
  - repeat split; [lia|intros t []|now left].
  - specialize (IH (Z.max ret (xPathTokenPrecedence I x))). simpl in IH.
    destruct IH as (Hle & Hall & Hex). repeat split.
    + lia.
    + intros t [<-|Hin]; [lia|auto].
    + destruct Hex as [Hex|(t & Hin & Hex)].
      * destruct (Z.max_spec ret (xPathTokenPrecedence I x)) as [[_ Hm]|[_ Hm]].
        -- right. exists x. split; [now left|]. now rewrite Hex.
        -- left. now rewrite Hex.
      * right. exists t. split; [now right|exact Hex].
Qed.

(** X5: the precedence [xPathGrammarPrecedence] gives a candidate is
    never negative: it is the precedence of the rule when that one is not
    negative, and otherwise the greatest of 0 and the token precedences
    of the symbols of the pattern, so the mark -1 of the grammar table is
    never compared with the precedence of a look-ahead. *)
Theorem candidate_precedence I r :
  (0 <= xPathGrammarPrecedence I r)%Z
  /\ ((0 <= r_prec r)%Z -> xPathGrammarPrecedence I r = r_prec r)
  /\ ((r_prec r < 0)%Z ->
      (forall t, In t (r_pattern r) ->
         (xPathTokenPrecedence I t <= xPathGrammarPrecedence I r)%Z)
      /\ (xPathGrammarPrecedence I r = 0%Z
          \/ exists t, In t (r_pattern r)
               /\ xPathGrammarPrecedence I r = xPathTokenPrecedence I t)).
Proof.
  unfold xPathGrammarPrecedence.
  pose proof (fold_max_bounds I (r_pattern r) 0%Z) as (Hle & Hall & Hex).
  simpl in *. destruct (Z.leb_spec 0 (r_prec r)) as [Hp|Hp].
  - split; [exact Hp|split; [reflexivity|intros; lia]].
  - split; [exact Hle|split; [intros; lia|intros _; split; [exact Hall|exact Hex]]].
Qed.

(** ** The work of the lexer *)

Lemma firstMatch_count I rules e r m k :
  firstMatch I rules e = (r, m, k) -> (k <= length rules)%nat.
Proof.
  revert r m k. induction rules as [|t rules IH]; intros r m k; simpl.
  - intros [= <- <- <-]. lia.
  - destruct (exec I t e) as [m'|].
    + destruct (JS.nonEmpty m').
      * intros [= <- <- <-]. lia.
      * destruct (firstMatch I rules e) as [[r' m''] k'] eqn:Hf.
        intros [= <- <- <-]. specialize (IH _ _ _ eq_refl). lia.
    + destruct (firstMatch I rules e) as [[r' m''] k'] eqn:Hf.
      intros [= <- <- <-]. specialize (IH _ _ _ eq_refl). lia.
Qed.

Lemma findXPathRuleForExpression_count I e previous r m k :
  findXPathRuleForExpression I e previous = (r, m, k) ->
  (k <= length (xPathTokenRules I))%nat.
Proof.
  unfold findXPathRuleForExpression.
  destruct (firstMatch I (xPathTokenRules I) e) as [[r' m'] k'] eqn:Hf.
  apply firstMatch_count in Hf.
  destruct r' as [t|]; [destruct (_ && _)|]; intros [= <- <- <-]; exact Hf.
Qed.

Lemma parseLoop_count I fuel :
  forall expression stack ahead n,
    (snd (parseLoop fuel I expression stack ahead n)
     <= n + S (String.length expression) * length (xPathTokenRules I))%nat.
Proof.
  induction fuel as [|fuel IH]; intros expression stack ahead n; [simpl; lia|].
  cbn [parseLoop].
  destruct (findXPathRuleForExpression I (JS.trimStart expression) ahead)
    as [[[t|] m] k] eqn:Hf.
  - pose proof (token_consumes _ _ _ _ _ _ Hf) as Hc.
    pose proof (length_trimStart expression) as Ht.
    pose proof (findXPathRuleForExpression_count _ _ _ _ _ _ Hf) as Hk.
    destruct (reduceAll I stack _) as [stack'|x|].
    + etransitivity; [apply IH|]. nia.
    + simpl. nia.
    + simpl. nia.
  - pose proof (findXPathRuleForExpression_count _ _ _ _ _ _ Hf) as Hk.
    simpl. nia.
Qed.

(** X6: the shortcuts of [xPathParse] leave [lexerCount] as it is; the
    shift/reduce parser sets it to the number of regular expressions the
    lexer has run, which is at most the number of token rules times the
    length of the expression plus one, since every token takes at least
    one character. *)
Theorem lexer_work_is_bounded I expression axis this :
  (JS.matchesSimple expression = true \/ JS.matchesChain expression = true ->
   lexerCount (snd (xPathParse I expression axis this)) = lexerCount this)
  /\ (JS.matchesSimple expression = false ->
      JS.matchesChain expression = false ->
      lexerCount (snd (xPathParse I expression axis this))
      = snd (parseStack I expression)
      /\ (snd (parseStack I expression)
          <= S (String.length expression) * length (xPathTokenRules I))%nat).
Proof.
  split.
  - unfold xPathParse. intros [H|H].
    + rewrite H. apply lexerCount_setCache.
    + destruct (JS.matchesSimple expression); [apply lexerCount_setCache|].
      rewrite H. apply lexerCount_setCache.
  - intros H1 H2. split.
    + unfold xPathParse. rewrite H1, H2.
      destruct (parseStack I expression) as [r n]. simpl.
      destruct r as [[|f [|f' stack]]|x|]; try reflexivity.
      destruct (overrideAxis axis expression (f_expr f)); try reflexivity.
      apply lexerCount_setCache.
    + unfold parseStack. apply (parseLoop_count I _ expression [] None 0%nat).
Qed.

(** ** The flag of a positional predicate in the sample

    The cases of section 8 of the specification, parsed with the sample
    table. *)
Example positional_flag_examples :
  map secondStepFlag
    ["//a"; "//a[1]"; "//a[last()]"; "//a[position()=1]";
     "//a[@foo and position()=2]"; "//a[0+1]"; "//a[string-length('bar')]";
     "//a[@foo]"; "//a[@foo='1']"; "//a[b[1]]"]
  = map Some [false; true; true; true; true; true; true; false; false; false].
Proof. vm_compute. reflexivity. Qed.

(** ** The cache is written and never read *)

(** What [xPathParse] returns or throws does not depend on the state
    of the parser object: an expression stored in the cache by an earlier
    call is never returned, and the count of the lexer is started anew by
    the shift/reduce parser. *)
Lemma parse_never_reads_cache I expression axis this this' :
  fst (xPathParse I expression axis this)
  = fst (xPathParse I expression axis this')
  /\ (JS.matchesSimple expression = false ->
      JS.matchesChain expression = false ->
      lexerCount (snd (xPathParse I expression axis this))
      = lexerCount (snd (xPathParse I expression axis this'))).
Proof.
  unfold xPathParse.
  destruct (JS.matchesSimple expression); [split; [reflexivity|discriminate]|].
  destruct (JS.matchesChain expression); [split; [reflexivity|discriminate]|].
  destruct (parseStack I expression) as [r n].
  destruct r as [[|f [|f' stack]]|x|]; try (split; reflexivity).
  destruct (overrideAxis axis expression (f_expr f)); split; try reflexivity.
  intros _ _. cbn [snd]. now rewrite !lexerCount_setCache.
Qed.

(** ** The axis argument and the shortcuts *)

(** X7: of the inputs the shortcuts of [xPathParse] answer, only a bare
    name that is not a number takes the axis argument into account: its
    one step gets the axis, or [child] when the axis is missing or empty.
    For a variable reference, an attribute, a number and a chain of names
    the axis argument is ignored. *)
Theorem shortcut_axis I expression axis this :
  JS.matchesSimple expression = true \/ JS.matchesChain expression = true ->
  (JS.matchesSimple expression = true ->
   JS.charAt0_is "$" expression = false ->
   JS.charAt0_is "@" expression = false ->
   JS.matchesDigits expression = false ->
   fst (xPathParse I expression axis this)
   = Ok (LocationExpr false
           [StepExpr (orElse axis "child") (NodeTestName expression) [] false]))
  /\ (JS.matchesSimple expression = false
      \/ JS.charAt0_is "$" expression = true
      \/ JS.charAt0_is "@" expression = true
      \/ JS.matchesDigits expression = true ->
      fst (xPathParse I expression axis this)
      = fst (xPathParse I expression None this)).
Proof.
  intros Hs. unfold xPathParse, makeSimpleExpr. split.
  - intros -> -> -> ->. reflexivity.
  - intros H. destruct (JS.matchesSimple expression) eqn:H1.
    + destruct H as [H|[H|[H|H]]]; [discriminate| | |].
      * rewrite H. reflexivity.
      * rewrite H. destruct (JS.charAt0_is "$" expression); reflexivity.
      * rewrite H. destruct (JS.charAt0_is "$" expression),
          (JS.charAt0_is "@" expression); reflexivity.
    + destruct Hs as [Hs|Hs]; [discriminate|]. rewrite Hs. reflexivity.
Qed.

Lemma shortcut_axis_witness :
  (JS.matchesSimple "page" = true ->
   JS.charAt0_is "$" "page" = false ->
   JS.charAt0_is "@" "page" = false ->
   JS.matchesDigits "page" = false ->
   fst (xPathParse Sample.imports "page" (Some "self-and-siblings") Sample.fresh)
   = Ok (LocationExpr false
           [StepExpr (orElse (Some "self-and-siblings") "child")
              (NodeTestName "page") [] false]))
  /\ (JS.matchesSimple "page" = false
      \/ JS.charAt0_is "$" "page" = true
      \/ JS.charAt0_is "@" "page" = true
      \/ JS.matchesDigits "page" = true ->
      fst (xPathParse Sample.imports "page" (Some "self-and-siblings") Sample.fresh)
      = fst (xPathParse Sample.imports "page" None Sample.fresh)).
Proof.
  apply (shortcut_axis Sample.imports "page"). left. reflexivity.
Defined.

(** ** The chain of names of [makeSimpleExpr2] *)

Lemma split_cons sep s : exists h t, JS.split sep s = h :: t.
Proof.
  induction s as [|c s (h & t & IH)]; simpl; [now eexists _, _|].
  destruct (Ascii.eqb c sep); [now eexists _, _|].
  rewrite IH. now eexists _, _.
Qed.

Lemma concat_split sep s :
  String.concat (String sep EmptyString) (JS.split sep s) = s.
Proof.
  induction s as [|c s IH]; simpl; [reflexivity|].
  destruct (split_cons sep s) as (h & t & Hs). rewrite Hs in *.
  destruct (Ascii.eqb c sep) eqn:Hc.
  - apply Ascii.eqb_eq in Hc. subst c.
    change (String.concat (String sep "") ("" :: h :: t))
      with (String sep (String.concat (String sep "") (h :: t))).
    now rewrite IH.
  - destruct t as [|x t].
    + simpl in *. now rewrite IH.
    + change (String.concat (String sep "") (String c h :: x :: t))
        with (String c (String.concat (String sep "") (h :: x :: t))).
      now rewrite IH.
Qed.

Lemma isWord_not_slash c : JS.isWord c = true -> Ascii.eqb c "/" = false.
Proof.
  intros H. destruct (Ascii.eqb c "/") eqn:Hc; [|reflexivity].
  apply Ascii.eqb_eq in Hc. subst c. discriminate.
Qed.

Lemma chainFrom_names s :
  forall seen, JS.chainFrom seen s = true ->
  exists h t, JS.split "/" s = h :: t
    /\ JS.forallb_string JS.isWord h = true
    /\ (seen = true \/ JS.nonEmpty h = true)
    /\ Forall (fun n => JS.wordPlus n = true) t.
Proof.
  induction s as [|c s IH]; intros seen; simpl.
  - intros ->. exists EmptyString, []. repeat split; auto.
  - destruct (JS.isWord c) eqn:Hw.
    + intros H. apply IH in H. destruct H as (h & t & Hs & Hh & _ & Ht).
      rewrite (isWord_not_slash _ Hw), Hs.
      exists (String c h), t. simpl. rewrite Hw, Hh. repeat split; auto.
    + destruct (Ascii.eqb c "/"); [|discriminate].
      intros H. apply andb_prop in H. destruct H as [-> H].
      apply IH in H. destruct H as (h & t & Hs & Hh & [Hne|Hne] & Ht);
        [discriminate|].
      rewrite Hs. exists EmptyString, (h :: t). repeat split; auto.
      constructor; [|exact Ht]. unfold JS.wordPlus. now rewrite Hne, Hh.
Qed.

(** X8: [makeSimpleExpr2] makes one [child] step with a name test for
    each piece of the expression between two [/]: there is at least one
    step, the names joined by [/] give the expression back, and for an
    expression of the pattern of the shortcut every name is a word that
    is not empty. *)
Theorem chain_steps_spell_expression expr :
  exists names,
    makeSimpleExpr2 expr
    = LocationExpr false
        (map (fun s => StepExpr "child" (NodeTestName s) [] false) names)
    /\ names <> []
    /\ String.concat "/" names = expr
    /\ (JS.matchesChain expr = true ->
        Forall (fun n => JS.wordPlus n = true) names).
Proof.
  exists (JS.split "/" expr). split; [reflexivity|]. split.
  { destruct (split_cons "/" expr) as (h & t & ->). discriminate. }
  split; [apply concat_split|].
  unfold JS.matchesChain. intros H. apply chainFrom_names in H.
  destruct H as (h & t & -> & Hh & [Hne|Hne] & Ht); [discriminate|].
  constructor; [|exact Ht]. unfold JS.wordPlus. now rewrite Hne, Hh.
Qed.

(** ** Blank expressions and leading white space *)

Lemma firstMatch_empty I rules :
  firstMatch I rules EmptyString = (None, EmptyString, length rules).
Proof.
  induction rules as [|t rules IH]; simpl; [reflexivity|].
  unfold exec. destruct (re I t "") as [[|n]|]; simpl; now rewrite IH.
Qed.

Lemma blank_trimStart s :
  JS.forallb_string JS.isSpace s = true -> JS.trimStart s = EmptyString.
Proof.
  induction s as [|c s IH]; simpl; [reflexivity|].
  intros H. apply andb_prop in H. destruct H as [-> H]. auto.
Qed.

Lemma isSpace_not_word c : JS.isSpace c = true -> JS.isWord c = false.
Proof.
  unfold JS.isSpace, JS.isWord. intros H.
  repeat match goal with
         | H : (_ || _) = true |- _ => apply orb_prop in H; destruct H as [H|H]
         | H : (_ && _) = true |- _ => apply andb_prop in H; destruct H as [? ?]
         | H : Nat.leb _ _ = true |- _ => apply Nat.leb_le in H
         | H : Nat.eqb _ _ = true |- _ => apply Nat.eqb_eq in H
         end;
  repeat match goal with
         | |- (_ || _) = false => apply orb_false_intro
         | |- (_ && _) = false => apply andb_false_iff
         end;
  try (apply Nat.eqb_neq; lia);
  try (left; apply Nat.leb_gt; lia); try (right; apply Nat.leb_gt; lia).
Qed.

Lemma isSpace_not_special c :
  JS.isSpace c = true ->
  Ascii.eqb c "$" = false /\ Ascii.eqb c "@" = false /\ Ascii.eqb c "/" = false.
Proof.
  intros H. repeat split;
    (match goal with |- Ascii.eqb c ?d = false =>
       destruct (Ascii.eqb c d) eqn:Hc; [|reflexivity];
       apply Ascii.eqb_eq in Hc; subst c; discriminate
     end).
Qed.

Lemma space_first_no_shortcut c s :
  JS.isSpace c = true ->
  JS.matchesSimple (String c s) = false /\ JS.matchesChain (String c s) = false.
Proof.
  intros H. pose proof (isSpace_not_word _ H) as Hw.
  destruct (isSpace_not_special _ H) as (Hd & Ha & Hs).
  unfold JS.matchesSimple, JS.matchesChain, JS.wordPlus. simpl.
  now rewrite Hw, Hd, Ha, Hs.
Qed.

Lemma blank_no_shortcut s :
  JS.forallb_string JS.isSpace s = true ->
  JS.matchesSimple s = false /\ JS.matchesChain s = false.
Proof.
  destruct s as [|c s]; [split; reflexivity|]. simpl. intros H.
  apply andb_prop in H. destruct H as [H _]. now apply space_first_no_shortcut.
Qed.

Lemma parseStack_blank I s :
  JS.forallb_string JS.isSpace s = true ->
  parseStack I s = (Ok [], length (xPathTokenRules I)).
Proof.
  intros H. unfold parseStack. cbn [parseLoop].
  rewrite (blank_trimStart _ H). unfold findXPathRuleForExpression.
  rewrite firstMatch_empty. reflexivity.
Qed.

(** X9: an expression that is empty or consists of white space alone is
    a parse error: the lexer tries every token rule once, no frame is
    pushed, and [xPathParse] throws the text of the parse error with an
    empty dump of the stack and leaves the cache as it was. *)
Theorem blank_expression_is_parse_error I expression axis this :
  JS.forallb_string JS.isSpace expression = true ->
  xPathParse I expression axis this
  = (Throw (ParseError ("XPath parse error " ++ expression ++ ":" ++ newline)),
     setLexerCount this (length (xPathTokenRules I))).
Proof.
  intros H. destruct (blank_no_shortcut _ H) as [H1 H2].
  unfold xPathParse. rewrite H1, H2, (parseStack_blank _ _ H).
  reflexivity.
Qed.

Lemma blank_expression_is_parse_error_witness :
  xPathParse Sample.imports "  " None Sample.fresh
  = (Throw (ParseError ("XPath parse error " ++ "  " ++ ":" ++ newline)),
     setLexerCount Sample.fresh (length (xPathTokenRules Sample.imports))).
Proof.
  apply (blank_expression_is_parse_error Sample.imports "  "). reflexivity.
Defined.

Lemma trimStart_blank_app ws s :
  JS.forallb_string JS.isSpace ws = true ->
  JS.trimStart (ws ++ s) = JS.trimStart s.
Proof.
  induction ws as [|c ws IH]; simpl; [reflexivity|].
  intros H. apply andb_prop in H. destruct H as [-> H]. auto.
Qed.

(** The parse loop does the same with every amount of fuel above the
    length of the input. *)
Lemma parseLoop_fuel I fuel :
  forall fuel' expression stack ahead n,
    (String.length expression < fuel)%nat ->
    (String.length expression < fuel')%nat ->
    parseLoop fuel I expression stack ahead n
    = parseLoop fuel' I expression stack ahead n.
Proof.
  induction fuel as [|fuel IH]; intros fuel' expression stack ahead n H1 H2; [lia|].
  destruct fuel' as [|fuel']; [lia|]. cbn [parseLoop].
  destruct (findXPathRuleForExpression I (JS.trimStart expression) ahead)
    as [[[t|] m] k] eqn:Hf; [|reflexivity].
  pose proof (token_consumes _ _ _ _ _ _ Hf) as Hc.
  pose proof (length_trimStart expression) as Ht.
  destruct (reduceAll I stack _) as [stack'|x|]; try reflexivity.
  apply IH; lia.
Qed.

Lemma length_append (a b : string) :
  String.length (a ++ b) = (String.length a + String.length b)%nat.
Proof. induction a as [|c a IH]; simpl; [reflexivity|]. now rewrite IH. Qed.

Lemma parseStack_leading_space I ws expression :
  JS.forallb_string JS.isSpace ws = true ->
  parseStack I (ws ++ expression) = parseStack I expression.
Proof.
  intros H. unfold parseStack.
  rewrite (parseLoop_fuel I _ (S (String.length (ws ++ expression))) expression);
    [|lia|rewrite length_append; lia].
  cbn [parseLoop]. now rewrite (trimStart_blank_app _ _ H).
Qed.

(** The guard of the axis reads the expression only for a [*] at its
    start. *)
Lemma overrideAxis_start axis e1 e2 result :
  JS.startsWith "*" e1 = JS.startsWith "*" e2 ->
  overrideAxis axis e1 result = overrideAxis axis e2 result.
Proof. intros H. unfold overrideAxis. now rewrite H. Qed.

Lemma space_not_star c s :
  JS.isSpace c = true -> JS.startsWith "*" (String c s) = false.
Proof.
  intros H. unfold JS.startsWith. cbn [String.prefix].
  destruct (Ascii.ascii_dec "*" c) as [<-|]; [discriminate|reflexivity].
Qed.

(** X10: white space before an expression changes nothing for the
    shift/reduce parser: the stack it is left with and the count of the
    lexer are those of the expression without the white space.  An
    expression that is none of the shortcut patterns and parses gives
    the same value with white space before it when no axis is given or
    the expression does not begin with [*]: the guard of the axis tests
    the text as it was passed, white space included. *)
Theorem leading_space_is_skipped I ws expression axis this this' :
  JS.forallb_string JS.isSpace ws = true ->
  parseStack I (ws ++ expression) = parseStack I expression
  /\ (JS.matchesSimple expression = false ->
      JS.matchesChain expression = false ->
      axis = None \/ JS.startsWith "*" expression = false ->
      forall e, fst (xPathParse I expression axis this) = Ok e ->
        fst (xPathParse I (ws ++ expression) axis this') = Ok e).
Proof.
  intros H. split; [now apply parseStack_leading_space|].
  intros H1 H2 Hax e. destruct ws as [|c ws].
  { change ("" ++ expression) with expression.
    unfold xPathParse. rewrite H1, H2.
    destruct (parseStack I expression) as [r n].
    destruct r as [[|f [|f' stack]]|x|]; simpl; auto.
    destruct (overrideAxis axis expression (f_expr f)); simpl; auto. }
  simpl in H. apply andb_prop in H. destruct H as [Hc Hws].
  destruct (space_first_no_shortcut c (ws ++ expression) Hc) as [H3 H4].
  change (String c ws ++ expression) with (String c (ws ++ expression)).
  unfold xPathParse. rewrite H1, H2, H3, H4.
  assert (Hov : forall result,
            overrideAxis axis (String c (ws ++ expression)) result
            = overrideAxis axis expression result).
  { intros result. destruct Hax as [->|Hstar]; [reflexivity|].
    apply overrideAxis_start. now rewrite space_not_star, Hstar. }
  change (String c (ws ++ expression)) with (String c ws ++ expression) at 1.
  rewrite (parseStack_leading_space I (String c ws) expression)
    by (simpl; now rewrite Hc, Hws).
  destruct (parseStack I expression) as [r n].
  destruct r as [[|f [|f' stack]]|x|]; simpl; auto; try discriminate.
  rewrite Hov.
  destruct (overrideAxis axis expression (f_expr f)); simpl; auto.
Qed.

Lemma leading_space_is_skipped_witness :
  parseStack Sample.imports (" " ++ "a|b") = parseStack Sample.imports "a|b"
  /\ (JS.matchesSimple "a|b" = false ->
      JS.matchesChain "a|b" = false ->
      Some "self" = None \/ JS.startsWith "*" "a|b" = false ->
      forall e,
        fst (xPathParse Sample.imports "a|b" (Some "self") Sample.fresh) = Ok e ->
        fst (xPathParse Sample.imports (" " ++ "a|b") (Some "self") Sample.fresh)
        = Ok e).
Proof.
  apply (leading_space_is_skipped Sample.imports " " "a|b" (Some "self")).
  reflexivity.
Defined.

(** With an axis, an expression that begins with [*] keeps the axis of
    its first step, and the same expression behind a blank gets the axis
    of the call. *)
Example leading_space_before_star :
  fst (xPathParse Sample.imports "*" (Some "self") Sample.fresh)
  = Ok (LocationExpr false [StepExpr "child" NodeTestElementOrAttribute [] false])
  /\ fst (xPathParse Sample.imports " *" (Some "self") Sample.fresh)
     = Ok (LocationExpr false [StepExpr "self" NodeTestElementOrAttribute [] false]).
Proof. split; vm_compute; reflexivity. Qed.

(** ** The order [xPathSort] puts the nodes in *)

Lemma compareKeys_same_prefix {N} (E : Evaluator N) context n m pre r1 r2 :
  Forall (fun s => sameValue (k_value (keyOf E context n s))
                             (k_value (keyOf E context m s))) pre ->
  compareKeys (map (keyOf E context n) pre ++ r1)
              (map (keyOf E context m) pre ++ r2)
  = compareKeys r1 r2.
Proof.
  induction 1 as [|s pre [Hgt Hlt] _ IH]; [reflexivity|].
  cbn [map app compareKeys]. now rewrite Hgt, Hlt.
Qed.

Lemma sorted_by_keys {N} (E : Evaluator N)
    (arraySort : (sortItem N -> sortItem N -> Z) ->
                 list (sortItem N) -> list (sortItem N))
    context sort i j n m pre s post :
  sortsConsistently arraySort ->
  noNaNKey E context sort ->
  (i < j)%nat ->
  nodeList (xPathSort E arraySort context sort) !! i = Some n ->
  nodeList (xPathSort E arraySort context sort) !! j = Some m ->
  sort = (pre ++ s :: post)%list ->
  Forall (fun s' => sameValue (k_value (keyOf E context n s'))
                              (k_value (keyOf E context m s'))) pre ->
  if String.eqb (sortOrder s) "descending"
  then jsLt (k_value (keyOf E context n s)) (k_value (keyOf E context m s)) = false
  else jsGt (k_value (keyOf E context n s)) (k_value (keyOf E context m s)) = false.
Proof.
  intros Hsort Hnan Hij Hn Hm Hs Hpre.
  destruct (Hsort xPathSortByKey (sortList E context sort)
              (sortList_consistent E context sort Hnan)) as [Hperm Hord].
  assert (Hout : nodeList (xPathSort E arraySort context sort)
                 = map item_node (arraySort xPathSortByKey (sortList E context sort))).
  { destruct sort; [|reflexivity]. now destruct pre. }
  rewrite Hout in Hn, Hm.
  destruct (sorted_item_of_node _ _ _ _ _ _ Hperm Hn) as (i0 & Ha & _).
  destruct (sorted_item_of_node _ _ _ _ _ _ Hperm Hm) as (j0 & Hb & _).
  specialize (Hord i j _ _ Hij Ha Hb).
  unfold precedes, xPathSortByKey, itemAt in Hord. cbn [item_key] in Hord.
  rewrite Hs, !map_app, <- !app_assoc in Hord.
  rewrite (compareKeys_same_prefix E context n m pre _ _ Hpre) in Hord.
  cbn [map app compareKeys] in Hord.
  change (k_order (keyOf E context n s)) with (sortOrder s) in Hord.
  destruct (String.eqb (sortOrder s) "descending").
  - destruct (jsGt (k_value (keyOf E context n s)) (k_value (keyOf E context m s))) eqn:Hgt.
    + apply jsLt_asym. exact Hgt.
    + destruct (jsLt (k_value (keyOf E context n s)) (k_value (keyOf E context m s)));
        [simpl in Hord; lia|reflexivity].
  - destruct (jsGt (k_value (keyOf E context n s)) (k_value (keyOf E context m s)));
      [simpl in Hord; lia|reflexivity].
Qed.

(** X11: [xPathSort] orders the nodes by the sort keys, the first key
    first: of two nodes that agree on the keys before some key, the one
    that stands first in the new node list is not greater in that key
    when its order is ascending, and not smaller when it is
    [descending]. *)
Theorem xPathSort_orders_by_keys {N} (E : Evaluator N)
    (arraySort : (sortItem N -> sortItem N -> Z) ->
                 list (sortItem N) -> list (sortItem N))
    context sort i j n m pre s post :
  sortsConsistently arraySort ->
  noNaNKey E context sort ->
  (i < j)%nat ->
  nodeList (xPathSort E arraySort context sort) !! i = Some n ->
  nodeList (xPathSort E arraySort context sort) !! j = Some m ->
  sort = (pre ++ s :: post)%list ->
  Forall (fun s' => sameValue (k_value (keyOf E context n s'))
                              (k_value (keyOf E context m s'))) pre ->
  if String.eqb (sortOrder s) "descending"
  then jsLt (k_value (keyOf E context n s)) (k_value (keyOf E context m s)) = false
  else jsGt (k_value (keyOf E context n s)) (k_value (keyOf E context m s)) = false.
Proof. apply sorted_by_keys. Qed.

Lemma sample_keys_are_numbers :
  noNaNKey SampleDom.evaluator (Context SampleDom.items 0 false)
    [{| sortExpr := VariableExpr "k"; sortType := "number";
        sortOrder := "descending" |}].
Proof.
  intros n s Hn Hs. simpl in Hn, Hs.
  destruct Hs as [<-|[]].
  destruct Hn as [<-|[<-|[<-|[<-|[]]]]]; vm_compute; discriminate.
Qed.

Lemma xPathSort_orders_by_keys_witness :
  jsLt (k_value (keyOf SampleDom.evaluator (Context SampleDom.items 0 false)
                   (SampleDom.Node 1 "7" [])
                   {| sortExpr := VariableExpr "k"; sortType := "number";
                      sortOrder := "descending" |}))
       (k_value (keyOf SampleDom.evaluator (Context SampleDom.items 0 false)
                   (SampleDom.Node 4 "3" [])
                   {| sortExpr := VariableExpr "k"; sortType := "number";
                      sortOrder := "descending" |}))
  = false.
Proof.
  refine (xPathSort_orders_by_keys SampleDom.evaluator SampleDom.insertionSort
            (Context SampleDom.items 0 false)
            [{| sortExpr := VariableExpr "k"; sortType := "number";
                sortOrder := "descending" |}]
            0%nat 3%nat (SampleDom.Node 1 "7" []) (SampleDom.Node 4 "3" [])
            []
            {| sortExpr := VariableExpr "k"; sortType := "number";
               sortOrder := "descending" |}
            []
            insertionSort_consistent sample_keys_are_numbers _ _ _ _ _).
  - lia.
  - reflexivity.
  - reflexivity.
  - reflexivity.
  - constructor.
Defined.

(** ** The result of [xPathSort] does not depend on the engine *)

Lemma indexKey_inj i j : indexKey i = indexKey j -> i = j.
Proof. unfold indexKey, inject_Z. intros [= H]. lia. Qed.

Lemma itemAt_index {N} (E : Evaluator N) context sort i n j m :
  itemAt E context sort i n = itemAt E context sort j m -> i = j.
Proof.
  unfold itemAt. intros [= _ H]. apply app_inj_tail in H.
  destruct H as [_ H]. now apply indexKey_inj.
Qed.

Lemma sortList_NoDup {N} (E : Evaluator N) context sort :
  NoDup (sortList E context sort).
Proof.
  apply NoDup_alt. intros i j x Hi Hj.
  rewrite sortList_lookup in Hi, Hj.
  destruct (nodeList context !! i) as [n|]; [|discriminate].
  destruct (nodeList context !! j) as [m|]; [|discriminate].
  simpl in Hi, Hj.
  assert (H : itemAt E context sort i n = itemAt E context sort j m) by congruence.
  now apply itemAt_index in H.
Qed.

Lemma compareKeys_index_gt i j :
  (j < i)%nat -> compareKeys [indexKey i] [indexKey j] = 1%Z.
Proof.
  intros Hij. cbn. unfold jsGt. cbn.
  assert (H1 : Qle_bool (inject_Z (Z.of_nat i)) (inject_Z (Z.of_nat j)) = false).
  { apply not_true_iff_false. rewrite Qle_bool_iff, <- Zle_Qle. lia. }
  now rewrite H1.
Qed.

(** Two items of different indices never compare equal. *)
Lemma compare_distinct {N} (E : Evaluator N) context i n j m :
  i <> j ->
  forall sort,
    compareKeys (map (keyOf E context n) sort ++ [indexKey i])
                (map (keyOf E context m) sort ++ [indexKey j]) <> 0%Z.
Proof.
  intros Hij sort. induction sort as [|s sort IH].
  - simpl app. destruct (Nat.lt_total i j) as [H|[H|H]]; [|contradiction|].
    + rewrite compareKeys_index by exact H. discriminate.
    + rewrite compareKeys_index_gt by exact H. discriminate.
  - cbn [map app compareKeys].
    destruct (jsGt _ _); [destruct (String.eqb _ _); discriminate|].
    destruct (jsLt _ _); [destruct (String.eqb _ _); discriminate|].
    exact IH.
Qed.

(** Two lists with the same items, each in a strict order that no two
    items satisfy both ways, are the same list. *)
Lemma strict_order_unique {A} (lt : A -> A -> Prop) (l1 : list A) :
  forall l2,
    Permutation l1 l2 ->
    (forall i j a b, (i < j)%nat -> l1 !! i = Some a -> l1 !! j = Some b -> lt a b) ->
    (forall i j a b, (i < j)%nat -> l2 !! i = Some a -> l2 !! j = Some b -> lt a b) ->
    (forall a b, In a l1 -> In b l1 -> lt a b -> lt b a -> False) ->
    l1 = l2.
Proof.
  induction l1 as [|a l1 IH]; intros l2 Hperm H1 H2 Hanti.
  - symmetry. now apply Permutation_nil.
  - destruct l2 as [|b l2].
    { apply Permutation_sym, Permutation_nil in Hperm. discriminate. }
    assert (Hab : a = b).
    { assert (Ha : In a (b :: l2)) by (apply (Permutation_in _ Hperm); now left).
      destruct Ha as [Ha|Ha]; [now symmetry|].
      assert (Hb : In b (a :: l1))
        by (apply (Permutation_in _ (Permutation_sym Hperm)); now left).
      destruct Hb as [Hb|Hb]; [exact Hb|].
      exfalso.
      apply list_elem_of_In, list_elem_of_lookup in Ha. destruct Ha as [k Hk].
      apply list_elem_of_In, list_elem_of_lookup in Hb. destruct Hb as [k' Hk'].
      apply (Hanti a b); [now left|right| |].
      - apply list_elem_of_In. eapply list_elem_of_lookup_2; eauto.
      - apply (H1 0%nat (S k')); [lia|reflexivity|exact Hk'].
      - apply (H2 0%nat (S k)); [lia|reflexivity|exact Hk]. }
    subst b. f_equal. apply IH.
    + now apply Permutation_cons_inv in Hperm.
    + intros i j x y Hij Hx Hy. apply (H1 (S i) (S j)); [lia|exact Hx|exact Hy].
    + intros i j x y Hij Hx Hy. apply (H2 (S i) (S j)); [lia|exact Hx|exact Hy].
    + intros x y Hx Hy. apply Hanti; now right.
Qed.

(** A sort that meets its contract puts the items of [xPathSort] in a
    strict order. *)
Lemma sorted_strictly {N} (E : Evaluator N)
    (arraySort : (sortItem N -> sortItem N -> Z) ->
                 list (sortItem N) -> list (sortItem N))
    context sort :
  sortsConsistently arraySort ->
  noNaNKey E context sort ->
  forall i j a b, (i < j)%nat ->
    arraySort xPathSortByKey (sortList E context sort) !! i = Some a ->
    arraySort xPathSortByKey (sortList E context sort) !! j = Some b ->
    (xPathSortByKey a b < 0)%Z.
Proof.
  intros Hsort Hnan i j a b Hij Ha Hb.
  destruct (Hsort xPathSortByKey (sortList E context sort)
              (sortList_consistent E context sort Hnan)) as [Hperm Hord].
  pose proof (Hord i j a b Hij Ha Hb) as Hle. unfold precedes in Hle.
  assert (Hnd : NoDup (arraySort xPathSortByKey (sortList E context sort))).
  { rewrite Hperm. apply sortList_NoDup. }
  assert (Hne : a <> b).
  { intros ->. rewrite NoDup_alt in Hnd. specialize (Hnd i j b Ha Hb). lia. }
  assert (Hina : In a (sortList E context sort)).
  { apply (Permutation_in _ Hperm), list_elem_of_In.
    eapply list_elem_of_lookup_2; eauto. }
  assert (Hinb : In b (sortList E context sort)).
  { apply (Permutation_in _ Hperm), list_elem_of_In.
    eapply list_elem_of_lookup_2; eauto. }
  apply sortList_In in Hina. destruct Hina as (i0 & n & Hn & ->).
  apply sortList_In in Hinb. destruct Hinb as (j0 & m & Hm & ->).
  assert (Hij0 : i0 <> j0).
  { intros ->. apply Hne. congruence. }
  pose proof (compare_distinct E context i0 n j0 m Hij0 sort) as Hnz.
  unfold xPathSortByKey, itemAt in *. simpl in *. lia.
Qed.

Lemma sort_is_determined {N} (E : Evaluator N)
    (sort1 sort2 : (sortItem N -> sortItem N -> Z) ->
                   list (sortItem N) -> list (sortItem N))
    context sort :
  sortsConsistently sort1 -> sortsConsistently sort2 ->
  noNaNKey E context sort ->
  sort1 xPathSortByKey (sortList E context sort)
  = sort2 xPathSortByKey (sortList E context sort).
Proof.
  intros H1 H2 Hnan.
  destruct (H1 xPathSortByKey (sortList E context sort)
              (sortList_consistent E context sort Hnan)) as [Hp1 _].
  destruct (H2 xPathSortByKey (sortList E context sort)
              (sortList_consistent E context sort Hnan)) as [Hp2 _].
  apply (strict_order_unique (fun a b => (xPathSortByKey a b < 0)%Z)).
  - etransitivity; [exact Hp1|]. now apply Permutation_sym.
  - now apply sorted_strictly.
  - now apply sorted_strictly.
  - intros a b Ha Hb Hab Hba.
    apply (Permutation_in _ Hp1), sortList_In in Ha.
    apply (Permutation_in _ Hp1), sortList_In in Hb.
    destruct Ha as (i & n & Hn & ->). destruct Hb as (j & m & Hm & ->).
    assert (Hin_n : In n (nodeList context)).
    { apply list_elem_of_In. eapply list_elem_of_lookup_2; eauto. }
    assert (Hin_m : In m (nodeList context)).
    { apply list_elem_of_In. eapply list_elem_of_lookup_2; eauto. }
    pose proof (compareKeys_antisym _ _
                  (itemAt_compatible E context sort i n j m Hnan Hin_n Hin_m)) as Hanti.
    unfold xPathSortByKey in *. lia.
Qed.

(** X12: when no sort key is not-a-number, the node list [xPathSort]
    leaves does not depend on the sort algorithm of the engine: the index
    key makes the comparison function a strict order of the items, so
    every [Array.prototype.sort] that meets its contract gives the same
    list. *)
Theorem xPathSort_engine_independent {N} (E : Evaluator N)
    (sort1 sort2 : (sortItem N -> sortItem N -> Z) ->
                   list (sortItem N) -> list (sortItem N))
    context sort :
  sortsConsistently sort1 -> sortsConsistently sort2 ->
  noNaNKey E context sort ->
  xPathSort E sort1 context sort = xPathSort E sort2 context sort.
Proof.
  intros H1 H2 Hnan. unfold xPathSort. destruct sort as [|s sort]; [reflexivity|].
  now rewrite (sort_is_determined E sort1 sort2 context (s :: sort) H1 H2 Hnan).
Qed.

Lemma insertionSortLeft_from {A} (cmp : A -> A -> Z) (L : list A) :
  consistentOn cmp L ->
  forall l acc,
    (forall y, In y l -> In y L) -> (forall y, In y acc -> In y L) ->
    sortedBy cmp acc ->
    Permutation (fold_left (fun acc x => SampleDom.insertBy cmp x acc) l acc)
                (l ++ acc)
    /\ sortedBy cmp (fold_left (fun acc x => SampleDom.insertBy cmp x acc) l acc).
Proof.
  intros Hc. induction l as [|x l IH]; intros acc Hl Hacc Hs; simpl.
  - split; [reflexivity|exact Hs].
  - destruct (IH (SampleDom.insertBy cmp x acc)) as [Hp Hs'].
    + intros y Hy. apply Hl. now right.
    + intros y Hy. apply (Permutation_in _ (insertBy_perm cmp x acc)) in Hy.
      destruct Hy as [<-|Hy]; [apply Hl; now left|now apply Hacc].
    + apply (insertBy_sorted cmp L); auto. apply Hl. now left.
    + split; [|exact Hs'].
      rewrite Hp. rewrite (insertBy_perm cmp x acc).
      apply Permutation_sym, Permutation_middle.
Qed.

Lemma insertionSortLeft_consistent {A} : sortsConsistently (@insertionSortLeft A).
Proof.
  intros cmp l Hc. unfold insertionSortLeft.
  destruct (insertionSortLeft_from cmp l Hc l []) as [Hp Hs]; auto.
  - intros y [].
  - exact I.
  - rewrite app_nil_r in Hp. split; [exact Hp|].
    now apply sortedBy_lookup.
Qed.

Lemma xPathSort_engine_independent_witness :
  xPathSort SampleDom.evaluator SampleDom.insertionSort
    (Context SampleDom.items 0 false)
    [{| sortExpr := VariableExpr "k"; sortType := "number";
        sortOrder := "descending" |}]
  = xPathSort SampleDom.evaluator insertionSortLeft
      (Context SampleDom.items 0 false)
      [{| sortExpr := VariableExpr "k"; sortType := "number";
          sortOrder := "descending" |}].
Proof.
  apply (xPathSort_engine_independent SampleDom.evaluator
           SampleDom.insertionSort insertionSortLeft).
  - apply insertionSort_consistent.
  - apply insertionSortLeft_consistent.
  - apply sample_keys_are_numbers.
Defined.

(** ** What [xPathStep] adds to [nodes] *)

Lemma filterAt_subset {N} (E : Evaluator N) p ctx nl rest :
  forall i x, In x (filterAt E p ctx nl i rest) -> In x rest.
Proof.
  induction rest as [|n rest IH]; intros i x; simpl; [auto|].
  destruct (predicateHolds E p (clone ctx nl i)); simpl; intros H.
  - destruct H as [H|H]; [now left|right; eauto].
  - right. eauto.
Qed.

Lemma filterPredicates_subset {N} (E : Evaluator N) ctx ps :
  forall cands x,
    In x (fold_left (filterPredicate E ctx) ps cands) -> In x cands.
Proof.
  induction ps as [|p ps IH]; intros cands x; simpl; [auto|].
  intros H. apply IH in H. unfold filterPredicate in H.
  now apply filterAt_subset in H.
Qed.

Lemma evaluate_subset {N} (E : Evaluator N) s input b x :
  In x (StepExpr_evaluate E s (Context [input] 0 b)) ->
  In x (axisNodes E s input).
Proof.
  unfold StepExpr_evaluate. simpl. destruct b; [auto|].
  destruct s; auto. apply filterPredicates_subset.
Qed.

Lemma visitAll_appender {N} (visit : list N -> N -> outcome (list N)) D R b l :
  appender visit D R b -> (forall n, In n l -> D n) ->
  forall nodes,
    exists extra, visitAll visit l nodes = Ok (nodes ++ extra)%list
      /\ Forall R extra.
Proof.
  intros Hv. induction l as [|n l IH]; intros Hd nodes; simpl.
  - exists []. rewrite app_nil_r. auto.
  - destruct (Hv nodes n) as (e1 & -> & Hr1 & _); [apply Hd; now left|].
    destruct (IH (fun x Hx => Hd x (or_intror Hx)) (nodes ++ e1)%list)
      as (e2 & -> & Hr2).
    exists (e1 ++ e2)%list. rewrite app_assoc. split; [reflexivity|].
    apply Forall_app. auto.
Qed.

Lemma visitFirst_appender {N} (passes : nat -> bool)
    (visit : list N -> N -> outcome (list N)) D R b l :
  appender visit D R b -> (forall n, In n l -> D n) ->
  forall i nodes,
    exists extra, visitFirst passes visit i l nodes = Ok (nodes ++ extra)%list
      /\ Forall R extra /\ (b = true -> (length extra <= 1)%nat).
Proof.
  intros Hv. induction l as [|n l IH]; intros Hd i nodes; simpl.
  - exists []. rewrite app_nil_r. split; [reflexivity|].
    split; [constructor|simpl; lia].
  - destruct (passes i).
    + destruct (Hv nodes n) as (e1 & -> & Hr1 & Hb1); [apply Hd; now left|].
      destruct (Nat.ltb 0 (length (nodes ++ e1))) eqn:Hlen.
      * exists e1. auto.
      * apply Nat.ltb_ge in Hlen. rewrite length_app in Hlen.
        assert (He : e1 = []) by (destruct e1; [reflexivity|simpl in Hlen; lia]).
        subst e1. rewrite app_nil_r.
        apply (IH (fun x Hx => Hd x (or_intror Hx))).
    + apply (IH (fun x Hx => Hd x (or_intror Hx))).
Qed.

Lemma last_cons_cons {A} (a b : A) l : last (a :: b :: l) = last (b :: l).
Proof. reflexivity. Qed.

(** What a call of [xPathStep] adds to [nodes]. *)
Lemma step_appends {N} (E : Evaluator N) steps :
  steps <> [] -> forallb isStep steps = true ->
  forall nodes input context,
    exists extra,
      xPathStepFrom E steps nodes input context = Ok (nodes ++ extra)%list
      /\ Forall (fun x => exists s y, last steps = Some s
                            /\ In x (axisNodes E s y)) extra
      /\ (returnOnFirstMatch context && forallb isPlainStep steps = true ->
          (length extra <= 1)%nat).
Proof.
  induction steps as [|s rest IH]; [congruence|]. intros _ Hs nodes input context.
  simpl in Hs. apply andb_prop in Hs. destruct Hs as [Hs Hrest].
  destruct s as [| | | | ax nt ps hp | | | | | | | | | | | | | | | | |]; try discriminate.
  set (s := StepExpr ax nt ps hp).
  assert (Hvisit : appender (visitNext E rest context)
            (fun n => exists y, rest = [] -> In n (axisNodes E s y))
            (fun x => exists s' y, last (s :: rest) = Some s'
                        /\ In x (axisNodes E s' y))
            (returnOnFirstMatch context && forallb isPlainStep rest)).
  { intros nodes' n [y Hy]. destruct rest as [|s' rest']; unfold visitNext.
    - exists [n]. split; [reflexivity|]. split; [|simpl; lia].
      constructor; [|constructor]. exists s, y. split; [reflexivity|]. now apply Hy.
    - destruct (IH ltac:(discriminate) Hrest nodes' n context)
        as (extra & -> & Hr & Hb).
      exists extra. split; [reflexivity|]. split; [|exact Hb].
      rewrite last_cons_cons. exact Hr. }
  subst s. rewrite xPathStepFrom_unfold. set (s := StepExpr ax nt ps hp) in *.
  destruct (returnOnFirstMatch context && negb hp) eqn:Hmode.
  - destruct (visitFirst_appender
                (fun i => forallb (fun p => predicateHolds E p
                   (clone context (StepExpr_evaluate E s (clone context [input] 0)) i)) ps)
                _ _ _ _ (StepExpr_evaluate E s (clone context [input] 0)) Hvisit)
      with (i := 0%nat) (nodes := nodes) as (extra & -> & Hr & Hb).
    + intros n Hn. exists input. intros _. eapply evaluate_subset. exact Hn.
    + exists extra. split; [reflexivity|]. split; [exact Hr|].
      intros H. apply Hb. simpl in H.
      apply andb_prop in H. destruct H as [-> H].
      apply andb_prop in H. destruct H as [_ ->]. reflexivity.
  - destruct (visitAll_appender _ _ _ _ (selected E s input) Hvisit)
      with (nodes := nodes) as (extra & -> & Hr).
    + intros n Hn. exists input. intros _. eapply evaluate_subset. exact Hn.
    + exists extra. split; [reflexivity|]. split; [exact Hr|].
      intros H. simpl in H. apply andb_prop in H. destruct H as [Hf H].
      apply andb_prop in H. destruct H as [Hp _].
      rewrite Hf, Hp in Hmode. discriminate.
Qed.

(** X13: a call of [xPathStep] on a path of steps returns and only adds
    to [nodes]: the nodes it held come first, unchanged, and every node
    added is a node that the axis and the node test of the last step
    select from some node. *)
Theorem xPathStep_only_appends {N} (E : Evaluator N) steps nodes input context :
  steps <> [] -> forallb isStep steps = true ->
  exists extra,
    xPathStep E nodes steps 0 input context = Ok (nodes ++ extra)%list
    /\ forall x, In x extra ->
         exists s y, last steps = Some s /\ In x (axisNodes E s y).
Proof.
  intros Hne Hs. destruct (step_appends E steps Hne Hs nodes input context)
    as (extra & H & Hr & _).
  exists extra. split; [exact H|]. now apply List.Forall_forall.
Qed.

Lemma xPathStep_only_appends_witness :
  exists extra,
    xPathStep SampleDom.evaluator [SampleDom.x1]
      [StepExpr "descendant-or-self" NodeTestAny [] false;
       StepExpr "child" (NodeTestName "a") [] false]
      0 SampleDom.r0 (Context [SampleDom.r0] 0 false)
    = Ok ([SampleDom.x1] ++ extra)%list
    /\ forall x, In x extra ->
         exists s y,
           last [StepExpr "descendant-or-self" NodeTestAny [] false;
                 StepExpr "child" (NodeTestName "a") [] false] = Some s
           /\ In x (axisNodes SampleDom.evaluator s y).
Proof.
  apply (xPathStep_only_appends SampleDom.evaluator).
  - discriminate.
  - reflexivity.
Defined.

(** X14: with [returnOnFirstMatch] set and no step flagged positional, a
    call of [xPathStep] adds at most one node to [nodes], whatever the
    predicates of the steps are. *)
Theorem first_match_adds_at_most_one {N} (E : Evaluator N)
    steps nodes input context :
  steps <> [] -> forallb isPlainStep steps = true ->
  returnOnFirstMatch context = true ->
  exists extra,
    xPathStep E nodes steps 0 input context = Ok (nodes ++ extra)%list
    /\ (length extra <= 1)%nat.
Proof.
  intros Hne Hp Hf.
  assert (Hs : forallb isStep steps = true).
  { rewrite forallb_forall in *. intros s Hin. specialize (Hp s Hin).
    destruct s; try discriminate. reflexivity. }
  destruct (step_appends E steps Hne Hs nodes input context)
    as (extra & H & _ & Hb).
  exists extra. split; [exact H|]. apply Hb. now rewrite Hf, Hp.
Qed.

Lemma first_match_adds_at_most_one_witness :
  exists extra,
    xPathStep SampleDom.evaluator []
      [StepExpr "descendant-or-self" NodeTestAny [] false;
       StepExpr "child" (NodeTestName "a") [] false]
      0 SampleDom.r0 (Context [SampleDom.r0] 0 true)
    = Ok ([] ++ extra)%list
    /\ (length extra <= 1)%nat.
Proof.
  apply (first_match_adds_at_most_one SampleDom.evaluator).
  - discriminate.
  - reflexivity.
  - reflexivity.
Defined.

(** ** [xPathCollectDescendants] and [xPathCollectDescendantsReverse] *)

Lemma XNode_nested_ind (P : XNode -> Prop) :
  (forall t name cs, Forall P cs -> P (XNodeOf t name cs)) ->
  forall n, P n.
Proof.
  intros H. fix IH 1. intros [t name cs]. apply H.
  induction cs as [|c cs IHcs]; constructor; [apply IH|exact IHcs].
Qed.

Lemma collectedBelow_filter attribute node :
  collectedBelow attribute node
  = List.filter (fun n => negb (Nat.eqb (nodeType n) attribute)) (nodesBelow node).
Proof.
  induction node as [t name cs IH] using XNode_nested_ind. simpl.
  induction IH as [|c cs Hc _ IHcs]; [reflexivity|].
  simpl. rewrite List.filter_app, <- IHcs, <- Hc.
  destruct (Nat.eqb (nodeType c) attribute); reflexivity.
Qed.

(** X15: without a tag name that is not empty, or for a node without
    [getElementsByTagName], [xPathCollectDescendants] adds to [nodeList]
    the nodes below [node] in document order, leaving out the nodes of
    the attribute type but not the nodes below them; [node] itself is not
    added.  With such a tag name and the method, the array is what
    [copyArray] makes of it with the elements the method returns. *)
Theorem collect_descendants_in_document_order D nodeList node opt_tagName :
  (opt_tagName = None \/ opt_tagName = Some EmptyString
   \/ getElementsByTagName D node = None ->
   xPathCollectDescendants D nodeList node opt_tagName
   = (nodeList
      ++ List.filter (fun n => negb (Nat.eqb (nodeType n) (DOM_ATTRIBUTE_NODE D)))
           (nodesBelow node))%list)
  /\ (forall tag elements,
        opt_tagName = Some tag -> tag <> EmptyString ->
        getElementsByTagName D node = Some elements ->
        xPathCollectDescendants D nodeList node opt_tagName
        = copyArray D nodeList (elements tag)).
Proof.
  unfold xPathCollectDescendants. split.
  - rewrite <- collectedBelow_filter. intros [-> | [-> | ->]].
    + reflexivity.
    + destruct (getElementsByTagName D node); reflexivity.
    + destruct opt_tagName; reflexivity.
  - intros tag elements -> Hne ->. apply nonEmpty_true in Hne. now rewrite Hne.
Qed.

Lemma collectedBelowReverse_postorder node :
  collectedBelowReverse node = rev (nodesBelowPostorder node).
Proof.
  induction node as [t name cs IH] using XNode_nested_ind. simpl.
  induction IH as [|c cs Hc _ IHcs]; [reflexivity|].
  simpl. rewrite IHcs, Hc, !rev_app_distr. reflexivity.
Qed.

Lemma postorder_permutation node :
  Permutation (nodesBelowPostorder node) (nodesBelow node).
Proof.
  induction node as [t name cs IH] using XNode_nested_ind. simpl.
  induction IH as [|c cs Hc _ IHcs]; [reflexivity|].
  simpl. rewrite <- Permutation_cons_append. simpl.
  apply Permutation_cons; [reflexivity|]. now apply Permutation_app.
Qed.

(** X16: [xPathCollectDescendantsReverse] adds to [nodeList] every node
    below [node] once, the children from the last to the first and each
    child before the nodes below it: this is the reverse of the order
    that lists every node after the nodes below it. *)
Theorem collect_descendants_reverse_order nodeList node :
  xPathCollectDescendantsReverse nodeList node
  = (nodeList ++ rev (nodesBelowPostorder node))%list
  /\ Permutation (collectedBelowReverse node) (nodesBelow node)
  /\ forall t name n rest,
       node = XNodeOf t name (rest ++ [n]) ->
       xPathCollectDescendantsReverse nodeList node
       = (nodeList ++ n :: collectedBelowReverse n
          ++ collectedBelowReverse (XNodeOf t name rest))%list.
Proof.
  unfold xPathCollectDescendantsReverse. split; [|split].
  - now rewrite collectedBelowReverse_postorder.
  - rewrite collectedBelowReverse_postorder, <- Permutation_rev.
    apply postorder_permutation.
  - intros t name n rest ->. f_equal.
    rewrite !collectedBelowReverse_postorder. simpl.
    rewrite flat_map_app, rev_app_distr. simpl.
    rewrite app_nil_r, rev_app_distr. reflexivity.
Qed.

(** On [<a><b><c/></b><d/></a>] the forward collection is [b c d] and the
    reverse one [d b c], which is not the forward one reversed. *)
Example collect_descendants_examples :
  collectedBelow 2 sampleTree
  = [XNodeOf 1 "b" [XNodeOf 1 "c" []]; XNodeOf 1 "c" []; XNodeOf 1 "d" []]
  /\ collectedBelowReverse sampleTree
     = [XNodeOf 1 "d" []; XNodeOf 1 "b" [XNodeOf 1 "c" []]; XNodeOf 1 "c" []]
  /\ collectedBelowReverse sampleTree <> rev (collectedBelow 2 sampleTree).
Proof. repeat split. discriminate. Qed.

(** ** What the parser accepts without an error *)

Lemma lone_frame_no_candidate I t p e :
  In t loneTokens -> stackCandidate I [Frame t p e] = None.
Proof.
  intros H. rewrite stackCandidate_scan. unfold loneTokens in H. simpl in H.
  repeat (destruct H as [<-|H]; [vm_compute; reflexivity|]).
  destruct H.
Qed.

Lemma reduceAll_shift_first I a : reduceAll I [] (Some a) = Ok [a].
Proof. reflexivity. Qed.

Lemma reduceAll_lone I t p e :
  In t loneTokens -> reduceAll I [Frame t p e] None = Ok [Frame t p e].
Proof.
  intros H. unfold reduceAll. cbn [reduceLoop]. unfold xPathReduce.
  now rewrite (lone_frame_no_candidate I t p e H).
Qed.

(** X17: [xPathParse] tests the number of frames the stack is left with
    and not their tag: an expression that consists of one token that is
    not the whole pattern of a rule, such as a parenthesis, a bracket or
    an operator, is not a parse error; the token expression of the token
    is returned and stored in the cache. *)
Theorem lone_token_is_returned I expression axis this t m k m' k' :
  JS.matchesSimple expression = false ->
  JS.matchesChain expression = false ->
  findXPathRuleForExpression I (JS.trimStart expression) None = (Some t, m, k) ->
  findXPathRuleForExpression I
    (JS.trimStart (JS.substr (String.length m) (JS.trimStart expression)))
    (Some (Frame t (aheadPrec I t) (TokenExpr m))) = (None, m', k') ->
  In t loneTokens ->
  xPathParse I expression axis this
  = (Ok (TokenExpr m), setCache this expression (TokenExpr m) (k + k')).
Proof.
  intros H1 H2 Hfirst Hnext Ht.
  pose proof (token_consumes _ _ _ _ _ _ Hfirst) as Hc.
  pose proof (length_trimStart expression) as Hl.
  assert (Hstack : parseStack I expression
                   = (Ok [Frame t (aheadPrec I t) (TokenExpr m)], (k + k')%nat)).
  { unfold parseStack. cbn [parseLoop]. rewrite Hfirst.
    rewrite reduceAll_shift_first.
    destruct (String.length expression) as [|fuel] eqn:Hlen; [lia|].
    cbn [parseLoop]. unfold makeTokenExpr. rewrite Hnext.
    now rewrite (reduceAll_lone I t _ _ Ht). }
  unfold xPathParse. rewrite H1, H2, Hstack. simpl.
  destruct axis; reflexivity.
Qed.

Lemma lone_token_is_returned_witness :
  xPathParse Sample.imports "(" None Sample.fresh
  = (Ok (TokenExpr "("), setCache Sample.fresh "(" (TokenExpr "(") (9 + 34)).
Proof.
  apply (lone_token_is_returned Sample.imports "(" None Sample.fresh
           TOK_PARENO "(" 9 "" 34); try reflexivity.
  unfold loneTokens. simpl. tauto.
Defined.

(** X18: input the lexer cannot read raises no error of its own: when no
    token rule matches what is left of the input after white space, the
    parse loop ends as at the end of the input and drops the rest; an
    expression that begins with such text is reported as a parse error
    with an empty dump of the stack. *)
Theorem unreadable_input_is_dropped I rest :
  Forall (failsOn I (JS.trimStart rest)) (xPathTokenRules I) ->
  (forall fuel stack ahead n,
     parseLoop (S fuel) I rest stack ahead n
     = (reduceAll I stack None, (n + length (xPathTokenRules I))%nat))
  /\ (forall axis this,
        JS.matchesSimple rest = false -> JS.matchesChain rest = false ->
        xPathParse I rest axis this
        = (Throw (ParseError ("XPath parse error " ++ rest ++ ":" ++ newline)),
           setLexerCount this (length (xPathTokenRules I)))).
Proof.
  intros Hfail.
  assert (Hloop : forall fuel stack ahead n,
            parseLoop (S fuel) I rest stack ahead n
            = (reduceAll I stack None, (n + length (xPathTokenRules I))%nat)).
  { intros fuel stack ahead n. cbn [parseLoop].
    unfold findXPathRuleForExpression.
    now rewrite (firstMatch_all_fail _ _ _ Hfail). }
  split; [exact Hloop|].
  intros axis this H1 H2. unfold xPathParse, parseStack.
  rewrite H1, H2, Hloop. reflexivity.
Qed.

Lemma unreadable_input_is_dropped_witness :
  (forall fuel stack ahead n,
     parseLoop (S fuel) Sample.imports "#x" stack ahead n
     = (reduceAll Sample.imports stack None,
        (n + length (xPathTokenRules Sample.imports))%nat))
  /\ (forall axis this,
        JS.matchesSimple "#x" = false -> JS.matchesChain "#x" = false ->
        xPathParse Sample.imports "#x" axis this
        = (Throw (ParseError ("XPath parse error " ++ "#x" ++ ":" ++ newline)),
           setLexerCount this (length (xPathTokenRules Sample.imports)))).
Proof.
  apply (unreadable_input_is_dropped Sample.imports "#x").
  apply List.Forall_forall. intros t Ht. simpl in Ht.
  repeat (destruct Ht as [<-|Ht]; [left; reflexivity|]). destruct Ht.
Defined.

(** ** The value of a literal *)

Lemma substring_middle s : forall q,
  String.substring 0 (String.length s) (s ++ String q EmptyString) = s.
Proof.
  induction s as [|c s IH]; intros q; simpl; [reflexivity|]. now rewrite IH.
Qed.

(** [makeLiteralExpr] makes the literal of the text of the token
    without its first and its last character, the two quotes: whatever
    text stands between them is the value, unchanged. *)
Lemma literal_value_is_unquoted q s q' :
  makeLiteralExpr (TokenExpr (String q (s ++ String q' EmptyString)))
  = Ok (LiteralExpr s).
Proof.
  unfold makeLiteralExpr. simpl. unfold JS.dropEnds. simpl.
  rewrite length_append. simpl. rewrite Nat.add_1_r.
  now rewrite substring_middle.
Qed.

(** ** The scanner of [xmlParse] *)

Lemma substr_get i : forall s c,
  String.get i s = Some c -> JS.substr i s = String c (JS.substr (S i) s).
Proof.
  induction i as [|i IH]; intros [|d s] c; simpl; try discriminate.
  - intros [= ->]. now destruct s.
  - intros H. rewrite (IH _ _ H). reflexivity.
Qed.

Lemma substr_get_None i : forall s,
  String.get i s = None -> JS.substr i s = EmptyString.
Proof.
  induction i as [|i IH]; intros [|d s]; simpl; try discriminate; auto.
Qed.

Lemma substr_add a : forall b s, JS.substr (a + b) s = JS.substr b (JS.substr a s).
Proof.
  induction a as [|a IH]; intros b s; [reflexivity|].
  destruct s as [|c s]; simpl.
  - now destruct b.
  - apply IH.
Qed.

Lemma substring_substr a : forall n s,
  String.substring a n s = String.substring 0 n (JS.substr a s).
Proof.
  induction a as [|a IH]; intros n s; [reflexivity|].
  destruct s as [|c s]; simpl.
  - now destruct n.
  - apply IH.
Qed.

Lemma substring_0_snoc n : forall s c,
  String.get n s = Some c ->
  String.substring 0 (S n) s
  = (String.substring 0 n s ++ String c EmptyString)%string.
Proof.
  induction n as [|n IH]; intros [|d s] c; simpl; try discriminate.
  - intros [= ->]. now destruct s.
  - intros H. rewrite (IH _ _ H). reflexivity.
Qed.

Lemma get_substr a : forall n s, String.get n (JS.substr a s) = String.get (a + n) s.
Proof.
  induction a as [|a IH]; intros n s; [reflexivity|].
  destruct s as [|c s]; simpl; [now destruct n|]. apply IH.
Qed.

Lemma jsSlice_snoc start i xml c :
  (start <= i)%nat -> String.get i xml = Some c ->
  jsSlice start (S i) xml = (jsSlice start i xml ++ String c EmptyString)%string.
Proof.
  intros Hle Hget. unfold jsSlice.
  rewrite (substring_substr start (S i - start)), (substring_substr start (i - start)).
  replace (S i - start)%nat with (S (i - start)) by lia.
  apply substring_0_snoc. rewrite get_substr.
  now replace (start + (i - start))%nat with i by lia.
Qed.

Lemma jsSlice_empty a xml : jsSlice a a xml = EmptyString.
Proof.
  unfold jsSlice. rewrite Nat.sub_diag, substring_substr.
  now destruct (JS.substr a xml).
Qed.

Lemma indexOfFrom_bounds needle : forall s k,
  (indexOfFrom needle s k = -1 \/ Z.of_nat k <= indexOfFrom needle s k)%Z.
Proof.
  induction s as [|c s IH]; intros k; cbn [indexOfFrom].
  - destruct (String.prefix needle ""); [right; lia|now left].
  - destruct (String.prefix needle (String c s)); [right; lia|].
    destruct (IH (S k)) as [H|H]; [now left|right; lia].
Qed.

Lemma jsIndexOf_bounds needle s : (-1 <= jsIndexOf needle s)%Z.
Proof.
  unfold jsIndexOf. destruct (indexOfFrom_bounds needle s 0); lia.
Qed.

Lemma jsSlice_ahead i a n xml :
  jsSlice (i + S a) (i + S a + n) xml
  = String.substring 0 n (JS.substr a (JS.substr (S i) xml)).
Proof.
  unfold jsSlice. replace (i + S a + n - (i + S a))%nat with n by lia.
  rewrite substring_substr. f_equal.
  replace (i + S a)%nat with (S i + a)%nat by lia. apply substr_add.
Qed.

Lemma substr_ahead i a xml :
  JS.substr (i + S a) xml = JS.substr a (JS.substr (S i) xml).
Proof.
  replace (i + S a)%nat with (S i + a)%nat by lia. apply substr_add.
Qed.

Lemma jsSlice_next i k xml :
  jsSlice (i + 1) (i + S k) xml = String.substring 0 k (JS.substr (S i) xml).
Proof.
  unfold jsSlice. replace (i + S k - (i + 1))%nat with k by lia.
  rewrite substring_substr. now replace (i + 1)%nat with (S i) by lia.
Qed.

Lemma jsSlice_section i a az e xml :
  az = Z.of_nat (S a) ->
  (-1 <= e)%Z ->
  jsSlice (i + S a) (advance i (e + az)) xml
  = String.substring 0 (Z.to_nat e) (JS.substr a (JS.substr (S i) xml)).
Proof.
  intros -> He. unfold advance.
  destruct (Z.eq_dec e (-1)%Z) as [->|Hne].
  - unfold jsSlice.
    replace (Z.to_nat (Z.of_nat i + (-1 + Z.of_nat (S a))%Z) - (i + S a))%nat
      with 0%nat by lia.
    change (Z.to_nat (-1)) with 0%nat.
    rewrite substring_substr.
    now destruct (JS.substr (i + S a) xml), (JS.substr a (JS.substr (S i) xml)).
  - replace (Z.to_nat (Z.of_nat i + (e + Z.of_nat (S a))))
      with (i + S a + Z.to_nat e)%nat by lia.
    apply jsSlice_ahead.
Qed.

Lemma substr_resume i n xml :
  (0 <= n)%Z ->
  JS.substr (S (advance i n)) xml = JS.substr (Z.to_nat n) (JS.substr (S i) xml).
Proof.
  intros Hn. unfold advance.
  replace (S (Z.to_nat (Z.of_nat i + n))) with (S i + Z.to_nat n)%nat by lia.
  apply substr_add.
Qed.

(** One turn of the loop, in the two forms. *)
Lemma xmlStep_scanStep T g xml i c s :
  (s_start s <= i)%nat ->
  String.get i xml = Some c ->
  scanStep T g (jsSlice (s_start s) i xml) c (JS.substr (S i) xml)
    (s_tag s) (s_quotes s) (s_doublequotes s) (s_dom s)
  = match xmlStep T g xml i c s with
    | Ok (i', s') =>
        Ok (jsSlice (s_start s') (S i') xml, JS.substr (S i') xml,
            (s_tag s', s_quotes s', s_doublequotes s'), s_dom s')
    | Throw e => Throw e
    | OutOfFuel => OutOfFuel
    end
  /\ (forall i' s', xmlStep T g xml i c s = Ok (i', s') ->
        (i <= i')%nat /\ (s_start s' <= S i')%nat).
Proof.
  intros Hle Hget. destruct s as [tag quotes dq start d].
  cbn [s_tag s_quotes s_doublequotes s_start s_dom] in *.
  unfold xmlStep, scanStep.
  cbn [s_tag s_quotes s_doublequotes s_start s_dom].
  rewrite <- (jsSlice_snoc start i xml c Hle Hget).
  rewrite (jsSlice_next i 3 xml), (jsSlice_next i 8 xml).
  rewrite (substr_ahead i 3), (substr_ahead i 8).
  set (rest := JS.substr (S i) xml).
  pose proof (jsIndexOf_bounds "-->" (JS.substr 3 rest)) as Hb1.
  pose proof (jsIndexOf_bounds "]]>" (JS.substr 8 rest)) as Hb2.
  pose proof (jsIndexOf_bounds ">" (JS.substr 8 rest)) as Hb3.
  rewrite (jsSlice_section i 3 4 _ xml eq_refl Hb1).
  rewrite (jsSlice_section i 8 9 _ xml eq_refl Hb2).
  rewrite (jsSlice_section i 8 9 _ xml eq_refl Hb3).
  fold rest.
  set (e1 := jsIndexOf "-->" (JS.substr 3 rest)) in *.
  set (e2 := jsIndexOf "]]>" (JS.substr 8 rest)) in *.
  set (e3 := jsIndexOf ">" (JS.substr 8 rest)) in *.
  set (dtd := JS.trimStart (String.substring 0 (Z.to_nat e3) (JS.substr 8 rest))).
  destruct (tag && negb dq && Ascii.eqb c "'").
  { split; [reflexivity|]. intros i' s' [= <- <-]. simpl. lia. }
  destruct (tag && negb quotes && Ascii.eqb c (ascii_of_nat 34)).
  { split; [reflexivity|]. intros i' s' [= <- <-]. simpl. lia. }
  destruct (tag && Ascii.eqb c ">" && negb quotes && negb dq).
  { destruct (if JS.charAt0_is "/" (jsSlice start i xml) then Ok (popStack d)
              else if JS.charAt0_is "?" (jsSlice start i xml) then Ok d
              else if JS.charAt0_is "!" (jsSlice start i xml) then Ok d
              else openTag T g (jsSlice start i xml) d) as [d'|x|];
      cbn; [|split; [reflexivity|discriminate]..].
    rewrite jsSlice_empty. split; [reflexivity|].
    intros i' s' [= <- <-]. simpl. lia. }
  destruct (negb tag && Ascii.eqb c "<"); cycle 1.
  { split; [reflexivity|]. intros i' s' [= <- <-]. simpl. lia. }
  destruct (if JS.nonEmpty (jsSlice start i xml) && parentIsNotRoot d
            then appendToParent d (DomText (jsSlice start i xml)) else Ok d)
    as [d1|x|]; cbn [mbind outcome_bind]; [|split; [reflexivity|discriminate]..].
  destruct (String.eqb (String.substring 0 3 rest) "!--").
  { destruct (Z.eqb_spec e1 0) as [He|He].
    - rewrite jsSlice_empty. split; [reflexivity|].
      intros i' s' [= <- <-]. simpl. lia.
    - destruct (appendToParent d1 _) as [d2|x|]; cbn [mbind outcome_bind];
        [|split; [reflexivity|discriminate]..].
      rewrite jsSlice_empty, substr_resume by lia. fold rest.
      split; [reflexivity|]. intros i' s' [= <- <-]. unfold advance. simpl. lia. }
  destruct (String.eqb (String.substring 0 8 rest) "![CDATA[").
  { destruct (Z.eqb_spec e2 0) as [He|He].
    - rewrite jsSlice_empty. split; [reflexivity|].
      intros i' s' [= <- <-]. simpl. lia.
    - destruct (appendToParent d1 _) as [d2|x|]; cbn [mbind outcome_bind];
        [|split; [reflexivity|discriminate]..].
      rewrite jsSlice_empty, substr_resume by lia. fold rest.
      split; [reflexivity|]. intros i' s' [= <- <-]. unfold advance. simpl. lia. }
  destruct (String.eqb (String.substring 0 8 rest) "!DOCTYPE").
  { destruct (Z.eqb_spec e3 0) as [He|He].
    - rewrite jsSlice_empty. split; [reflexivity|].
      intros i' s' [= <- <-]. simpl. lia.
    - destruct (parentNodeName d1) as [name|x|]; cbn [mbind outcome_bind];
        [|split; [reflexivity|discriminate]..].
      destruct (appendToParent d1 _) as [d2|x|]; cbn [mbind outcome_bind];
        [|split; [reflexivity|discriminate]..].
      rewrite jsSlice_empty, substr_resume by lia. fold rest.
      split; [reflexivity|]. intros i' s' [= <- <-]. unfold advance. simpl. lia. }
  rewrite jsSlice_empty. split; [reflexivity|].
  intros i' s' [= <- <-]. simpl. lia.
Qed.

Lemma xmlLoop_scanText T g xml fuel :
  forall i s, (s_start s <= i)%nat ->
    domOf (xmlLoop fuel T g xml i s)
    = scanText fuel T g (jsSlice (s_start s) i xml) (JS.substr i xml)
        (s_tag s) (s_quotes s) (s_doublequotes s) (s_dom s).
Proof.
  induction fuel as [|fuel IH]; intros i s Hle.
  - simpl. destruct (String.get i xml) as [c|] eqn:Hget.
    + now rewrite (substr_get _ _ _ Hget).
    + now rewrite (substr_get_None _ _ Hget).
  - cbn [xmlLoop]. destruct (String.get i xml) as [c|] eqn:Hget.
    + rewrite (substr_get _ _ _ Hget). cbn [scanText].
      destruct (xmlStep_scanStep T g xml i c s Hle Hget) as [-> Hadv].
      destruct (xmlStep T g xml i c s) as [[i' s']|x|]; try reflexivity.
      apply IH. now apply (Hadv i' s').
    + now rewrite (substr_get_None _ _ Hget).
Qed.

Lemma xmlParseBody_scan T g xml :
  xmlParseBody T g xml
  = (d ← scanAll T g EmptyString xml false false false (DomState [] [] true);
     Ok (documentChildren d)).
Proof.
  unfold xmlParseBody, scanAll.
  pose proof (xmlLoop_scanText T g xml (String.length xml) 0 scanStart (le_n _)) as H.
  rewrite jsSlice_empty in H. simpl in H. rewrite <- H.
  now destruct (xmlLoop (String.length xml) T g xml 0 scanStart).
Qed.

Lemma length_substr_le n s : (String.length (JS.substr n s) <= String.length s)%nat.
Proof. rewrite length_substr. lia. Qed.

(** A turn of the loop does not lengthen what is left of the input. *)
Lemma scanStep_shrinks T g pending c rest tag quotes dq d p' r' f' d' :
  scanStep T g pending c rest tag quotes dq d = Ok (p', r', f', d') ->
  (String.length r' <= String.length rest)%nat.
Proof.
  unfold scanStep. cbv zeta.
  repeat match goal with
         | |- context [if ?b then _ else _] => destruct b
         | |- context [mbind _ ?x] => destruct x; cbn [mbind outcome_bind]
         end;
  (intros [= <- <- <- <-] || discriminate); try lia; apply length_substr_le.
Qed.

Lemma appendToParent_ends d node : ends (appendToParent d node).
Proof.
  unfold appendToParent, illTyped.
  destruct (d_open d); [destruct (d_rootOnStack d)|]; discriminate.
Qed.

Lemma parentNodeName_ends d : ends (parentNodeName d).
Proof.
  unfold parentNodeName, illTyped.
  destruct (d_open d); [destruct (d_rootOnStack d)|]; discriminate.
Qed.

Lemma openTag_ends T g text d : ends (openTag T g text d).
Proof.
  unfold openTag, illTyped. destruct (tagNameOf T g text); [|discriminate].
  destruct (endsWithSlash text); [apply appendToParent_ends|].
  destruct (d_open d); [destruct (d_rootOnStack d)|]; discriminate.
Qed.

Lemma handleTag_ends T g text d : ends (handleTag T g text d).
Proof.
  unfold handleTag.
  repeat match goal with
         | |- context [if ?b then _ else _] => destruct b
         end; try discriminate. apply openTag_ends.
Qed.

Lemma flushText_ends pending d : ends (flushText pending d).
Proof.
  unfold flushText. destruct (_ && _); [apply appendToParent_ends|discriminate].
Qed.

Lemma scanStep_ends T g pending c rest tag quotes dq d :
  ends (scanStep T g pending c rest tag quotes dq d).
Proof.
  unfold scanStep. cbv zeta.
  fold (handleTag T g pending d). fold (flushText pending d).
  destruct (_ && _); [discriminate|].
  destruct (_ && _); [discriminate|].
  destruct (_ && _).
  { apply bind_ends; [apply handleTag_ends|discriminate]. }
  destruct (_ && _); [|discriminate].
  apply bind_ends; [apply flushText_ends|]. intros d1.
  repeat match goal with
         | |- ends (if ?b then _ else _) => destruct b
         | |- ends (mbind _ _) => apply bind_ends; [|intros ?]
         | |- ends (appendToParent _ _) => apply appendToParent_ends
         | |- ends (parentNodeName _) => apply parentNodeName_ends
         | |- ends (Ok _) => discriminate
         end.
Qed.

Lemma scanText_ends T g fuel :
  forall pending rest tag quotes dq d,
    (String.length rest <= fuel)%nat ->
    ends (scanText fuel T g pending rest tag quotes dq d).
Proof.
  induction fuel as [|fuel IH]; intros pending rest tag quotes dq d Hlen.
  - destruct rest; [discriminate|simpl in Hlen; lia].
  - destruct rest as [|c rest]; [discriminate|]. cbn [scanText].
    destruct (scanStep T g pending c rest tag quotes dq d)
      as [[[[p' r'] [[t' q'] dq']] d']|x|] eqn:Hs.
    + apply IH. apply scanStep_shrinks in Hs. simpl in Hlen. lia.
    + discriminate.
    + now elim (scanStep_ends T g pending c rest tag quotes dq d).
Qed.

Lemma scanText_fuel T g fuel :
  forall fuel' pending rest tag quotes dq d,
    (String.length rest <= fuel)%nat -> (String.length rest <= fuel')%nat ->
    scanText fuel T g pending rest tag quotes dq d
    = scanText fuel' T g pending rest tag quotes dq d.
Proof.
  induction fuel as [|fuel IH]; intros fuel' pending rest tag quotes dq d H1 H2.
  - destruct rest; [now destruct fuel'|simpl in H1; lia].
  - destruct rest as [|c rest]; [now destruct fuel'|].
    destruct fuel' as [|fuel']; [simpl in H2; lia|]. cbn [scanText].
    destruct (scanStep T g pending c rest tag quotes dq d)
      as [[[[p' r'] [[t' q'] dq']] d']|x|] eqn:Hs; try reflexivity.
    apply scanStep_shrinks in Hs. simpl in H1, H2. apply IH; lia.
Qed.

(** The scan of an input that is not empty is one turn of the loop and
    the scan of what it leaves. *)
Lemma scanAll_step T g pending c rest tag quotes dq d :
  scanAll T g pending (String c rest) tag quotes dq d
  = match scanStep T g pending c rest tag quotes dq d with
    | Ok (pending', rest', (tag', quotes', dq'), d') =>
        scanAll T g pending' rest' tag' quotes' dq' d'
    | Throw e => Throw e
    | OutOfFuel => OutOfFuel
    end.
Proof.
  unfold scanAll. cbn [String.length scanText].
  destruct (scanStep T g pending c rest tag quotes dq d)
    as [[[[p' r'] [[t' q'] dq']] d']|x|] eqn:Hs; try reflexivity.
  apply scanStep_shrinks in Hs. apply scanText_fuel; lia.
Qed.

Lemma append_nil_r (s : string) : (s ++ EmptyString)%string = s.
Proof.
  induction s as [|c s IH]; [reflexivity|].
  change (String c s ++ "") with (String c (s ++ "")). now rewrite IH.
Qed.

Lemma scanAll_nil T g pending tag quotes dq d :
  scanAll T g pending EmptyString tag quotes dq d = Ok d.
Proof. reflexivity. Qed.

(** Text outside a tag is collected up to the next [<]. *)
Lemma scanAll_text T g t :
  forall pending rest quotes dq d,
    JS.forallb_string textChar t = true ->
    scanAll T g pending (t ++ rest) false quotes dq d
    = scanAll T g (pending ++ t) rest false quotes dq d.
Proof.
  induction t as [|c t IH]; intros pending rest quotes dq d Ht.
  - simpl. now rewrite append_nil_r.
  - simpl in Ht. apply andb_prop in Ht. destruct Ht as [Hc Ht].
    change (String c t ++ rest) with (String c (t ++ rest)).
    rewrite scanAll_step. unfold scanStep. unfold textChar in Hc.
    apply negb_true_iff in Hc. cbn [andb negb]. rewrite Hc. cbn [andb].
    rewrite (IH _ _ _ _ _ Ht), append_assoc. reflexivity.
Qed.

(** The text of a tag is collected up to its [>]. *)
Lemma scanAll_tag T g t :
  forall pending rest d,
    JS.forallb_string tagChar t = true ->
    scanAll T g pending (t ++ rest) true false false d
    = scanAll T g (pending ++ t) rest true false false d.
Proof.
  induction t as [|c t IH]; intros pending rest d Ht.
  - simpl. now rewrite append_nil_r.
  - simpl in Ht. apply andb_prop in Ht. destruct Ht as [Hc Ht].
    change (String c t ++ rest) with (String c (t ++ rest)).
    rewrite scanAll_step. unfold scanStep. unfold tagChar in Hc.
    apply andb_prop in Hc. destruct Hc as [Hc H3].
    apply andb_prop in Hc. destruct Hc as [H1 H2].
    apply negb_true_iff in H1, H2, H3. cbn [andb negb].
    rewrite H1, H2, H3. cbn [andb].
    rewrite (IH _ _ _ Ht), append_assoc. reflexivity.
Qed.

Lemma not_section rest :
  JS.charAt0_is "!" rest = false ->
  String.eqb (String.substring 0 3 rest) "!--" = false
  /\ String.eqb (String.substring 0 8 rest) "![CDATA[" = false
  /\ String.eqb (String.substring 0 8 rest) "!DOCTYPE" = false.
Proof.
  destruct rest as [|c rest]; [repeat split; reflexivity|]. simpl. intros H.
  assert (Hc : Ascii.eqb c "!" = false) by exact H.
  repeat split; now rewrite Hc.
Qed.

(** A [<] outside a tag that opens neither a comment, a CDATA section
    nor a DOCTYPE: the text before it becomes a child of the parent and
    the tag begins. *)
Lemma scanAll_open T g pending rest quotes dq d :
  JS.charAt0_is "!" rest = false ->
  scanAll T g pending (String "<" rest) false quotes dq d
  = (d1 ← flushText pending d; scanAll T g EmptyString rest true quotes dq d1).
Proof.
  intros H. destruct (not_section rest H) as (H1 & H2 & H3).
  rewrite scanAll_step. unfold scanStep. cbn [andb negb Ascii.eqb].
  fold (flushText pending d).
  destruct (flushText pending d) as [d1|x|]; cbn [mbind outcome_bind];
    try reflexivity.
  now rewrite H1, H2, H3.
Qed.

(** A [>] in a tag outside quotations ends the tag. *)
Lemma scanAll_close T g pending rest d :
  scanAll T g pending (String ">" rest) true false false d
  = (d' ← handleTag T g pending d;
     scanAll T g EmptyString rest false false false d').
Proof.
  rewrite scanAll_step. unfold scanStep. cbn [andb negb Ascii.eqb].
  fold (handleTag T g pending d).
  now destruct (handleTag T g pending d) as [d'|x|].
Qed.


(** *** Reading back a document written as text *)

Lemma Dom_nested_ind (P : Dom -> Prop) :
  (forall name attributes children,
     Forall P children -> P (DomElement name attributes children)) ->
  (forall v, P (DomText v)) -> (forall v, P (DomComment v)) ->
  (forall v, P (DomCData v)) -> (forall v, P (DomDTD v)) ->
  forall n, P n.
Proof.
  intros He Ht Hc Hd Hdtd. fix IH 1.
  intros [name attributes children|v|v|v|v];
    [|apply Ht|apply Hc|apply Hd|apply Hdtd].
  apply He. induction children as [|c cs IHcs]; constructor; [apply IH|exact IHcs].
Qed.

Lemma concat_empty_cons x xs :
  String.concat "" (x :: xs) = (x ++ String.concat "" xs)%string.
Proof. destruct xs; simpl; [now rewrite append_nil_r|reflexivity]. Qed.

Lemma addChildren_nil o : addChildren o [] = o.
Proof. destruct o. unfold addChildren. simpl. now rewrite app_nil_r. Qed.

Lemma addChildren_addChildren o l1 l2 :
  addChildren (addChildren o l1) l2 = addChildren o (l1 ++ l2).
Proof. unfold addChildren. simpl. now rewrite app_assoc. Qed.

Lemma plainTree_children T g name attributes children :
  plainTree T g (DomElement name attributes children) ->
  Forall (plainTree T g) children.
Proof.
  intros (_ & _ & _ & H). induction children as [|c cs IH]; constructor.
  - apply H.
  - apply IH, H.
Qed.

Lemma scan_children T g (ks : list Dom) :
  Forall (readsBack T g) ks -> Forall (plainTree T g) ks ->
  forall p r o os root flag,
    scanAll T g p (String.concat "" (map serialize ks) ++ r) false false false
      (DomState (o :: os) root flag)
    = scanAll T g (heldBack p ks) r false false false
        (DomState (addChildren o (added p ks) :: os) root flag).
Proof.
  intros Hr Hp. induction Hr as [|k ks Hk _ IH]; intros p r o os root flag.
  - simpl. now rewrite addChildren_nil.
  - inversion Hp as [|k' ks' Hpk Hpks]; subst.
    cbn [map]. rewrite concat_empty_cons, append_assoc.
    destruct (isText k) eqn:Htext.
    + destruct k; try discriminate. simpl in Hpk. destruct Hpk as [_ Hchars].
      cbn [serialize added heldBack].
      rewrite scanAll_text by exact Hchars. apply IH. exact Hpks.
    + rewrite (Hk Hpk Htext p _ (DomState (o :: os) root flag))
        by (left; discriminate).
      unfold placed. cbn [d_open d_root d_rootOnStack].
      rewrite (IH Hpks). rewrite addChildren_addChildren.
      destruct k; try discriminate; cbn [added heldBack];
        now rewrite <- app_assoc.
Qed.

Lemma added_separated T g (ks : list Dom) :
  Forall (plainTree T g) ks -> separated ks ->
  forall p, (p <> EmptyString -> forall k rest, ks = k :: rest -> isText k = false) ->
    (added p ks ++ textNode (heldBack p ks) = textNode p ++ ks)%list.
Proof.
  induction 1 as [|k ks Hk _ IH]; intros Hsep p Hp.
  - simpl. now rewrite app_nil_r.
  - destruct (isText k) eqn:Htext.
    + destruct k as [| v | | |]; try discriminate.
      assert (Hpe : p = EmptyString).
      { destruct p; [reflexivity|]. specialize (Hp ltac:(discriminate) _ _ eq_refl).
        discriminate. }
      subst p. cbn [added heldBack]. simpl in Hk. destruct Hk as [Hv _].
      change ("" ++ v)%string with v.
      rewrite IH.
      * unfold textNode. apply nonEmpty_true in Hv. now rewrite Hv.
      * destruct ks as [|[] ks]; simpl in Hsep; tauto.
      * intros _ k rest ->. destruct k; try reflexivity. simpl in Hsep. tauto.
    + assert (Hsep' : separated ks) by (destruct k; simpl in Hsep; try discriminate; tauto).
      destruct k; try discriminate; cbn [added heldBack];
        rewrite <- app_assoc; cbn [app]; rewrite (IH Hsep' EmptyString);
        try reflexivity; intros H; congruence.
Qed.

Lemma charAt0_append c a b :
  JS.charAt0_is c a = false -> JS.charAt0_is c b = false ->
  JS.charAt0_is c (a ++ b) = false.
Proof. destruct a; simpl; auto. Qed.

Lemma flushText_defined p d :
  parentDefined d ->
  flushText p d
  = Ok match d_open d with
       | o :: rest =>
           DomState (addChildren o (textNode p) :: rest) (d_root d) (d_rootOnStack d)
       | [] => d
       end.
Proof.
  unfold flushText, parentIsNotRoot, appendToParent, textNode, parentDefined.
  destruct d as [[|o rest] root flag]; cbn [d_open d_root d_rootOnStack];
    intros Hd.
  - destruct Hd as [Hd|Hd]; [congruence|]. rewrite Hd. simpl.
    now rewrite andb_false_r.
  - rewrite andb_true_r. destruct (JS.nonEmpty p); [reflexivity|].
    now rewrite addChildren_nil.
Qed.

Lemma element_scan T g name children other :
  Forall (readsBack T g) children ->
  plainTree T g (DomElement name [] children) ->
  JS.forallb_string tagChar other = true ->
  forall p r d, parentDefined d ->
    scanAll T g p (markup name children other ++ r) false false false d
    = scanAll T g EmptyString r false false false
        (placed p (DomElement name [] children) d).
Proof.
  intros IH Hplain Hother p r d Hd.
  pose proof (plainTree_children _ _ _ _ _ Hplain) as Hkids.
  destruct Hplain as (_ & Hname & Hsep & _).
  destruct Hname as (Htag & Hattr & Hchars & Hslash & Hq & Hbang & Hempty).
  unfold markup.
  change ("<" ++ name ++ ">" ++ String.concat "" (map serialize children)
          ++ "</" ++ other ++ ">")%string
    with (String "<" (name ++ String ">" (String.concat "" (map serialize children)
          ++ String "<" (String "/" (other ++ ">"))))).
  change (String "<" ?a ++ r)%string with (String "<" (a ++ r)).
  rewrite scanAll_open.
  2:{ rewrite append_assoc. apply charAt0_append; [exact Hbang|reflexivity]. }
  rewrite (flushText_defined p d Hd). cbn [mbind outcome_bind].
  rewrite append_assoc, (scanAll_tag T g name) by exact Hchars.
  change (String ">" ?a ++ r)%string with (String ">" (a ++ r)).
  rewrite scanAll_close. unfold handleTag.
  change ("" ++ name)%string with name.
  rewrite Hslash, Hq, Hbang. unfold openTag. rewrite Htag, Hattr, Hempty.
  cbn [map].
  set (d1 := match d_open d with
             | o :: rest =>
                 DomState (addChildren o (textNode p) :: rest) (d_root d)
                   (d_rootOnStack d)
             | [] => d
             end).
  assert (Hpush :
    (match d_open d1 with
     | [] =>
         if d_rootOnStack d1
         then Ok (DomState [OpenElement name [] []] (d_root d1) true)
         else illTyped "parent is undefined"
     | _ :: _ =>
         Ok (DomState (OpenElement name [] [] :: d_open d1) (d_root d1)
               (d_rootOnStack d1))
     end)
    = Ok (DomState (OpenElement name [] [] :: d_open d1) (d_root d1)
            (d_rootOnStack d1))).
  { subst d1. destruct d as [[|o rest] root flag]; simpl; [|reflexivity].
    destruct Hd as [Hd|Hd]; simpl in Hd; [congruence|]. now subst flag. }
  rewrite Hpush. cbn [mbind outcome_bind].
  rewrite append_assoc.
  rewrite (scan_children T g children IH Hkids).
  change (String "<" ?a ++ r)%string with (String "<" (a ++ r)).
  rewrite scanAll_open by reflexivity.
  rewrite flushText_defined by (left; discriminate).
  cbn [d_open d_root d_rootOnStack mbind outcome_bind].
  change (String "/" (other ++ ">") ++ r)%string
    with ((String "/" other ++ ">") ++ r)%string.
  rewrite append_assoc, (scanAll_tag T g (String "/" other)).
  2:{ simpl. exact Hother. }
  change (">" ++ r)%string with (String ">" r).
  rewrite scanAll_close. unfold handleTag.
  change (JS.charAt0_is "/" ("" ++ String "/" other)) with true.
  cbn [mbind outcome_bind]. f_equal.
  rewrite addChildren_addChildren.
  rewrite (added_separated T g children Hkids Hsep EmptyString)
    by (intros H; congruence).
  unfold popStack, placed, closed, addChildren, addChild.
  cbn [d_open d_root d_rootOnStack oe_name oe_attributes oe_children textNode
       JS.nonEmpty app].
  subst d1. destruct d as [[|o rest] root flag]; cbn [d_open d_root d_rootOnStack].
  - reflexivity.
  - unfold addChildren. cbn [oe_name oe_attributes oe_children].
    now rewrite <- app_assoc.
Qed.

Lemma element_reads_back T g name attributes children :
  Forall (readsBack T g) children ->
  readsBack T g (DomElement name attributes children).
Proof.
  intros IH Hplain _ p r d Hd.
  assert (attributes = []) as -> by apply Hplain.
  apply (element_scan T g name children name IH Hplain); [|exact Hd].
  apply Hplain.
Qed.

Lemma plain_tree_reads_back T g n : readsBack T g n.
Proof.
  induction n using Dom_nested_ind.
  - now apply element_reads_back.
  - intros _ H. discriminate.
  - intros [].
  - intros [].
  - intros [].
Qed.

Lemma children_read_back T g (l : list Dom) : Forall (readsBack T g) l.
Proof. induction l; constructor; [apply plain_tree_reads_back|assumption]. Qed.

Lemma scanAll_text_end T g t pending d :
  JS.forallb_string textChar t = true ->
  scanAll T g pending t false false false d = Ok d.
Proof.
  intros H. rewrite <- (append_nil_r t), scanAll_text by exact H. reflexivity.
Qed.

Lemma heldBack_last (l : list Dom) :
  forall p, (l = [] -> p = EmptyString) ->
    (forall t, last l <> Some (DomText t)) ->
    heldBack p l = EmptyString.
Proof.
  induction l as [|k ks IH]; intros p Hp Hlast.
  - now apply Hp.
  - assert (Hks : forall t, last ks <> Some (DomText t)).
    { intros t H. destruct ks as [|k' ks']; [discriminate|].
      apply (Hlast t). now rewrite last_cons_cons. }
    destruct k as [n a c|v| | |]; cbn [heldBack];
      (apply IH; [|exact Hks]); try reflexivity.
    intros ->. exfalso. now apply (Hlast v).
Qed.

(** X19: the loop of [xmlParse] ends on every input: it returns a document
    or throws within as many rounds as the input has characters,
    although the loop moves its own index at a comment, a CDATA section
    and a document type declaration. *)
Theorem xmlParse_loop_ends T g xml : ends (xmlParseBody T g xml).
Proof.
  rewrite xmlParseBody_scan. apply bind_ends; [|discriminate].
  apply scanText_ends. lia.
Qed.

(** X20: [xmlParse] reads back a document written as markup: for an element
    with elements and texts below it, the markup of the element gives a
    document whose only child is that element, with the same names, the
    same texts and the same order; text before and after the element is
    dropped. *)
Theorem xmlParse_reads_back T g e before after :
  plainTree T g e -> isText e = false ->
  JS.forallb_string textChar before = true ->
  JS.forallb_string textChar after = true ->
  xmlParseBody T g (before ++ serialize e ++ after) = Ok [e].
Proof.
  intros Hplain He Hb Ha. rewrite xmlParseBody_scan.
  rewrite scanAll_text by exact Hb.
  rewrite (plain_tree_reads_back T g e Hplain He) by (right; reflexivity).
  rewrite scanAll_text_end by exact Ha. reflexivity.
Qed.

Lemma xmlParse_reads_back_witness :
  xmlParseBody sampleTokens XML10
    (" " ++ serialize (DomElement "a" []
                         [DomText "x"; DomElement "b" [] [DomText "y"];
                          DomElement "c" [] []]) ++ "z")
  = Ok [DomElement "a" []
          [DomText "x"; DomElement "b" [] [DomText "y"]; DomElement "c" [] []]].
Proof.
  apply (xmlParse_reads_back sampleTokens XML10); try reflexivity.
  simpl. unfold plainName. simpl.
  repeat match goal with
         | |- _ /\ _ => split
         | |- _ = _ => reflexivity
         | |- True => exact I
         | |- _ <> _ => discriminate
         end.
Defined.

(** X21: the name of an end tag is not compared with the name of the
    element it closes: an end tag with any name closes the innermost
    open element, so the element that follows the end tag becomes the
    next sibling of the element closed and not one of its children. *)
Theorem end_tag_name_is_not_checked T g name children other next :
  plainTree T g (DomElement name [] children) ->
  JS.forallb_string tagChar other = true ->
  plainTree T g next -> isText next = false ->
  xmlParseBody T g (markup name children other ++ serialize next)
  = Ok [DomElement name [] children; next].
Proof.
  intros Hplain Hother Hnext Htext. rewrite xmlParseBody_scan.
  rewrite (element_scan T g name children other
             (children_read_back T g children) Hplain Hother)
    by (right; reflexivity).
  rewrite <- (append_nil_r (serialize next)).
  rewrite (plain_tree_reads_back T g next Hnext Htext) by (right; reflexivity).
  reflexivity.
Qed.

Lemma end_tag_name_is_not_checked_witness :
  xmlParseBody sampleTokens XML10
    (markup "a" [DomText "x"] "b" ++ serialize (DomElement "c" [] []))
  = Ok [DomElement "a" [] [DomText "x"]; DomElement "c" [] []].
Proof.
  apply (end_tag_name_is_not_checked sampleTokens XML10 "a" [DomText "x"] "b"
           (DomElement "c" [] []));
    try reflexivity.
  - simpl. unfold plainName. simpl.
    repeat match goal with
           | |- _ /\ _ => split
           | |- _ = _ => reflexivity
           | |- True => exact I
           | |- _ <> _ => discriminate
           end.
  - simpl. unfold plainName. simpl.
    repeat match goal with
           | |- _ /\ _ => split
           | |- _ = _ => reflexivity
           | |- True => exact I
           | |- _ <> _ => discriminate
           end.
Defined.

(** X22: an element whose end tag is missing is part of the document all
    the same, with the children read so far; text behind the last tag of
    the input is dropped, also inside an element. *)
Theorem open_element_is_kept T g name children text :
  plainTree T g (DomElement name [] children) ->
  (forall t, last children <> Some (DomText t)) ->
  JS.forallb_string textChar text = true ->
  xmlParseBody T g
    ("<" ++ name ++ ">" ++ String.concat "" (map serialize children) ++ text)
  = Ok [DomElement name [] children].
Proof.
  intros Hplain Hlast Htext. rewrite xmlParseBody_scan.
  pose proof (plainTree_children _ _ _ _ _ Hplain) as Hkids.
  destruct Hplain as (_ & Hname & Hsep & _).
  destruct Hname as (Htag & Hattr & Hchars & Hslash & Hq & Hbang & Hempty).
  change ("<" ++ name ++ ">" ++ String.concat "" (map serialize children)
          ++ text)%string
    with (String "<" (name ++ String ">"
            (String.concat "" (map serialize children) ++ text))).
  rewrite scanAll_open by (apply charAt0_append; [exact Hbang|reflexivity]).
  rewrite flushText_defined by (right; reflexivity).
  cbn [d_open mbind outcome_bind].
  rewrite (scanAll_tag T g name) by exact Hchars.
  rewrite scanAll_close. unfold handleTag.
  change ("" ++ name)%string with name.
  rewrite Hslash, Hq, Hbang. unfold openTag. rewrite Htag, Hattr, Hempty.
  cbn [map d_open d_root d_rootOnStack mbind outcome_bind].
  rewrite (scan_children T g children (children_read_back T g children) Hkids).
  rewrite scanAll_text_end by exact Htext.
  cbn [mbind outcome_bind]. unfold documentChildren, closed, addChildren.
  cbn [d_open d_root closeInto oe_name oe_attributes oe_children app].
  pose proof (added_separated T g children Hkids Hsep EmptyString
                ltac:(intros H; congruence)) as Hadd.
  rewrite (heldBack_last children EmptyString (fun _ => eq_refl) Hlast) in Hadd.
  cbn [textNode JS.nonEmpty app] in Hadd. rewrite app_nil_r in Hadd.
  now rewrite Hadd.
Qed.

Lemma open_element_is_kept_witness :
  xmlParseBody sampleTokens XML10 "<a>x<b></b>y"
  = Ok [DomElement "a" [] [DomText "x"; DomElement "b" [] []]].
Proof.
  apply (open_element_is_kept sampleTokens XML10 "a"
           [DomText "x"; DomElement "b" [] []] "y");
    [|intros t; discriminate|reflexivity].
  simpl. unfold plainName. simpl.
  repeat match goal with
         | |- _ /\ _ => split
         | |- _ = _ => reflexivity
         | |- True => exact I
         | |- _ <> _ => discriminate
         end.
Defined.

(** X23: an end tag that closes no element takes the document itself from
    the stack: the next text or start tag of the input makes [xmlParse]
    throw a run-time error of the engine, whatever the input holds
    behind it. *)
Theorem content_after_extra_end_tag_throws T g before t mid text rest :
  JS.forallb_string textChar before = true ->
  JS.forallb_string tagChar t = true ->
  JS.forallb_string textChar mid = true ->
  JS.forallb_string tagChar text = true ->
  JS.charAt0_is "/" text = false ->
  JS.charAt0_is "?" text = false ->
  JS.charAt0_is "!" text = false ->
  exists what,
    xmlParseBody T g
      (before ++ "</" ++ t ++ ">" ++ mid ++ "<" ++ text ++ ">" ++ rest)
    = Throw (TypeError what).
Proof.
  intros Hb Ht Hmid Htext Hslash Hq Hbang. rewrite xmlParseBody_scan.
  rewrite scanAll_text by exact Hb.
  change ("</" ++ t ++ ">" ++ mid ++ "<" ++ text ++ ">" ++ rest)%string
    with (String "<" (String "/" t ++ String ">"
            (mid ++ String "<" (text ++ String ">" rest)))).
  rewrite scanAll_open by reflexivity.
  rewrite flushText_defined by (right; reflexivity).
  cbn [d_open mbind outcome_bind].
  rewrite (scanAll_tag T g (String "/" t)) by exact Ht.
  rewrite scanAll_close. unfold handleTag at 1.
  change (JS.charAt0_is "/" ("" ++ String "/" t)) with true.
  cbn [mbind outcome_bind popStack d_open d_root].
  rewrite scanAll_text by exact Hmid.
  rewrite scanAll_open by (apply charAt0_append; [exact Hbang|reflexivity]).
  unfold flushText, parentIsNotRoot, appendToParent.
  cbn [d_open d_rootOnStack negb].
  change ("" ++ mid)%string with mid.
  destruct (JS.nonEmpty mid); cbn [andb mbind outcome_bind illTyped].
  - eexists. reflexivity.
  - rewrite (scanAll_tag T g text) by exact Htext.
    rewrite scanAll_close. unfold handleTag.
    change ("" ++ text)%string with text.
    rewrite Hslash, Hq, Hbang. unfold openTag, appendToParent.
    cbn [d_open d_rootOnStack].
    destruct (tagNameOf T g text); [|eexists; reflexivity].
    destruct (endsWithSlash text); eexists; reflexivity.
Qed.

Lemma content_after_extra_end_tag_throws_witness :
  exists what,
    xmlParseBody sampleTokens XML10
      ("x" ++ "</" ++ "a" ++ ">" ++ "y" ++ "<" ++ "b" ++ ">" ++ "z")
    = Throw (TypeError what).
Proof.
  apply (content_after_extra_end_tag_throws sampleTokens XML10
           "x" "a" "y" "b" "z"); reflexivity.
Defined.

(** *** Comments, CDATA sections and document type declarations *)

Lemma prefix_app needle : forall rest, String.prefix needle (needle ++ rest) = true.
Proof.
  induction needle as [|c n IH]; intros rest; [now destruct rest|].
  simpl. destruct (Ascii.ascii_dec c c); [apply IH|congruence].
Qed.

Lemma prefix_app_false needle : forall s rest,
  String.prefix needle s = false ->
  (String.length needle <= String.length s)%nat ->
  String.prefix needle (s ++ rest) = false.
Proof.
  induction needle as [|c n IH]; intros s rest Hp Hlen.
  - destruct s; discriminate.
  - destruct s as [|x s]; [simpl in Hlen; lia|].
    simpl in *. destruct (Ascii.ascii_dec c x); [|reflexivity].
    apply IH; [exact Hp|lia].
Qed.

Lemma indexOfFrom_first needle rest : forall c k,
  indexOfFrom needle (c ++ needle) k = Z.of_nat (k + String.length c) ->
  indexOfFrom needle (c ++ needle ++ rest) k = Z.of_nat (k + String.length c).
Proof.
  induction c as [|x c IH]; intros k H.
  - change ("" ++ needle ++ rest)%string with (needle ++ rest)%string.
    destruct needle as [|a n].
    + destruct rest; simpl; f_equal; lia.
    + change (String a n ++ rest)%string with (String a (n ++ rest)).
      cbn [indexOfFrom].
      change (String a (n ++ rest)) with (String a n ++ rest)%string.
      rewrite prefix_app. simpl. f_equal. lia.
  - change (String x c ++ needle ++ rest)%string
      with (String x (c ++ needle ++ rest)).
    change (String x c ++ needle)%string with (String x (c ++ needle)) in H.
    cbn [indexOfFrom] in *.
    destruct (String.prefix needle (String x (c ++ needle))) eqn:Hp.
    + simpl in H. lia.
    + rewrite <- (append_assoc c needle rest).
      change (String x ((c ++ needle) ++ rest))
        with (String x (c ++ needle) ++ rest)%string.
      rewrite (prefix_app_false needle _ rest Hp).
      2:{ simpl. rewrite length_append. lia. }
      rewrite append_assoc. rewrite IH; [f_equal; simpl; lia|].
      rewrite H. f_equal. simpl. lia.
Qed.

Lemma jsIndexOf_first needle c rest :
  firstAt needle c ->
  jsIndexOf needle (c ++ needle ++ rest) = Z.of_nat (String.length c).
Proof. intros H. apply (indexOfFrom_first needle rest c 0). exact H. Qed.

Lemma substr_app a : forall n b,
  JS.substr (String.length a + n) (a ++ b) = JS.substr n b.
Proof. induction a as [|c a IH]; intros n b; [reflexivity|]. simpl. apply IH. Qed.

Lemma substring_app a : forall b,
  String.substring 0 (String.length a) (a ++ b) = a.
Proof.
  induction a as [|c a IH]; intros b; [now destruct b|]. simpl. now rewrite IH.
Qed.

Lemma of_nat_eqb_0 (c : string) :
  c <> EmptyString -> Z.eqb (Z.of_nat (String.length c)) 0 = false.
Proof. intros H. destruct c; [congruence|]. apply Z.eqb_neq. simpl. lia. Qed.

Lemma substr_section a k c needle rest :
  JS.substr (Z.to_nat (Z.of_nat (String.length c)
                       + Z.of_nat (String.length a + String.length needle + k)))
    (a ++ c ++ needle ++ rest)
  = JS.substr k rest.
Proof.
  replace (Z.to_nat (Z.of_nat (String.length c)
                     + Z.of_nat (String.length a + String.length needle + k)))
    with (String.length a + (String.length c + (String.length needle + k)))%nat
    by lia.
  now rewrite !substr_app.
Qed.

(** A comment that is not empty: the text up to the first [-->] becomes
    a comment and the loop goes on behind it. *)
Lemma scanAll_comment T g pending c rest q dq d :
  c <> EmptyString -> firstAt "-->" c ->
  scanAll T g pending ("<!--" ++ c ++ "-->" ++ rest) false q dq d
  = (d1 ← flushText pending d;
     d2 ← appendToParent d1 (DomComment c);
     scanAll T g EmptyString rest false q dq d2).
Proof.
  intros Hc Hfirst.
  change ("<!--" ++ c ++ "-->" ++ rest)%string
    with (String "<" ("!--" ++ c ++ "-->" ++ rest)).
  rewrite scanAll_step. unfold scanStep. cbn [andb negb Ascii.eqb].
  fold (flushText pending d).
  destruct (flushText pending d) as [d1|x|]; cbn [mbind outcome_bind];
    try reflexivity.
  change 3%nat with (String.length "!--") at 1. rewrite substring_app.
  cbn [String.eqb Ascii.eqb Bool.eqb]. cbv zeta.
  change (JS.substr 3 ("!--" ++ c ++ "-->" ++ rest)) with (c ++ "-->" ++ rest)%string.
  rewrite (jsIndexOf_first "-->" c rest Hfirst), (of_nat_eqb_0 c Hc).
  rewrite Nat2Z.id, substring_app.
  destruct (appendToParent d1 (DomComment c)) as [d2|x|]; cbn [mbind outcome_bind];
    try reflexivity.
  change (Z.of_nat (String.length c) + 6)%Z
    with (Z.of_nat (String.length c)
          + Z.of_nat (String.length "!--" + String.length "-->" + 0))%Z.
  now rewrite substr_section.
Qed.

(** A CDATA section that is not empty. *)
Lemma scanAll_cdata T g pending c rest q dq d :
  c <> EmptyString -> firstAt "]]>" c ->
  scanAll T g pending ("<![CDATA[" ++ c ++ "]]>" ++ rest) false q dq d
  = (d1 ← flushText pending d;
     d2 ← appendToParent d1 (DomCData c);
     scanAll T g EmptyString rest false q dq d2).
Proof.
  intros Hc Hfirst.
  change ("<![CDATA[" ++ c ++ "]]>" ++ rest)%string
    with (String "<" ("![CDATA[" ++ c ++ "]]>" ++ rest)).
  rewrite scanAll_step. unfold scanStep. cbn [andb negb Ascii.eqb].
  fold (flushText pending d).
  destruct (flushText pending d) as [d1|x|]; cbn [mbind outcome_bind];
    try reflexivity.
  change (String.substring 0 3 ("![CDATA[" ++ c ++ "]]>" ++ rest)) with "![C".
  change 8%nat with (String.length "![CDATA[") at 1. rewrite substring_app.
  cbn [String.eqb Ascii.eqb Bool.eqb]. cbv zeta.
  change (JS.substr 8 ("![CDATA[" ++ c ++ "]]>" ++ rest))
    with (c ++ "]]>" ++ rest)%string.
  rewrite (jsIndexOf_first "]]>" c rest Hfirst), (of_nat_eqb_0 c Hc).
  rewrite Nat2Z.id, substring_app.
  destruct (appendToParent d1 (DomCData c)) as [d2|x|]; cbn [mbind outcome_bind];
    try reflexivity.
  change (Z.of_nat (String.length c) + 11)%Z
    with (Z.of_nat (String.length c)
          + Z.of_nat (String.length "![CDATA[" + String.length "]]>" + 0))%Z.
  now rewrite substr_section.
Qed.

(** A comment or a CDATA section that is empty: [endTagIndex] is [0],
    nothing is created, and the loop goes on behind the [<]. *)
Lemma scanAll_empty_section T g pending rest q dq d :
  (scanAll T g pending ("<!---->" ++ rest) false q dq d
   = (d1 ← flushText pending d;
      scanAll T g EmptyString ("!---->" ++ rest) false q dq d1))
  /\ (scanAll T g pending ("<![CDATA[]]>" ++ rest) false q dq d
      = (d1 ← flushText pending d;
         scanAll T g EmptyString ("![CDATA[]]>" ++ rest) false q dq d1)).
Proof.
  split.
  - change ("<!---->" ++ rest)%string with (String "<" ("!---->" ++ rest)).
    rewrite scanAll_step. unfold scanStep. cbn [andb negb Ascii.eqb].
    fold (flushText pending d).
    destruct (flushText pending d) as [d1|x|]; cbn [mbind outcome_bind];
      try reflexivity.
    change (String.substring 0 3 ("!---->" ++ rest)) with "!--".
    cbn [String.eqb Ascii.eqb Bool.eqb]. cbv zeta.
    change (JS.substr 3 ("!---->" ++ rest)) with ("" ++ "-->" ++ rest)%string.
    now rewrite (jsIndexOf_first "-->" "" rest eq_refl).
  - change ("<![CDATA[]]>" ++ rest)%string
      with (String "<" ("![CDATA[]]>" ++ rest)).
    rewrite scanAll_step. unfold scanStep. cbn [andb negb Ascii.eqb].
    fold (flushText pending d).
    destruct (flushText pending d) as [d1|x|]; cbn [mbind outcome_bind];
      try reflexivity.
    change (String.substring 0 3 ("![CDATA[]]>" ++ rest)) with "![C".
    change (String.substring 0 8 ("![CDATA[]]>" ++ rest)) with "![CDATA[".
    cbn [String.eqb Ascii.eqb Bool.eqb]. cbv zeta.
    change (JS.substr 8 ("![CDATA[]]>" ++ rest)) with ("" ++ "]]>" ++ rest)%string.
    now rewrite (jsIndexOf_first "]]>" "" rest eq_refl).
Qed.

(** A document type declaration: the text up to the first [>], without
    the blanks before it, becomes a DTD section, or a text below
    [xsl:text], and the index moves by [endTagIndex + dtdValue.length +
    5]. *)
Lemma scanAll_doctype T g pending body rest q dq d :
  body <> EmptyString -> firstAt ">" body ->
  scanAll T g pending ("<!DOCTYPE" ++ body ++ ">" ++ rest) false q dq d
  = (d1 ← flushText pending d;
     name ← parentNodeName d1;
     d2 ← appendToParent d1
            (if String.eqb name "xsl:text"
             then DomText ("<!DOCTYPE " ++ JS.trimStart body ++ ">")
             else DomDTD (JS.trimStart body));
     scanAll T g EmptyString
       (JS.substr (Z.to_nat (Z.of_nat (String.length body)
                             + Z.of_nat (String.length (JS.trimStart body)) + 5))
          ("!DOCTYPE" ++ body ++ ">" ++ rest))
       false q dq d2).
Proof.
  intros Hc Hfirst.
  change ("<!DOCTYPE" ++ body ++ ">" ++ rest)%string
    with (String "<" ("!DOCTYPE" ++ body ++ ">" ++ rest)).
  rewrite scanAll_step. unfold scanStep. cbn [andb negb Ascii.eqb].
  fold (flushText pending d).
  destruct (flushText pending d) as [d1|x|]; cbn [mbind outcome_bind];
    try reflexivity.
  change (String.substring 0 3 ("!DOCTYPE" ++ body ++ ">" ++ rest)) with "!DO".
  rewrite !(substring_app "!DOCTYPE" (body ++ ">" ++ rest) : String.substring 0 8 _ = _).
  cbn [String.eqb Ascii.eqb Bool.eqb]. cbv zeta.
  change (JS.substr 8 ("!DOCTYPE" ++ body ++ ">" ++ rest))
    with (body ++ ">" ++ rest)%string.
  rewrite (jsIndexOf_first ">" body rest Hfirst), (of_nat_eqb_0 body Hc).
  rewrite Nat2Z.id, substring_app.
  destruct (parentNodeName d1) as [name|x|]; cbn [mbind outcome_bind];
    try reflexivity.
  now destruct (appendToParent d1 _) as [d2|x|].
Qed.

Lemma doctype_resume body k rest :
  String.length (JS.trimStart body) = (4 + k)%nat ->
  JS.substr (Z.to_nat (Z.of_nat (String.length body)
                       + Z.of_nat (String.length (JS.trimStart body)) + 5))
    ("!DOCTYPE" ++ body ++ ">" ++ rest)
  = JS.substr k rest.
Proof.
  intros ->. rewrite <- (substr_section "!DOCTYPE" k body ">" rest).
  f_equal. simpl String.length. lia.
Qed.

(** X24: behind a document type declaration the loop moves its index by
    the length of the declared text: when the text between [<!DOCTYPE]
    and [>], without the blanks before it, has four characters, as in
    [<!DOCTYPE html>], the loop goes on at the character behind the [>];
    for every character more, one character of the input behind the [>]
    is skipped, whatever it is. *)
Theorem doctype_skips_by_length T g body skipped e :
  firstAt ">" body ->
  String.length (JS.trimStart body) = (4 + String.length skipped)%nat ->
  plainTree T g e -> isText e = false ->
  xmlParseBody T g ("<!DOCTYPE" ++ body ++ ">" ++ skipped ++ serialize e)
  = Ok [DomDTD (JS.trimStart body); e].
Proof.
  intros Hfirst Hlen Hplain He. rewrite xmlParseBody_scan.
  assert (Hbody : body <> EmptyString) by (intros ->; discriminate).
  rewrite (scanAll_doctype T g _ body _ _ _ _ Hbody Hfirst).
  cbn [flushText JS.nonEmpty andb mbind outcome_bind parentNodeName d_open
       d_rootOnStack String.eqb Ascii.eqb Bool.eqb appendToParent d_root app].
  rewrite (doctype_resume body _ _ Hlen).
  rewrite <- (Nat.add_0_r (String.length skipped)), substr_app.
  cbn [JS.substr]. rewrite <- (append_nil_r (serialize e)).
  rewrite (plain_tree_reads_back T g e Hplain He) by (right; reflexivity).
  reflexivity.
Qed.

Lemma doctype_skips_by_length_witness :
  xmlParseBody sampleTokens XML10
    ("<!DOCTYPE" ++ " stylesheet" ++ ">" ++ "<oops>"
     ++ serialize (DomElement "a" [] []))
  = Ok [DomDTD "stylesheet"; DomElement "a" [] []].
Proof.
  apply (doctype_skips_by_length sampleTokens XML10 " stylesheet" "<oops>"
           (DomElement "a" [] []));
    try reflexivity.
  simpl. unfold plainName. simpl.
  repeat match goal with
         | |- _ /\ _ => split
         | |- _ = _ => reflexivity
         | |- True => exact I
         end.
Defined.

(** The start tag of the document element. *)
Lemma scanAll_start_tag T g name r :
  plainName T g name ->
  scanAll T g EmptyString (String "<" (name ++ String ">" r)) false false false
    (DomState [] [] true)
  = scanAll T g EmptyString r false false false
      (DomState [OpenElement name [] []] [] true).
Proof.
  intros (Htag & Hattr & Hchars & Hslash & Hq & Hbang & Hempty).
  rewrite scanAll_open by (apply charAt0_append; [exact Hbang|reflexivity]).
  cbn [flushText JS.nonEmpty andb mbind outcome_bind].
  rewrite (scanAll_tag T g name) by exact Hchars.
  rewrite scanAll_close. unfold handleTag.
  change ("" ++ name)%string with name.
  rewrite Hslash, Hq, Hbang. unfold openTag. rewrite Htag, Hattr, Hempty.
  reflexivity.
Qed.

(** The end tag of the document element at the end of the input. *)
Lemma scanAll_end_tag T g p other o :
  JS.forallb_string tagChar other = true ->
  scanAll T g p (String "<" (String "/" (other ++ ">"))) false false false
    (DomState [o] [] true)
  = Ok (DomState [] [closed (addChildren o (textNode p))] true).
Proof.
  intros Hother.
  rewrite scanAll_open by reflexivity.
  rewrite flushText_defined by (left; discriminate).
  cbn [d_open d_root d_rootOnStack mbind outcome_bind].
  change (String "/" (other ++ ">")) with (String "/" other ++ ">")%string.
  rewrite (scanAll_tag T g (String "/" other)) by exact Hother.
  change ">"%string with (String ">" EmptyString).
  rewrite scanAll_close. reflexivity.
Qed.

(** X25: a comment and a CDATA section that are not empty become a comment
    node and a CDATA node with the text up to the first [-->] and the
    first [[]]>]; the loop goes on behind the three closing
    characters. *)
Theorem sections_are_read T g name c :
  plainName T g name -> c <> EmptyString ->
  (firstAt "-->" c ->
   xmlParseBody T g
     ("<" ++ name ++ ">" ++ "<!--" ++ c ++ "-->" ++ "</" ++ name ++ ">")
   = Ok [DomElement name [] [DomComment c]])
  /\ (firstAt "]]>" c ->
      xmlParseBody T g
        ("<" ++ name ++ ">" ++ "<![CDATA[" ++ c ++ "]]>" ++ "</" ++ name ++ ">")
      = Ok [DomElement name [] [DomCData c]]).
Proof.
  intros Hname Hc.
  assert (Hchars : JS.forallb_string tagChar name = true) by apply Hname.
  split; intros Hfirst; rewrite xmlParseBody_scan.
  - change ("<" ++ name ++ ">" ++ "<!--" ++ c ++ "-->" ++ "</" ++ name ++ ">")%string
      with (String "<" (name ++ String ">"
              ("<!--" ++ c ++ "-->" ++ String "<" (String "/" (name ++ ">"))))).
    rewrite (scanAll_start_tag T g name _ Hname).
    rewrite (scanAll_comment T g _ c _ _ _ _ Hc Hfirst).
    cbn [flushText JS.nonEmpty andb mbind outcome_bind appendToParent d_open
         d_root d_rootOnStack].
    now rewrite (scanAll_end_tag T g _ name _ Hchars).
  - change ("<" ++ name ++ ">" ++ "<![CDATA[" ++ c ++ "]]>" ++ "</" ++ name ++ ">")%string
      with (String "<" (name ++ String ">"
              ("<![CDATA[" ++ c ++ "]]>" ++ String "<" (String "/" (name ++ ">"))))).
    rewrite (scanAll_start_tag T g name _ Hname).
    rewrite (scanAll_cdata T g _ c _ _ _ _ Hc Hfirst).
    cbn [flushText JS.nonEmpty andb mbind outcome_bind appendToParent d_open
         d_root d_rootOnStack].
    now rewrite (scanAll_end_tag T g _ name _ Hchars).
Qed.

Lemma sample_name_a : plainName sampleTokens XML10 "a".
Proof. unfold plainName. simpl. repeat split. Qed.

Lemma sections_are_read_witness :
  xmlParseBody sampleTokens XML10 ("<" ++ "a" ++ ">" ++ "<!--" ++ "x > y" ++ "-->" ++ "</" ++ "a" ++ ">")
  = Ok [DomElement "a" [] [DomComment "x > y"]]
  /\ xmlParseBody sampleTokens XML10
       ("<" ++ "a" ++ ">" ++ "<![CDATA[" ++ "x > y" ++ "]]>" ++ "</" ++ "a" ++ ">")
     = Ok [DomElement "a" [] [DomCData "x > y"]].
Proof.
  destruct (sections_are_read sampleTokens XML10 "a" "x > y" sample_name_a
              ltac:(discriminate)) as [H1 H2].
  split; [apply H1|apply H2]; reflexivity.
Defined.

(** X26: an empty comment and an empty CDATA section are not recognised:
    no node is created for them, and their characters behind the [<]
    are read as text of the parent. *)
Theorem empty_section_becomes_text T g name :
  plainName T g name ->
  xmlParseBody T g ("<" ++ name ++ ">" ++ "<!---->" ++ "</" ++ name ++ ">")
  = Ok [DomElement name [] [DomText "!---->"]]
  /\ xmlParseBody T g
       ("<" ++ name ++ ">" ++ "<![CDATA[]]>" ++ "</" ++ name ++ ">")
     = Ok [DomElement name [] [DomText "![CDATA[]]>"]].
Proof.
  intros Hname.
  assert (Hchars : JS.forallb_string tagChar name = true) by apply Hname.
  split; rewrite xmlParseBody_scan.
  - change ("<" ++ name ++ ">" ++ "<!---->" ++ "</" ++ name ++ ">")%string
      with (String "<" (name ++ String ">"
              ("<!---->" ++ String "<" (String "/" (name ++ ">"))))).
    rewrite (scanAll_start_tag T g name _ Hname).
    rewrite (proj1 (scanAll_empty_section T g _ _ _ _ _)).
    cbn [flushText JS.nonEmpty andb mbind outcome_bind].
    rewrite (scanAll_text T g "!---->") by reflexivity.
    now rewrite (scanAll_end_tag T g _ name _ Hchars).
  - change ("<" ++ name ++ ">" ++ "<![CDATA[]]>" ++ "</" ++ name ++ ">")%string
      with (String "<" (name ++ String ">"
              ("<![CDATA[]]>" ++ String "<" (String "/" (name ++ ">"))))).
    rewrite (scanAll_start_tag T g name _ Hname).
    rewrite (proj2 (scanAll_empty_section T g _ _ _ _ _)).
    cbn [flushText JS.nonEmpty andb mbind outcome_bind].
    rewrite (scanAll_text T g "![CDATA[]]>") by reflexivity.
    now rewrite (scanAll_end_tag T g _ name _ Hchars).
Qed.

Lemma empty_section_becomes_text_witness :
  xmlParseBody sampleTokens XML10 "<a><!----></a>"
  = Ok [DomElement "a" [] [DomText "!---->"]]
  /\ xmlParseBody sampleTokens XML10 "<a><![CDATA[]]></a>"
     = Ok [DomElement "a" [] [DomText "![CDATA[]]>"]].
Proof. apply (empty_section_becomes_text sampleTokens XML10 "a" sample_name_a). Defined.

(** *** Quotations in a tag *)

Lemma scanAll_quote T g double pending rest d :
  (scanAll T g pending (String (quoteChar double) rest) true false false d
   = scanAll T g (pending ++ String (quoteChar double) EmptyString) rest true
       (negb double) double d)
  /\ (scanAll T g pending (String (quoteChar double) rest) true
        (negb double) double d
      = scanAll T g (pending ++ String (quoteChar double) EmptyString) rest true
          false false d).
Proof.
  split; rewrite scanAll_step; unfold scanStep; now destruct double.
Qed.

Lemma scanAll_quoted T g double q :
  forall pending rest d,
    JS.forallb_string (fun c => negb (Ascii.eqb c (quoteChar double))) q = true ->
    scanAll T g pending (q ++ rest) true (negb double) double d
    = scanAll T g (pending ++ q) rest true (negb double) double d.
Proof.
  induction q as [|c q IH]; intros pending rest d Hq.
  - simpl. now rewrite append_nil_r.
  - simpl in Hq. apply andb_prop in Hq. destruct Hq as [Hc Hq].
    apply negb_true_iff in Hc.
    change (String c q ++ rest)%string with (String c (q ++ rest)).
    rewrite scanAll_step. unfold scanStep.
    assert (Hstep :
      (if true && negb double && Ascii.eqb c "'" then true
       else if true && negb (negb double) && Ascii.eqb c (ascii_of_nat 34) then true
       else if true && Ascii.eqb c ">" && negb (negb double) && negb double
            then true else negb true && Ascii.eqb c "<") = false).
    { destruct double; simpl in *; rewrite ?Hc; simpl;
        now rewrite ?andb_false_r. }
    destruct (true && negb double && Ascii.eqb c "'") eqn:H1;
      [discriminate Hstep|].
    destruct (true && negb (negb double) && Ascii.eqb c (ascii_of_nat 34)) eqn:H2;
      [discriminate Hstep|].
    destruct (true && Ascii.eqb c ">" && negb (negb double) && negb double) eqn:H3;
      [discriminate Hstep|].
    cbn [negb andb]. rewrite IH by exact Hq.
    now rewrite append_assoc.
Qed.

Lemma endsWithSlash_snoc (s : string) : endsWithSlash (s ++ "/") = true.
Proof.
  induction s as [|c s IH]; [reflexivity|].
  change (String c s ++ "/")%string with (String c (s ++ "/")).
  cbn [endsWithSlash]. destruct (s ++ "/")%string eqn:Hs; [|exact IH].
  destruct s; discriminate.
Qed.

(** X27: a [>] between quotation marks does not end a tag: the text of the
    tag, from which the name and the attributes are read, runs over the
    quotation to the first [>] behind it, and within one kind of
    quotation marks the other kind is plain text. *)
Theorem quoted_gt_does_not_end_tag T g double t q name :
  JS.forallb_string tagChar t = true ->
  JS.charAt0_is "/" t = false ->
  JS.charAt0_is "?" t = false ->
  JS.charAt0_is "!" t = false ->
  JS.forallb_string (fun c => negb (Ascii.eqb c (quoteChar double))) q = true ->
  tagNameOf T g (quotedTag double t q) = Some name ->
  xmlParseBody T g ("<" ++ quotedTag double t q ++ ">")
  = Ok [DomElement name (attributesSet T g (quotedTag double t q)) []].
Proof.
  intros Ht Hslash Hqm Hbang Hq Hname. rewrite xmlParseBody_scan.
  unfold quotedTag in *.
  set (text := (t ++ String (quoteChar double)
                       (q ++ String (quoteChar double) "/"))%string) in *.
  assert (Hfirst : forall c, JS.charAt0_is c t = false ->
                     Ascii.eqb (quoteChar double) c = false ->
                     JS.charAt0_is c text = false).
  { intros c H1 H2. subst text. destruct t; [exact H2|exact H1]. }
  assert (Hslash' : JS.charAt0_is "/" text = false)
    by (apply Hfirst; [exact Hslash|now destruct double]).
  assert (Hqm' : JS.charAt0_is "?" text = false)
    by (apply Hfirst; [exact Hqm|now destruct double]).
  assert (Hbang' : JS.charAt0_is "!" text = false)
    by (apply Hfirst; [exact Hbang|now destruct double]).
  assert (Hempty : endsWithSlash text = true).
  { subst text.
    change (t ++ String (quoteChar double) (q ++ String (quoteChar double) "/"))%string
      with (t ++ String (quoteChar double) (q ++ String (quoteChar double) EmptyString
                                            ++ "/"))%string.
    change (String (quoteChar double) ?a) with (String (quoteChar double) "" ++ a)%string.
    rewrite <- !append_assoc. apply endsWithSlash_snoc. }
  change ("<" ++ text ++ ">")%string with (String "<" (text ++ ">")).
  rewrite scanAll_open by (apply charAt0_append; [exact Hbang'|reflexivity]).
  cbn [flushText JS.nonEmpty andb mbind outcome_bind].
  assert (Hscan : forall d,
    scanAll T g EmptyString (text ++ ">") true false false d
    = scanAll T g text ">" true false false d).
  { intros d. subst text. rewrite append_assoc.
    rewrite (scanAll_tag T g t) by exact Ht.
    change (String (quoteChar double) ?a ++ ">")%string
      with (String (quoteChar double) (a ++ ">")).
    rewrite (proj1 (scanAll_quote T g double _ _ _)).
    rewrite (append_assoc q), (scanAll_quoted T g double q) by exact Hq.
    change (String (quoteChar double) "/" ++ ">")%string
      with (String (quoteChar double) (String "/" ">")).
    rewrite (proj2 (scanAll_quote T g double _ _ _)).
    rewrite (scanAll_tag T g "/" _ ">") by reflexivity.
    f_equal. change ("" ++ t)%string with t.
    rewrite !append_assoc. reflexivity. }
  rewrite Hscan.
  change ">"%string with (String ">" EmptyString).
  rewrite scanAll_close. unfold handleTag.
  rewrite Hslash', Hqm', Hbang'. unfold openTag. rewrite Hname, Hempty.
  reflexivity.
Qed.

Lemma quoted_gt_does_not_end_tag_witness :
  xmlParseBody sampleTokens XML10 ("<" ++ quotedTag false "a b=" "x>y" ++ ">")
  = Ok [DomElement "a" [("b", "x>y")] []].
Proof.
  apply (quoted_gt_does_not_end_tag sampleTokens XML10 false "a b=" "x>y" "a");
    reflexivity.
Defined.
